(** * A recursive-descent calculator: lexer, parser and evaluator of calc.py

    The development embeds the three parts of [calc.py] (the class [Lexer],
    the class [Parser], the function [eval] with the global table [VARS])
    and proves properties of the pipeline [calc]. *)

From Stdlib Require Import ZArith NArith List String Ascii Bool Lia Decimal DecimalN.
Import ListNotations.

Local Open Scope string_scope.
Local Open Scope list_scope.
Local Open Scope Z_scope.

(** ** Python values

    Characters are Unicode code points, a [str] is a sequence of them.  A
    token is an [int] or a [str]; an AST node is an [int], a [str] or a
    tuple whose first item is the operator.  The three share one type, as
    they do in the source. *)

Definition char := N.
Definition pystr := list char.

Fixpoint str (s : string) : pystr :=
  match s with
  | EmptyString => []
  | String a s' => N_of_ascii a :: str s'
  end.

#[local] Set Warnings "-register-all".

Inductive obj : Type :=
| Int (n : Z)
| Str (s : pystr)
| Tuple (items : list obj).

Fixpoint pystr_eqb (a b : pystr) : bool :=
  match a, b with
  | [], [] => true
  | x :: a', y :: b' => N.eqb x y && pystr_eqb a' b'
  | _, _ => false
  end.

(** [a == b] on the values above: structural. *)
Fixpoint obj_eqb (a b : obj) : bool :=
  match a, b with
  | Int n, Int m => Z.eqb n m
  | Str s, Str t => pystr_eqb s t
  | Tuple xs, Tuple ys =>
      (fix items_eqb (xs ys : list obj) : bool :=
         match xs, ys with
         | [], [] => true
         | x :: xs', y :: ys' => obj_eqb x y && items_eqb xs' ys'
         | _, _ => false
         end) xs ys
  | _, _ => false
  end.

(** [x in (a, b, ...)] *)
Definition obj_in (x : obj) (l : list obj) : bool := existsb (obj_eqb x) l.

(** The tuple of the strings [l] *)
Definition toks (l : list string) : list obj := map (fun s => Str (str s)) l.

(** [isinstance(x, int)], [isinstance(x, str)] *)
Definition is_int (x : obj) : bool := match x with Int _ => true | _ => false end.
Definition is_str (x : obj) : bool := match x with Str _ => true | _ => false end.

(** ** Characters and decimal numerals *)

Definition is_blank (c : char) : bool := (c =? 32)%N || (c =? 9)%N.
Definition is_digit (c : char) : bool := (48 <=? c)%N && (c <=? 57)%N.
Definition is_letter (c : char) : bool :=
  ((65 <=? c)%N && (c <=? 90)%N) || ((97 <=? c)%N && (c <=? 122)%N).
Definition is_punct (c : char) : bool :=
  existsb (N.eqb c) (str "+-*/^()?:|&!@%=<>%").
(** the regular expression [.] : any character but a newline *)
Definition is_dot (c : char) : bool := negb (c =? 10)%N.

(** [s.isalpha()].  Every [str] the lexer returns is ASCII (lemma
    [LexerFacts.next_ascii] below), and on ASCII text [isalpha] is: not empty,
    letters only. *)
Definition isalpha (s : pystr) : bool :=
  match s with [] => false | _ => forallb is_letter s end.

(** [x] is a [str] and [x.isalpha()] *)
Definition is_name (x : obj) : bool :=
  match x with Str s => isalpha s | _ => false end.

(** [int(s)] on a run of decimal digits, one digit after the other.  (The
    interpreter's limit on the length of a numeral is not modelled.) *)
Definition shift (acc : Z) (c : char) : Z := 10 * acc + (Z.of_N c - 48).

Definition int (s : pystr) : Z := fold_left shift s 0.

Fixpoint uint_digits (d : Decimal.uint) : pystr :=
  match d with
  | Nil => []
  | D0 d => 48%N :: uint_digits d
  | D1 d => 49%N :: uint_digits d
  | D2 d => 50%N :: uint_digits d
  | D3 d => 51%N :: uint_digits d
  | D4 d => 52%N :: uint_digits d
  | D5 d => 53%N :: uint_digits d
  | D6 d => 54%N :: uint_digits d
  | D7 d => 55%N :: uint_digits d
  | D8 d => 56%N :: uint_digits d
  | D9 d => 57%N :: uint_digits d
  end.

(** [str(n)] on a natural number and on an integer *)
Definition str_of_N (n : N) : pystr := uint_digits (N.to_uint n).
Definition str_of_Z (n : Z) : pystr :=
  match n with
  | Zneg p => str "-" ++ str_of_N (Npos p)
  | _ => str_of_N (Z.to_N n)
  end.

(** [str(x)] for a token *)
Definition str_of_tok (x : obj) : pystr :=
  match x with
  | Int n => str_of_Z n
  | Str s => s
  | Tuple _ => []
  end.

(** ** Outcomes

    A call returns, raises, or leaves what the embedding covers: a float
    (the value of [int ** negative int]) or the end of the fuel that bounds
    the parser's recursion. *)

Inductive exn : Type :=
| ParseError (message : pystr)
| ZeroDivisionError
| ValueError (op : obj)     (* "Unknown operator in eval: {op}" *)
| TypeError
| IndexError.

Inductive limit : Type := FloatArithmetic | Fuel.

Inductive outcome (A : Type) : Type :=
| Ok (a : A)
| Raise (e : exn)
| Beyond (l : limit).

Arguments Ok {A} a.
Arguments Raise {A} e.
Arguments Beyond {A} l.

(** ** The lexer *)

Module Lexer.

(** The cursor [(s, pos)] of the source is kept as the unread text
    [s[pos:]]: the source reads [s] and [pos] only in [match(s, pos)] and
    in the test [pos >= len(s)]. *)
Definition t := pystr.

Definition init (input_string : pystr) : t := input_string.

(** A compiled pattern, matched at the cursor: the matched text and what
    follows it. *)
Definition regex := pystr -> option (pystr * pystr).

Fixpoint span (cls : char -> bool) (s : pystr) : pystr * pystr :=
  match s with
  | c :: r =>
      if cls c then let (m, r') := span cls r in (c :: m, r') else ([], s)
  | [] => ([], [])
  end.

(** [[cls]+] *)
Definition many1 (cls : char -> bool) : regex := fun s =>
  match span cls s with
  | ([], _) => None
  | (m, r) => Some (m, r)
  end.

(** [[cls]] and [.] *)
Definition one (cls : char -> bool) : regex := fun s =>
  match s with
  | c :: r => if cls c then Some ([c], r) else None
  | [] => None
  end.

(** [==|!=|<=|>=] *)
Definition two_char_op : regex := fun s =>
  match s with
  | a :: b :: r =>
      if ((a =? 61)%N || (a =? 33)%N || (a =? 60)%N || (a =? 62)%N)
         && (b =? 61)%N
      then Some ([a; b], r) else None
  | _ => None
  end.

Definition ignore : regex := many1 is_blank.

Definition ord (s : pystr) : N := hd 0%N s.

Definition rules : list (regex * (pystr -> obj)) :=
  [ (two_char_op, fun s => Str s);
    (many1 is_digit, fun s => Int (int s));
    (many1 is_letter, fun s => Str s);
    (one is_punct, fun s => Str s);
    (one is_dot, fun s => Str (str "#" ++ str_of_N (ord s))) ].

Fixpoint first_match (rs : list (regex * (pystr -> obj))) (l : t)
  : option (obj * t) :=
  match rs with
  | [] => None
  | (r, f) :: rs' =>
      match r l with
      | Some (m, rest) => Some (f m, rest)
      | None => first_match rs' l
      end
  end.

Definition next (l : t) : obj * t :=
  let l := match ignore l with Some (_, rest) => rest | None => l end in
  match l with
  | [] => (Str (str "$"), l)
  | _ =>
      match first_match rules l with
      | Some r => r
      | None => (Str (str "$"), l)
      end
  end.

End Lexer.

(** ** The parser *)

Module Parser.

Record t : Type := mk { lexer : Lexer.t; tok : obj }.

(** A method of the parser: it reads and updates the object, and returns
    or raises. *)
Definition M (A : Type) : Type := t -> outcome (A * t).

Definition ret {A} (a : A) : M A := fun p => Ok (a, p).

Definition bind {A B} (m : M A) (k : A -> M B) : M B := fun p =>
  match m p with
  | Ok (a, p') => k a p'
  | Raise e => Raise e
  | Beyond l => Beyond l
  end.

Declare Scope parser_scope.
Delimit Scope parser_scope with parser.
Bind Scope parser_scope with M.

Notation "x <- m ;; k" := (bind m (fun x => k))
  (at level 61, m at next level, right associativity) : parser_scope.
Notation "m ;; k" := (bind m (fun _ => k))
  (at level 61, right associativity) : parser_scope.

Local Open Scope parser_scope.

(** [self.tok] *)
Definition get_tok : M obj := fun p => Ok (tok p, p).

Definition out_of_fuel {A} : M A := fun _ => Beyond Fuel.

(** [Parser(input_string)] *)
Definition init (input_string : pystr) : t :=
  let (x, l) := Lexer.next (Lexer.init input_string) in
  {| lexer := l; tok := x |}.

(** [self.next()] *)
Definition next : M unit := fun p =>
  let (x, l) := Lexer.next (lexer p) in
  Ok (tt, {| lexer := l; tok := x |}).

(** [self.error(msg)] *)
Definition error {A} (msg : string) : M A := fun p =>
  Raise (ParseError
           (str msg ++ str " [next token: " ++ str_of_tok (tok p) ++ str "]")).

Definition tok_is (s : string) : M bool := fun p =>
  Ok (obj_eqb (tok p) (Str (str s)), p).

Definition tok_in (l : list string) : M bool := fun p =>
  Ok (obj_in (tok p) (toks l), p).

(** The methods call one another; [fuel] bounds the depth of the calls.
    The [while] loops of [parse_compare], [parse_add] and [parse_mul] are
    [compare_loop], [add_loop] and [mul_loop]. *)
Fixpoint parse_assign (fuel : nat) : M obj :=
  match fuel with
  | O => out_of_fuel
  | S fuel =>
      e <- parse_ternary fuel ;;
      eq <- tok_is "=" ;;
      if is_name e && eq then
        next ;;
        rhs <- parse_assign fuel ;;
        ret (Tuple [Str (str "="); e; rhs])
      else ret e
  end

with parse_ternary (fuel : nat) : M obj :=
  match fuel with
  | O => out_of_fuel
  | S fuel =>
      e <- parse_or fuel ;;
      q <- tok_is "?" ;;
      if q then
        next ;;
        true_branch <- parse_assign fuel ;;
        colon <- tok_is ":" ;;
        (if negb colon then error "missing ':' in ternary expression"
         else ret tt) ;;
        next ;;
        false_branch <- parse_assign fuel ;;
        ret (Tuple [Str (str "?:"); e; true_branch; false_branch])
      else ret e
  end

with parse_or (fuel : nat) : M obj :=
  match fuel with
  | O => out_of_fuel
  | S fuel =>
      left <- parse_and fuel ;;
      b <- tok_is "|" ;;
      if b then
        next ;;
        right <- parse_or fuel ;;
        ret (Tuple [Str (str "|"); left; right])
      else ret left
  end

with parse_and (fuel : nat) : M obj :=
  match fuel with
  | O => out_of_fuel
  | S fuel =>
      left <- parse_not fuel ;;
      b <- tok_is "&" ;;
      if b then
        next ;;
        right <- parse_and fuel ;;
        ret (Tuple [Str (str "&"); left; right])
      else ret left
  end

with parse_not (fuel : nat) : M obj :=
  match fuel with
  | O => out_of_fuel
  | S fuel =>
      b <- tok_is "!" ;;
      if b then
        next ;;
        e <- parse_not fuel ;;
        ret (Tuple [Str (str "!"); e])
      else parse_compare fuel
  end

with parse_compare (fuel : nat) : M obj :=
  match fuel with
  | O => out_of_fuel
  | S fuel =>
      e <- parse_add fuel ;;
      compare_loop fuel e
  end

with compare_loop (fuel : nat) (e : obj) : M obj :=
  match fuel with
  | O => out_of_fuel
  | S fuel =>
      b <- tok_in ["=="; "!="; "<"; "<="; ">"; ">="] ;;
      if b then
        op <- get_tok ;;
        next ;;
        right <- parse_add fuel ;;
        compare_loop fuel (Tuple [op; e; right])
      else ret e
  end

with parse_add (fuel : nat) : M obj :=
  match fuel with
  | O => out_of_fuel
  | S fuel =>
      e <- parse_mul fuel ;;
      add_loop fuel e
  end

with add_loop (fuel : nat) (e : obj) : M obj :=
  match fuel with
  | O => out_of_fuel
  | S fuel =>
      b <- tok_in ["+"; "-"] ;;
      if b then
        op <- get_tok ;;
        next ;;
        right <- parse_mul fuel ;;
        add_loop fuel (Tuple [op; e; right])
      else ret e
  end

with parse_mul (fuel : nat) : M obj :=
  match fuel with
  | O => out_of_fuel
  | S fuel =>
      e <- parse_unary fuel ;;
      mul_loop fuel e
  end

with mul_loop (fuel : nat) (e : obj) : M obj :=
  match fuel with
  | O => out_of_fuel
  | S fuel =>
      b <- tok_in ["*"; "/"; "%"] ;;
      if b then
        op <- get_tok ;;
        next ;;
        right <- parse_unary fuel ;;
        mul_loop fuel (Tuple [op; e; right])
      else ret e
  end

with parse_unary (fuel : nat) : M obj :=
  match fuel with
  | O => out_of_fuel
  | S fuel =>
      b <- tok_in ["-"; "@"] ;;
      if b then
        op <- get_tok ;;
        next ;;
        e <- parse_unary fuel ;;
        ret (Tuple [op; e])
      else parse_pow fuel
  end

with parse_pow (fuel : nat) : M obj :=
  match fuel with
  | O => out_of_fuel
  | S fuel =>
      left <- parse_factor fuel ;;
      b <- tok_is "^" ;;
      if b then
        next ;;
        right <- parse_pow fuel ;;
        ret (Tuple [Str (str "^"); left; right])
      else ret left
  end

with parse_factor (fuel : nat) : M obj :=
  match fuel with
  | O => out_of_fuel
  | S fuel =>
      x <- get_tok ;;
      if is_int x then
        next ;;
        ret x
      else if is_name x then
        next ;;
        ret x
      else
        lp <- tok_is "(" ;;
        if lp then
          next ;;
          e <- parse_assign fuel ;;
          rp <- tok_is ")" ;;
          (if negb rp then error "missing ')'" else ret tt) ;;
          next ;;
          ret e
        else error "expected int, variable, or '('"
  end.

(** [self.parse()]: an expression, then the end marker *)
Definition parse_from (fuel : nat) : M obj :=
  e <- parse_assign fuel ;;
  b <- tok_is "$" ;;
  if b then ret e else error "extraneous input".

(** Enough fuel for every input (lemma [ParserTotal.parse_total]): calls
    nest less than fourteen deep between two tokens.  The interpreter's
    own limit on the depth of recursion is not modelled. *)
Definition fuel_for (input_string : pystr) : nat :=
  30 + 14 * List.length input_string.

(** [Parser(input_string).parse()] *)
Definition parse (input_string : pystr) : outcome obj :=
  match parse_from (fuel_for input_string) (init input_string) with
  | Ok (e, _) => Ok e
  | Raise e => Raise e
  | Beyond l => Beyond l
  end.

End Parser.

(** ** The evaluator *)

(** The table [VARS]: a [dict], its items in insertion order.  A key is any
    value [eval] may store under (the parser only builds names). *)
Definition dict := list (obj * Z).

(** [d.get(k, default)] *)
Fixpoint dict_get (d : dict) (k : obj) (default : Z) : Z :=
  match d with
  | [] => default
  | (k', v) :: d' => if obj_eqb k' k then v else dict_get d' k default
  end.

(** [d[k] = v] *)
Fixpoint dict_set (d : dict) (k : obj) (v : Z) : dict :=
  match d with
  | [] => [(k, v)]
  | (k', v') :: d' =>
      if obj_eqb k' k then (k', v) :: d' else (k', v') :: dict_set d' k v
  end.

(** [k in d] *)
Definition dict_mem (d : dict) (k : obj) : bool :=
  existsb (fun kv => obj_eqb (fst kv) k) d.

(** A call that reads and updates [VARS]: what it does to the table stays
    done when it raises. *)
Definition E (A : Type) : Type := dict -> outcome A * dict.

Definition ret {A} (a : A) : E A := fun VARS => (Ok a, VARS).

Definition raise {A} (e : exn) : E A := fun VARS => (Raise e, VARS).

Definition bind {A B} (m : E A) (k : A -> E B) : E B := fun VARS =>
  match m VARS with
  | (Ok a, VARS') => k a VARS'
  | (Raise e, VARS') => (Raise e, VARS')
  | (Beyond l, VARS') => (Beyond l, VARS')
  end.

Declare Scope eval_scope.
Delimit Scope eval_scope with eval.
Bind Scope eval_scope with E.

Notation "x <- m ;; k" := (bind m (fun x => k))
  (at level 61, m at next level, right associativity) : eval_scope.

Definition assign_var (name : obj) (value : Z) : E Z := fun VARS =>
  (Ok value, dict_set VARS name value).

(** The operators on [left] and [right], each [None] or an [int]. *)
Definition arith (f : Z -> Z -> outcome Z) (left right : option Z) : E Z :=
  fun VARS =>
    match left, right with
    | Some a, Some b => (f a b, VARS)
    | _, _ => (Raise TypeError, VARS)
    end.

Definition truth (b : bool) : Z := if b then 1 else 0.

Definition floordiv (a b : Z) : outcome Z :=
  if b =? 0 then Raise ZeroDivisionError else Ok (a / b).

Definition modulo (a b : Z) : outcome Z :=
  if b =? 0 then Raise ZeroDivisionError else Ok (a mod b).

(** [a ** b]: a float when [b] is negative, unless [a] is zero. *)
Definition power (a b : Z) : outcome Z :=
  if 0 <=? b then Ok (a ^ b)
  else if a =? 0 then Raise ZeroDivisionError
  else Beyond FloatArithmetic.

Definition opt_eqb (left right : option Z) : bool :=
  match left, right with
  | Some a, Some b => a =? b
  | None, None => true
  | _, _ => false
  end.

Definition is_op (op : obj) (s : string) : bool := obj_eqb op (Str (str s)).

Local Open Scope eval_scope.

Fixpoint eval (e : obj) : E Z :=
  match e with
  | Int n => ret n
  | Str _ => fun VARS => (Ok (dict_get VARS e 0), VARS)
  | Tuple [] => raise IndexError
  | Tuple (op :: args) =>
      if is_op op "=" then
        match args with
        | varname :: rhs :: _ =>
            val <- eval rhs ;;
            assign_var varname val
        | _ => raise IndexError
        end
      else if is_op op "?:" then
        match args with
        | cond :: branches =>
            cond_val <- eval cond ;;
            if negb (cond_val =? 0) then
              match branches with
              | true_branch :: _ => eval true_branch
              | _ => raise IndexError
              end
            else
              match branches with
              | _ :: false_branch :: _ => eval false_branch
              | _ => raise IndexError
              end
        | [] => raise IndexError
        end
      else if is_op op "|" then
        match args with
        | l :: rest =>
            left_val <- eval l ;;
            if negb (left_val =? 0) then ret left_val
            else
              match rest with
              | r :: _ => eval r
              | [] => raise IndexError
              end
        | [] => raise IndexError
        end
      else if is_op op "&" then
        match args with
        | l :: rest =>
            left_val <- eval l ;;
            if left_val =? 0 then ret 0
            else
              match rest with
              | r :: _ => eval r
              | [] => raise IndexError
              end
        | [] => raise IndexError
        end
      else if is_op op "!" then
        match args with
        | a :: _ => v <- eval a ;; ret (truth (v =? 0))
        | [] => raise IndexError
        end
      else if is_op op "-" then
        match args with
        | a :: _ => v <- eval a ;; ret (- v)
        | [] => raise IndexError
        end
      else if is_op op "@" then
        match args with
        | a :: _ => v <- eval a ;; ret (Z.abs v)
        | [] => raise IndexError
        end
      else
        left <- match args with
                | a :: _ => v <- eval a ;; ret (Some v)
                | [] => ret None
                end ;;
        right <- match args with
                 | _ :: b :: _ => v <- eval b ;; ret (Some v)
                 | _ => ret None
                 end ;;
        if is_op op "+" then arith (fun a b => Ok (a + b)) left right
        else if is_op op "*" then arith (fun a b => Ok (a * b)) left right
        else if is_op op "/" then arith floordiv left right
        else if is_op op "%" then arith modulo left right
        else if is_op op "^" then arith power left right
        else if is_op op "==" then ret (truth (opt_eqb left right))
        else if is_op op "!=" then ret (truth (negb (opt_eqb left right)))
        else if is_op op "<" then
          arith (fun a b => Ok (truth (a <? b))) left right
        else if is_op op "<=" then
          arith (fun a b => Ok (truth (a <=? b))) left right
        else if is_op op ">" then
          arith (fun a b => Ok (truth (a >? b))) left right
        else if is_op op ">=" then
          arith (fun a b => Ok (truth (a >=? b))) left right
        else raise (ValueError op)
  end.

(** [calc(line)]: parse, then evaluate *)
Definition calc (line : pystr) : E Z := fun VARS =>
  match Parser.parse line with
  | Ok ast => eval ast VARS
  | Raise e => (Raise e, VARS)
  | Beyond l => (Beyond l, VARS)
  end.

Local Close Scope eval_scope.

(** * Notions used in the statements *)

(** Both operands of a binary node, the left one first, then the operator:
    the last part of [eval]. *)
Definition binary (a b : obj) (f : Z -> Z -> outcome Z) : E Z :=
  (left <- (v <- eval a ;; ret (Some v)) ;;
   right <- (v <- eval b ;; ret (Some v)) ;;
   arith f left right)%eval.

(** The operators that [eval] handles before it evaluates both operands. *)
Definition early (op : obj) : bool :=
  is_op op "=" || is_op op "?:" || is_op op "|" || is_op op "&"
  || is_op op "!" || is_op op "-" || is_op op "@".

(** [approx r r']: [r] is [r'], or [r] ran out of fuel. *)
Definition approx {A} (r r' : outcome A) : Prop := r = Beyond Fuel \/ r = r'.

Definition approxM {A} (m m' : Parser.M A) : Prop :=
  forall p, approx (m p) (m' p).

(** One more unit of fuel, for the fourteen functions at once. *)
Definition step_mono (n : nat) : Prop :=
  approxM (Parser.parse_assign n) (Parser.parse_assign (S n))
  /\ approxM (Parser.parse_ternary n) (Parser.parse_ternary (S n))
  /\ approxM (Parser.parse_or n) (Parser.parse_or (S n))
  /\ approxM (Parser.parse_and n) (Parser.parse_and (S n))
  /\ approxM (Parser.parse_not n) (Parser.parse_not (S n))
  /\ approxM (Parser.parse_compare n) (Parser.parse_compare (S n))
  /\ (forall e, approxM (Parser.compare_loop n e) (Parser.compare_loop (S n) e))
  /\ approxM (Parser.parse_add n) (Parser.parse_add (S n))
  /\ (forall e, approxM (Parser.add_loop n e) (Parser.add_loop (S n) e))
  /\ approxM (Parser.parse_mul n) (Parser.parse_mul (S n))
  /\ (forall e, approxM (Parser.mul_loop n e) (Parser.mul_loop (S n) e))
  /\ approxM (Parser.parse_unary n) (Parser.parse_unary (S n))
  /\ approxM (Parser.parse_pow n) (Parser.parse_pow (S n))
  /\ approxM (Parser.parse_factor n) (Parser.parse_factor (S n)).

(** The text [rest] does not continue a run of [cls]. *)
Definition stops (cls : char -> bool) (rest : pystr) : bool :=
  match rest with
  | [] => true
  | c :: _ => negb (cls c)
  end.

(** The tokens that continue an expression after an operand. *)
Definition continues (x : obj) : bool :=
  obj_in x (toks ["^"; "*"; "/"; "%"; "+"; "-"; "=="; "!="; "<"; "<="; ">";
                  ">="; "&"; "|"; "?"]).

(** The prefix operators. *)
Definition prefix_op (x : obj) : bool := obj_in x (toks ["!"; "-"; "@"]).

(** The parser after [self.next()]. *)
Definition advance (p : Parser.t) : Parser.t :=
  let (x, l) := Lexer.next (Parser.lexer p) in
  {| Parser.lexer := l; Parser.tok := x |}.

(** What is left to read: the unread text, and the current token unless it
    is the end marker. *)
Definition remaining (p : Parser.t) : nat :=
  (List.length (Parser.lexer p)
   + (if obj_eqb (Parser.tok p) (Str (str "$")) then 0 else 1))%nat.

(** [wp m Q p]: from [p], the method [m] does not run out of fuel, and [Q]
    holds of what it returns. *)
Definition wp {A} (m : Parser.M A) (Q : A -> Parser.t -> Prop) (p : Parser.t)
  : Prop :=
  match m p with
  | Ok (a, q) => Q a q
  | Raise _ => True
  | Beyond _ => False
  end.

(** The fuel [n] covers a method of rank [rank] from [p]: twelve calls for
    each token left, and the levels below the method. *)
Definition covers (rank n : nat) (p : Parser.t) : Prop :=
  (12 * remaining p + rank <= n)%nat.

(** With fuel that covers it, the method returns or raises, and reads
    forward only. *)
Definition terminates (rank : nat) (m : nat -> Parser.M obj) (n : nat) : Prop :=
  forall p, covers rank n p ->
            wp (m n) (fun _ q => (remaining q <= remaining p)%nat) p.

Definition all_terminate (n : nat) : Prop :=
  terminates 11 Parser.parse_assign n
  /\ terminates 10 Parser.parse_ternary n
  /\ terminates 9 Parser.parse_or n
  /\ terminates 8 Parser.parse_and n
  /\ terminates 7 Parser.parse_not n
  /\ terminates 6 Parser.parse_compare n
  /\ (forall e, terminates 1 (fun n => Parser.compare_loop n e) n)
  /\ terminates 5 Parser.parse_add n
  /\ (forall e, terminates 1 (fun n => Parser.add_loop n e) n)
  /\ terminates 4 Parser.parse_mul n
  /\ (forall e, terminates 1 (fun n => Parser.mul_loop n e) n)
  /\ terminates 3 Parser.parse_unary n
  /\ terminates 2 Parser.parse_pow n
  /\ terminates 1 Parser.parse_factor n.

(** ASCII text *)
Definition is_ascii (s : pystr) : bool := forallb (fun c => (c <? 128)%N) s.

(** The trees of the grammar: integers, names, and the tuples that
    [Parser] builds, an operator in front of its one, two or three operands. *)
Definition unary_ops : list obj := toks ["!"; "-"; "@"].

Definition binary_ops : list obj :=
  toks ["|"; "&"; "=="; "!="; "<"; "<="; ">"; ">="; "+"; "-"; "*"; "/"; "%";
        "^"].

Fixpoint wf (e : obj) : bool :=
  match e with
  | Int _ => true
  | Str s => isalpha s
  | Tuple [op; a] => obj_in op unary_ops && wf a
  | Tuple [op; a; b] =>
      (is_op op "=" && is_name a && wf b)
      || (obj_in op binary_ops && wf a && wf b)
  | Tuple [op; c; a; b] => is_op op "?:" && wf c && wf a && wf b
  | Tuple _ => false
  end.

(** [sound m Q p]: what the method [m] returns from [p] satisfies [Q], and
    what it raises is a [ParseError]. *)
Definition sound {A} (m : Parser.M A) (Q : A -> Parser.t -> Prop)
           (p : Parser.t) : Prop :=
  match m p with
  | Ok (a, q) => Q a q
  | Raise ex => exists message, ex = ParseError message
  | Beyond _ => True
  end.

Definition returns_wf (m : Parser.M obj) : Prop :=
  forall p, sound m (fun e _ => wf e = true) p.

Definition all_return_wf (n : nat) : Prop :=
  returns_wf (Parser.parse_assign n)
  /\ returns_wf (Parser.parse_ternary n)
  /\ returns_wf (Parser.parse_or n)
  /\ returns_wf (Parser.parse_and n)
  /\ returns_wf (Parser.parse_not n)
  /\ returns_wf (Parser.parse_compare n)
  /\ (forall e, wf e = true -> returns_wf (Parser.compare_loop n e))
  /\ returns_wf (Parser.parse_add n)
  /\ (forall e, wf e = true -> returns_wf (Parser.add_loop n e))
  /\ returns_wf (Parser.parse_mul n)
  /\ (forall e, wf e = true -> returns_wf (Parser.mul_loop n e))
  /\ returns_wf (Parser.parse_unary n)
  /\ returns_wf (Parser.parse_pow n)
  /\ returns_wf (Parser.parse_factor n).

(** What [eval] does on a tree of the grammar: a value, a division by zero,
    or a float. *)
Definition safe (r : outcome Z * dict) : Prop :=
  match fst r with
  | Ok _ => True
  | Raise ZeroDivisionError => True
  | Raise _ => False
  | Beyond FloatArithmetic => True
  | Beyond Fuel => False
  end.

(** The operators of the last part of [eval]: arithmetic and comparison. *)
Definition eager_ops : list obj :=
  toks ["+"; "*"; "/"; "%"; "^"; "=="; "!="; "<"; "<="; ">"; ">="].

(** The tree holds an assignment node. *)
Fixpoint assigns (e : obj) : bool :=
  match e with
  | Tuple (op :: args) => is_op op "=" || existsb assigns args
  | _ => false
  end.

(** The message of [self.error(msg)]. *)
Definition error_text (msg : string) (x : obj) : pystr :=
  str msg ++ str " [next token: " ++ str_of_tok x ++ str "]".

(** What [parse] makes of a run of [parse_from]: the tree without the
    parser's state. *)
Definition strip_state (r : outcome (obj * Parser.t)) : outcome obj :=
  match r with
  | Ok (e, _) => Ok e
  | Raise ex => Raise ex
  | Beyond l => Beyond l
  end.

(** A character that only the last rule of the lexer takes. *)
Definition unknown (c : char) : bool :=
  negb (is_blank c) && negb (is_digit c) && negb (is_letter c)
  && negb (is_punct c) && is_dot c.

(** The tokens: what the five rules make, and the end marker. *)
Inductive token : obj -> Prop :=
| token_int (k : Z) : 0 <= k -> token (Int k)
| token_name (s : pystr) : isalpha s = true -> token (Str s)
| token_two_char_op (s : pystr) :
    obj_in (Str s) (toks ["=="; "!="; "<="; ">="]) = true -> token (Str s)
| token_punct (c : char) : is_punct c = true -> token (Str [c])
| token_unknown (c : char) :
    unknown c = true -> token (Str (str "#" ++ str_of_N c))
| token_end : token (Str (str "$")).

(** With enough fuel, [f] returns [r] from [p]. *)
Definition reaches {A} (f : nat -> Parser.M A) (p : Parser.t)
           (r : A * Parser.t) : Prop :=
  exists n, forall m, (n <= m)%nat -> f m p = Ok r.

(** The tokens that end an operand between parentheses, or the line. *)
Definition closing (x : obj) : bool :=
  obj_eqb x (Str (str ")")) || obj_eqb x (Str (str "$")).

(** The text [rest] is empty or starts with a closing parenthesis. *)
Definition closes (rest : pystr) : bool :=
  match rest with
  | [] => true
  | c :: _ => (c =? 41)%N
  end.

(** No integer of the tree is negative. *)
Fixpoint natural (e : obj) : bool :=
  match e with
  | Int n => 0 <=? n
  | Str _ => true
  | Tuple items => forallb natural items
  end.

(** A line for a tree: the operator between its operands, every operand
    between parentheses but the target of an assignment. *)
Definition paren (s : pystr) : pystr := str "(" ++ s ++ str ")".

Fixpoint unparse (e : obj) : pystr :=
  match e with
  | Int n => str_of_Z n
  | Str s => s
  | Tuple [op; a] => str_of_tok op ++ paren (unparse a)
  | Tuple [op; a; b] =>
      if is_op op "=" then unparse a ++ str "=" ++ paren (unparse b)
      else paren (unparse a) ++ str_of_tok op ++ paren (unparse b)
  | Tuple [_; c; a; b] =>
      paren (unparse c) ++ str "?" ++ paren (unparse a) ++ str ":"
      ++ paren (unparse b)
  | Tuple _ => []
  end.

(** [round e]: in front of a closing parenthesis or at the end of a line,
    the text of [e] parses to [e]. *)
Definition round (e : obj) : Prop :=
  forall rest, closes rest = true ->
  reaches Parser.parse_assign (Parser.init (unparse e ++ rest))
          (e, Parser.init rest).

(** What a method of the parser returns has no negative integer, and
    neither has the token it stops at, when the token it starts from has
    none. *)
Definition returns_natural (m : Parser.M obj) : Prop :=
  forall p, natural (Parser.tok p) = true ->
  sound m (fun e q => natural e = true /\ natural (Parser.tok q) = true) p.

Definition all_return_natural (n : nat) : Prop :=
  returns_natural (Parser.parse_assign n)
  /\ returns_natural (Parser.parse_ternary n)
  /\ returns_natural (Parser.parse_or n)
  /\ returns_natural (Parser.parse_and n)
  /\ returns_natural (Parser.parse_not n)
  /\ returns_natural (Parser.parse_compare n)
  /\ (forall e, natural e = true -> returns_natural (Parser.compare_loop n e))
  /\ returns_natural (Parser.parse_add n)
  /\ (forall e, natural e = true -> returns_natural (Parser.add_loop n e))
  /\ returns_natural (Parser.parse_mul n)
  /\ (forall e, natural e = true -> returns_natural (Parser.mul_loop n e))
  /\ returns_natural (Parser.parse_unary n)
  /\ returns_natural (Parser.parse_pow n)
  /\ returns_natural (Parser.parse_factor n).

(** Every key of the table is a name. *)
Definition names (V : dict) : bool := forallb (fun kv => is_name (fst kv)) V.

(** Two parsers at the same token, their cursors related by [sim]. *)
Definition related (sim : pystr -> pystr -> Prop) (p1 p2 : Parser.t) : Prop :=
  Parser.tok p1 = Parser.tok p2 /\ sim (Parser.lexer p1) (Parser.lexer p2).

(** The same result, up to the cursors. *)
Definition same_outcome (sim : pystr -> pystr -> Prop) {A}
           (r1 r2 : outcome (A * Parser.t)) : Prop :=
  match r1, r2 with
  | Ok (a1, q1), Ok (a2, q2) => a1 = a2 /\ related sim q1 q2
  | Raise e1, Raise e2 => e1 = e2
  | Beyond l1, Beyond l2 => l1 = l2
  | _, _ => False
  end.

Definition alike (sim : pystr -> pystr -> Prop) {A} (m : Parser.M A) : Prop :=
  forall p1 p2, related sim p1 p2 -> same_outcome sim (m p1) (m p2).

Definition all_alike (sim : pystr -> pystr -> Prop) (n : nat) : Prop :=
  alike sim (Parser.parse_assign n)
  /\ alike sim (Parser.parse_ternary n)
  /\ alike sim (Parser.parse_or n)
  /\ alike sim (Parser.parse_and n)
  /\ alike sim (Parser.parse_not n)
  /\ alike sim (Parser.parse_compare n)
  /\ (forall e, alike sim (Parser.compare_loop n e))
  /\ alike sim (Parser.parse_add n)
  /\ (forall e, alike sim (Parser.add_loop n e))
  /\ alike sim (Parser.parse_mul n)
  /\ (forall e, alike sim (Parser.mul_loop n e))
  /\ alike sim (Parser.parse_unary n)
  /\ alike sim (Parser.parse_pow n)
  /\ alike sim (Parser.parse_factor n).

(** From related cursors, [Lexer.next] makes the same token and leaves
    related cursors. *)
Definition lexer_simulation (sim : pystr -> pystr -> Prop) : Prop :=
  forall l1 l2, sim l1 l2 ->
    fst (Lexer.next l1) = fst (Lexer.next l2)
    /\ sim (snd (Lexer.next l1)) (snd (Lexer.next l2)).

(** The end of a line that the lexer never makes a token of: spaces and
    tabs, then nothing or a newline and any text. *)
Fixpoint ignored (tail : pystr) : bool :=
  match tail with
  | [] => true
  | c :: r => if is_blank c then ignored r else (c =? 10)%N
  end.

(** The text [tail] is empty or starts with a blank or a newline. *)
Definition inert (tail : pystr) : bool :=
  match tail with
  | [] => true
  | d :: _ => is_blank d || (d =? 10)%N
  end.

(** What a pattern matches, and what it leaves with [tail] behind. *)
Definition with_tail (tail : pystr) (r : option (pystr * pystr))
  : option (pystr * pystr) :=
  match r with
  | Some (m, rest) => Some (m, rest ++ tail)
  | None => None
  end.

(** Every target of an assignment of the tree satisfies [T]. *)
Fixpoint assigns_only (T : pystr -> bool) (e : obj) : bool :=
  match e with
  | Tuple (op :: args) =>
      (if is_op op "=" then
         match args with
         | Str x :: _ => T x
         | _ => true
         end
       else true)
      && forallb (assigns_only T) args
  | _ => true
  end.

(** The binary operators in six levels, from the loosest to the tightest,
    and the ones that group to the right. *)
Definition level (s : string) : nat :=
  if existsb (String.eqb s) ["|"] then 1
  else if existsb (String.eqb s) ["&"] then 2
  else if existsb (String.eqb s) ["=="; "!="; "<"; "<="; ">"; ">="] then 3
  else if existsb (String.eqb s) ["+"; "-"] then 4
  else if existsb (String.eqb s) ["*"; "/"; "%"] then 5
  else 6.

Definition right_assoc (s : string) : bool :=
  existsb (String.eqb s) ["|"; "&"; "^"].

(** The tree of [a s1 b s2 c]: the operand [b] goes to the tighter of the
    two operators, and between two operators of one level to the second if
    the level groups to the right, to the first if not. *)
Definition grouped (s1 s2 : string) (a b c : obj) : obj :=
  if (level s1 <? level s2)%nat
     || ((level s1 =? level s2)%nat && right_assoc s1)
  then Tuple [Str (str s1); a; Tuple [Str (str s2); b; c]]
  else Tuple [Str (str s2); Tuple [Str (str s1); a; b]; c].

(** The prefix operators: [!] takes a whole comparison, [-] and [@] a
    whole power. *)
Definition prefix_level (u : string) : nat :=
  if String.eqb u "!" then 3 else 6.

(** The tree of [u a s b]. *)
Definition grouped_prefix (u s : string) (a b : obj) : obj :=
  if (prefix_level u <=? level s)%nat
  then Tuple [Str (str u); Tuple [Str (str s); a; b]]
  else Tuple [Str (str s); Tuple [Str (str u); a]; b].

(** With enough fuel, [f] raises [ex] from [p]. *)
Definition fails {A} (f : nat -> Parser.M A) (p : Parser.t) (ex : exn)
  : Prop :=
  exists n, forall m, (n <= m)%nat -> f m p = Raise ex.

(** [a s u b], a prefix operator after a binary one: the operand [u b] if
    the prefix operator is tighter than the binary one, and no expression if
    it is not. *)
Definition right_prefix (s u : string) (a b : obj) : outcome obj :=
  if (level s <? prefix_level u)%nat
  then Ok (Tuple [Str (str s); a; Tuple [Str (str u); b]])
  else Raise (ParseError
                (error_text "expected int, variable, or '('" (Str (str u)))).

(** The line [l s r]: an operator between two texts, a space on each
    side. *)
Definition infix (l : pystr) (s : string) (r : pystr) : pystr :=
  l ++ str " " ++ str s ++ str " " ++ r.

(** The limits of the interpreter, as they are by default: a recursion
    limit of 1000 frames and 4300 digits for the conversion between [str]
    and [int].  The parser nests at most eleven calls for each character it
    reads, so a line of 60 characters stays well inside both. *)
Definition short (line : pystr) : bool := (List.length line <=? 60)%nat.

(** The nesting of a tree. *)
Fixpoint height (e : obj) : nat :=
  match e with
  | Tuple items => S (list_max (map height items))
  | _ => 0
  end.

(** Every integer of the tree has at most 4300 digits. *)
Fixpoint numerals_fit (e : obj) : bool :=
  match e with
  | Int n => (List.length (str_of_Z n) <=? 4300)%nat
  | Str _ => true
  | Tuple items => forallb numerals_fit items
  end.

(** A tree inside the limits: on its line the parser nests at most thirteen
    calls for each level of the tree. *)
Definition modest (e : obj) : bool :=
  (height e <=? 50)%nat && numerals_fit e.

(** * Properties *)

(** ** Equality of values *)

Lemma pystr_eqb_refl (s : pystr) : pystr_eqb s s = true.
Proof.
  induction s as [|c s IH]; simpl; [reflexivity|].
  now rewrite N.eqb_refl, IH.
Qed.

Lemma pystr_eqb_eq (s u : pystr) : pystr_eqb s u = true <-> s = u.
Proof.
  split; [|intros ->; apply pystr_eqb_refl].
  revert u; induction s as [|c s IH]; intros [|d u]; simpl; try easy.
  intros H; apply andb_true_iff in H as [Hc Hs].
  apply N.eqb_eq in Hc; apply IH in Hs; congruence.
Qed.

Lemma is_op_eq (op : obj) (s : string) : is_op op s = true -> op = Str (str s).
Proof.
  unfold is_op; destruct op as [n|u|items]; simpl; try easy.
  intros H; apply pystr_eqb_eq in H; congruence.
Qed.

(** ** The table of variables *)

Lemma dict_get_set_name (d : dict) (s : pystr) (v default : Z) :
  dict_get (dict_set d (Str s) v) (Str s) default = v.
Proof.
  induction d as [|[k w] d IH]; simpl.
  - now rewrite pystr_eqb_refl.
  - destruct (obj_eqb k (Str s)) eqn:E; simpl; rewrite E; [reflexivity|exact IH].
Qed.

Lemma dict_get_absent (d : dict) (k : obj) (default : Z) :
  dict_mem d k = false -> dict_get d k default = default.
Proof.
  induction d as [|[k' w] d IH]; simpl; [reflexivity|].
  intros H; apply orb_false_iff in H as [H1 H2].
  rewrite H1; auto.
Qed.

(** ** Decimal numerals *)

Section Numerals.

Lemma uint_digits_are_digits (d : Decimal.uint) :
  forallb is_digit (uint_digits d) = true.
Proof. induction d; simpl; auto. Qed.

Lemma int_acc (d : Decimal.uint) (acc : positive) :
  fold_left shift (uint_digits d) (Z.pos acc) = Z.pos (Pos.of_uint_acc d acc).
Proof.
  revert acc; induction d; intros acc; cbn [uint_digits fold_left Pos.of_uint_acc];
    [reflexivity|..]; rewrite <- IHd; f_equal; unfold shift; lia.
Qed.

Lemma int_of_uint (d : Decimal.uint) :
  int (uint_digits d) = Z.of_N (Pos.of_uint d).
Proof.
  unfold int.
  induction d; cbn [uint_digits fold_left Pos.of_uint]; [reflexivity|exact IHd|..];
    apply int_acc.
Qed.

(** A numeral read back is the number it was written from. *)
Lemma int_str_of_N (n : N) : int (str_of_N n) = Z.of_N n.
Proof.
  unfold str_of_N; rewrite int_of_uint.
  change Pos.of_uint with N.of_uint; rewrite DecimalN.Unsigned.of_to.
  reflexivity.
Qed.

Lemma str_of_N_digits (n : N) : forallb is_digit (str_of_N n) = true.
Proof. apply uint_digits_are_digits. Qed.

Lemma str_of_N_not_empty (n : N) : str_of_N n <> [].
Proof.
  unfold str_of_N; intros H.
  assert (E : N.to_uint n = Nil) by (destruct (N.to_uint n); discriminate || reflexivity).
  pose proof (DecimalN.Unsigned.of_to n) as R; rewrite E in R.
  subst n; discriminate.
Qed.

End Numerals.

(** ** Names in the table *)

Lemma str_inj (s u : string) : str s = str u -> s = u.
Proof.
  revert u; induction s as [|x s IH]; intros [|y u]; simpl; try discriminate;
    [reflexivity|].
  intros [= Hx Hs]; f_equal; [|exact (IH u Hs)].
  rewrite <- (ascii_N_embedding x), Hx; apply ascii_N_embedding.
Qed.

Lemma obj_eqb_Str (k : obj) (s : pystr) : obj_eqb k (Str s) = true -> k = Str s.
Proof.
  destruct k as [n|u|items]; simpl; try discriminate.
  intros H; apply pystr_eqb_eq in H; congruence.
Qed.

Lemma obj_in_cases (x : obj) (l : list string) :
  obj_in x (toks l) = true -> exists s, In s l /\ x = Str (str s).
Proof.
  unfold obj_in, toks; induction l as [|s l IH]; simpl; [discriminate|].
  intros H; apply orb_true_iff in H as [H|H].
  - exists s; split; [left; reflexivity|apply obj_eqb_Str, H].
  - destruct (IH H) as (s' & Hin & E); exists s'; auto.
Qed.

Lemma dict_get_set_other (d : dict) (s u : pystr) (v default : Z) :
  s <> u ->
  dict_get (dict_set d (Str s) v) (Str u) default = dict_get d (Str u) default.
Proof.
  intros Hne.
  assert (Hsu : pystr_eqb s u = false).
  { destruct (pystr_eqb s u) eqn:E; [apply pystr_eqb_eq in E; congruence|easy]. }
  induction d as [|[k w] d IH]; simpl.
  - now rewrite Hsu.
  - destruct (obj_eqb k (Str s)) eqn:E; simpl.
    + apply obj_eqb_Str in E; subst k; simpl; now rewrite Hsu.
    + rewrite IH; reflexivity.
Qed.

(** ** The equations of [eval], operator by operator *)

Section EvalEquations.

Local Open Scope eval_scope.

Variables (a b : obj) (rest : list obj).

Lemma eval_assign :
  eval (Tuple (Str (str "=") :: a :: b :: rest))
  = (val <- eval b ;; assign_var a val).
Proof. reflexivity. Qed.

Lemma eval_or :
  eval (Tuple (Str (str "|") :: a :: rest))
  = (left_val <- eval a ;;
     if negb (left_val =? 0) then ret left_val
     else match rest with r :: _ => eval r | [] => raise IndexError end).
Proof. reflexivity. Qed.

Lemma eval_and :
  eval (Tuple (Str (str "&") :: a :: rest))
  = (left_val <- eval a ;;
     if left_val =? 0 then ret 0
     else match rest with r :: _ => eval r | [] => raise IndexError end).
Proof. reflexivity. Qed.

Lemma eval_minus :
  eval (Tuple (Str (str "-") :: a :: rest)) = (v <- eval a ;; ret (- v)).
Proof. reflexivity. Qed.

Lemma eval_add :
  eval (Tuple (Str (str "+") :: a :: b :: rest))
  = binary a b (fun x y => Ok (x + y)).
Proof. reflexivity. Qed.

Lemma eval_mul :
  eval (Tuple (Str (str "*") :: a :: b :: rest))
  = binary a b (fun x y => Ok (x * y)).
Proof. reflexivity. Qed.

Lemma eval_div :
  eval (Tuple (Str (str "/") :: a :: b :: rest)) = binary a b floordiv.
Proof. reflexivity. Qed.

Lemma eval_mod :
  eval (Tuple (Str (str "%") :: a :: b :: rest)) = binary a b modulo.
Proof. reflexivity. Qed.

Lemma eval_pow :
  eval (Tuple (Str (str "^") :: a :: b :: rest)) = binary a b power.
Proof. reflexivity. Qed.

Lemma binary_ok f va vb (V V1 V2 : dict) :
  eval a V = (Ok va, V1) -> eval b V1 = (Ok vb, V2) ->
  binary a b f V = (f va vb, V2).
Proof.
  intros Ha Hb; unfold binary, bind, ret, arith.
  rewrite Ha, Hb; reflexivity.
Qed.

Lemma binary_left_fails f ex (V V1 : dict) :
  eval a V = (Raise ex, V1) -> binary a b f V = (Raise ex, V1).
Proof.
  intros Ha; unfold binary, bind; rewrite Ha; reflexivity.
Qed.

Lemma binary_right_fails f va ex (V V1 V2 : dict) :
  eval a V = (Ok va, V1) -> eval b V1 = (Raise ex, V2) ->
  binary a b f V = (Raise ex, V2).
Proof.
  intros Ha Hb; unfold binary, bind, ret.
  rewrite Ha, Hb; reflexivity.
Qed.

End EvalEquations.

Ltac split_early H :=
  unfold early in H;
  repeat match type of H with
         | (_ || _)%bool = false =>
             let H' := fresh "Hop" in apply orb_false_iff in H as [H H']
         end.

Ltac rewrite_ops :=
  repeat match goal with
         | H : is_op _ _ = false |- _ => rewrite H; clear H
         end.

Lemma eval_eager_left_fails (op a : obj) (rest : list obj) (ex : exn)
      (V V1 : dict) :
  early op = false ->
  eval a V = (Raise ex, V1) ->
  eval (Tuple (op :: a :: rest)) V = (Raise ex, V1).
Proof.
  intros Hop Ha; split_early Hop.
  cbn [eval]; rewrite_ops.
  unfold bind; rewrite Ha; reflexivity.
Qed.

Lemma eval_eager_right_fails (op a b : obj) (rest : list obj) (va : Z)
      (ex : exn) (V V1 V2 : dict) :
  early op = false ->
  eval a V = (Ok va, V1) -> eval b V1 = (Raise ex, V2) ->
  eval (Tuple (op :: a :: b :: rest)) V = (Raise ex, V2).
Proof.
  intros Hop Ha Hb; split_early Hop.
  cbn [eval]; rewrite_ops.
  unfold bind, ret; rewrite Ha, Hb; reflexivity.
Qed.

Lemma eval_assign_rhs_fails (name rhs : obj) (ex : exn) (V V1 : dict) :
  eval rhs V = (Raise ex, V1) ->
  eval (Tuple [Str (str "="); name; rhs]) V = (Raise ex, V1).
Proof.
  intros H; rewrite eval_assign; unfold bind; rewrite H; reflexivity.
Qed.

(** In every node but an assignment the first operand is evaluated first:
    what it raises, the node raises, in the table it left. *)
Lemma eval_first_operand_fails (op a : obj) (rest : list obj) (ex : exn)
      (V V1 : dict) :
  is_op op "=" = false ->
  eval a V = (Raise ex, V1) ->
  eval (Tuple (op :: a :: rest)) V = (Raise ex, V1).
Proof.
  intros Hop Ha; cbn [eval]; rewrite Hop.
  repeat match goal with
         | |- context [if is_op op ?s then _ else _] =>
             destruct (is_op op s)
         end;
    unfold bind; rewrite Ha; reflexivity.
Qed.

(** The operand evaluated second, in the nodes that choose it: the right
    operand of [|] and [&], a branch of [?:]. *)
Lemma eval_chosen_operand_fails (c a b : obj) (v : Z) (ex : exn)
      (V V1 V2 : dict) :
  eval c V = (Ok v, V1) ->
  (v = 0 -> eval b V1 = (Raise ex, V2) ->
   eval (Tuple [Str (str "|"); c; b]) V = (Raise ex, V2)
   /\ eval (Tuple [Str (str "?:"); c; a; b]) V = (Raise ex, V2))
  /\ (v <> 0 -> eval a V1 = (Raise ex, V2) ->
      eval (Tuple [Str (str "&"); c; a]) V = (Raise ex, V2)
      /\ eval (Tuple [Str (str "?:"); c; a; b]) V = (Raise ex, V2)).
Proof.
  intros Hc; split.
  - intros -> Hb; split; cbn [eval]; simpl; unfold bind; rewrite Hc; simpl;
      exact Hb.
  - intros Hv Ha; apply Z.eqb_neq in Hv.
    split; cbn [eval]; simpl; unfold bind; rewrite Hc, Hv; simpl; exact Ha.
Qed.

(** ** The parser: equations and fuel *)

Module ParserFacts.

Import Parser.
Local Open Scope parser_scope.

Lemma parse_assign_eq n :
  parse_assign (S n)
  = (e <- parse_ternary n ;;
     eq <- tok_is "=" ;;
     if is_name e && eq then
       next ;; rhs <- parse_assign n ;; ret (Tuple [Str (str "="); e; rhs])
     else ret e).
Proof. reflexivity. Qed.

Lemma parse_ternary_eq n :
  parse_ternary (S n)
  = (e <- parse_or n ;;
     q <- tok_is "?" ;;
     if q then
       next ;;
       true_branch <- parse_assign n ;;
       colon <- tok_is ":" ;;
       (if negb colon then error "missing ':' in ternary expression"
        else ret tt) ;;
       next ;;
       false_branch <- parse_assign n ;;
       ret (Tuple [Str (str "?:"); e; true_branch; false_branch])
     else ret e).
Proof. reflexivity. Qed.

Lemma parse_or_eq n :
  parse_or (S n)
  = (left <- parse_and n ;;
     b <- tok_is "|" ;;
     if b then
       next ;; right <- parse_or n ;; ret (Tuple [Str (str "|"); left; right])
     else ret left).
Proof. reflexivity. Qed.

Lemma parse_and_eq n :
  parse_and (S n)
  = (left <- parse_not n ;;
     b <- tok_is "&" ;;
     if b then
       next ;; right <- parse_and n ;; ret (Tuple [Str (str "&"); left; right])
     else ret left).
Proof. reflexivity. Qed.

Lemma parse_not_eq n :
  parse_not (S n)
  = (b <- tok_is "!" ;;
     if b then next ;; e <- parse_not n ;; ret (Tuple [Str (str "!"); e])
     else parse_compare n).
Proof. reflexivity. Qed.

Lemma parse_compare_eq n :
  parse_compare (S n) = (e <- parse_add n ;; compare_loop n e).
Proof. reflexivity. Qed.

Lemma compare_loop_eq n e :
  compare_loop (S n) e
  = (b <- tok_in ["=="; "!="; "<"; "<="; ">"; ">="] ;;
     if b then
       op <- get_tok ;; next ;; right <- parse_add n ;;
       compare_loop n (Tuple [op; e; right])
     else ret e).
Proof. reflexivity. Qed.

Lemma parse_add_eq n :
  parse_add (S n) = (e <- parse_mul n ;; add_loop n e).
Proof. reflexivity. Qed.

Lemma add_loop_eq n e :
  add_loop (S n) e
  = (b <- tok_in ["+"; "-"] ;;
     if b then
       op <- get_tok ;; next ;; right <- parse_mul n ;;
       add_loop n (Tuple [op; e; right])
     else ret e).
Proof. reflexivity. Qed.

Lemma parse_mul_eq n :
  parse_mul (S n) = (e <- parse_unary n ;; mul_loop n e).
Proof. reflexivity. Qed.

Lemma mul_loop_eq n e :
  mul_loop (S n) e
  = (b <- tok_in ["*"; "/"; "%"] ;;
     if b then
       op <- get_tok ;; next ;; right <- parse_unary n ;;
       mul_loop n (Tuple [op; e; right])
     else ret e).
Proof. reflexivity. Qed.

Lemma parse_unary_eq n :
  parse_unary (S n)
  = (b <- tok_in ["-"; "@"] ;;
     if b then
       op <- get_tok ;; next ;; e <- parse_unary n ;; ret (Tuple [op; e])
     else parse_pow n).
Proof. reflexivity. Qed.

Lemma parse_pow_eq n :
  parse_pow (S n)
  = (left <- parse_factor n ;;
     b <- tok_is "^" ;;
     if b then
       next ;; right <- parse_pow n ;; ret (Tuple [Str (str "^"); left; right])
     else ret left).
Proof. reflexivity. Qed.

Lemma parse_factor_eq n :
  parse_factor (S n)
  = (x <- get_tok ;;
     if is_int x then next ;; ret x
     else if is_name x then next ;; ret x
     else
       lp <- tok_is "(" ;;
       if lp then
         next ;;
         e <- parse_assign n ;;
         rp <- tok_is ")" ;;
         (if negb rp then error "missing ')'" else ret tt) ;;
         next ;;
         ret e
       else error "expected int, variable, or '('").
Proof. reflexivity. Qed.

(** *** More fuel never changes a result *)

Lemma approxM_refl {A} (m : M A) : approxM m m.
Proof. intros p; right; reflexivity. Qed.

Lemma approxM_fuel {A} (m : M A) : approxM out_of_fuel m.
Proof. intros p; left; reflexivity. Qed.

Lemma approxM_bind {A B} (m m' : M A) (k k' : A -> M B) :
  approxM m m' -> (forall a, approxM (k a) (k' a)) ->
  approxM (bind m k) (bind m' k').
Proof.
  intros Hm Hk p; unfold bind.
  destruct (Hm p) as [E|E]; rewrite E; [left; reflexivity|].
  destruct (m' p) as [[a q]|e|l]; [apply Hk | right | right]; reflexivity.
Qed.

Lemma approxM_if {A} (b : bool) (m1 m1' m2 m2' : M A) :
  approxM m1 m1' -> approxM m2 m2' ->
  approxM (if b then m1 else m2) (if b then m1' else m2').
Proof. destruct b; auto. Qed.

Ltac approx_step :=
  first [ assumption
        | apply approxM_refl
        | apply approxM_fuel
        | apply approxM_bind
        | apply approxM_if
        | intro ].

Lemma step_mono_all n : step_mono n.
Proof.
  induction n as [|n IH].
  - repeat split; intros; apply approxM_fuel.
  - destruct IH as (H1 & H2 & H3 & H4 & H5 & H6 & H7 & H8 & H9 & H10
                    & H11 & H12 & H13 & H14).
    repeat split; intros.
    + rewrite (parse_assign_eq n), (parse_assign_eq (S n)); repeat approx_step.
    + rewrite (parse_ternary_eq n), (parse_ternary_eq (S n)); repeat approx_step.
    + rewrite (parse_or_eq n), (parse_or_eq (S n)); repeat approx_step.
    + rewrite (parse_and_eq n), (parse_and_eq (S n)); repeat approx_step.
    + rewrite (parse_not_eq n), (parse_not_eq (S n)); repeat approx_step.
    + rewrite (parse_compare_eq n), (parse_compare_eq (S n)); repeat approx_step; try apply H7.
    + rewrite (compare_loop_eq n), (compare_loop_eq (S n)); repeat approx_step; try apply H7.
    + rewrite (parse_add_eq n), (parse_add_eq (S n)); repeat approx_step; try apply H9.
    + rewrite (add_loop_eq n), (add_loop_eq (S n)); repeat approx_step; try apply H9.
    + rewrite (parse_mul_eq n), (parse_mul_eq (S n)); repeat approx_step; try apply H11.
    + rewrite (mul_loop_eq n), (mul_loop_eq (S n)); repeat approx_step; try apply H11.
    + rewrite (parse_unary_eq n), (parse_unary_eq (S n)); repeat approx_step.
    + rewrite (parse_pow_eq n), (parse_pow_eq (S n)); repeat approx_step.
    + rewrite (parse_factor_eq n), (parse_factor_eq (S n)); repeat approx_step.
Qed.

Lemma approx_trans {A} (r1 r2 r3 : outcome A) :
  approx r1 r2 -> approx r2 r3 -> approx r1 r3.
Proof.
  unfold approx; intros [H|H] [H'|H']; subst; auto.
Qed.

Lemma parse_assign_mono n m p :
  (n <= m)%nat -> approx (parse_assign n p) (parse_assign m p).
Proof.
  induction 1 as [|m _ IH]; [right; reflexivity|].
  eapply approx_trans; [exact IH|apply step_mono_all].
Qed.

Lemma parse_assign_more n m p r :
  (n <= m)%nat -> parse_assign n p = Ok r -> parse_assign m p = Ok r.
Proof.
  intros Hle H; destruct (parse_assign_mono n m p Hle) as [E|E]; congruence.
Qed.

Lemma parse_from_more n m p (r : outcome (obj * t)) :
  (n <= m)%nat -> r <> Beyond Fuel ->
  parse_from n p = r -> parse_from m p = r.
Proof.
  intros Hle Hr H.
  assert (Ha : approxM (parse_from n) (parse_from m)).
  { unfold parse_from; apply approxM_bind; [|intros; apply approxM_refl].
    intros q; apply parse_assign_mono, Hle. }
  destruct (Ha p) as [E|E]; congruence.
Qed.

(** What [parse] returns is what any smaller amount of fuel returns. *)
Lemma parse_enough n input e q :
  (n <= fuel_for input)%nat ->
  parse_from n (init input) = Ok (e, q) -> parse input = Ok e.
Proof.
  intros Hle H; unfold parse.
  assert (E : parse_from (fuel_for input) (init input) = Ok (e, q)).
  { apply (parse_from_more n); [exact Hle|discriminate|exact H]. }
  rewrite E; reflexivity.
Qed.

End ParserFacts.

(** ** The lexer on runs of characters *)

Module LexerFacts.

Import Lexer.

Lemma span_run cls (x rest : pystr) :
  forallb cls x = true -> stops cls rest = true ->
  span cls (x ++ rest) = (x, rest).
Proof.
  intros Hx Hr; induction x as [|c x IH]; simpl in *.
  - destruct rest as [|d rest]; [reflexivity|].
    simpl in Hr; apply negb_true_iff in Hr; simpl; rewrite Hr; reflexivity.
  - apply andb_true_iff in Hx as [Hc Hx].
    rewrite Hc, (IH Hx); reflexivity.
Qed.

Lemma span_none cls (s m r : pystr) : span cls s = (m, r) -> m = [] -> r = s.
Proof.
  destruct s as [|c s]; simpl; [congruence|].
  destruct (cls c); [destruct (span cls s)|]; congruence.
Qed.

(** A blank before a token is skipped. *)
Lemma next_blank (c : char) (s : pystr) :
  is_blank c = true -> next (c :: s) = next s.
Proof.
  intros Hc; unfold next, ignore, many1; simpl span; rewrite Hc.
  destruct (span is_blank s) as [m r] eqn:E.
  destruct m as [|d m]; [|reflexivity].
  rewrite (span_none _ _ _ _ E eq_refl); reflexivity.
Qed.

Lemma letter_class (c : char) :
  is_letter c = true ->
  is_blank c = false /\ is_digit c = false /\ is_punct c = false
  /\ is_dot c = true.
Proof.
  intros H.
  assert (Hr : (65 <= c <= 90 \/ 97 <= c <= 122)%N).
  { unfold is_letter in H.
    apply orb_true_iff in H as [H|H]; apply andb_true_iff in H as [H1 H2];
      apply N.leb_le in H1, H2; lia. }
  unfold is_blank, is_digit, is_punct, is_dot; simpl existsb.
  repeat match goal with
         | |- context [(c =? ?k)%N] =>
             destruct (N.eqb_spec c k); [exfalso; lia|]
         end.
  repeat split; try reflexivity.
  destruct (N.leb_spec 48 c), (N.leb_spec c 57); simpl; try reflexivity; lia.
Qed.

Lemma digit_class (c : char) :
  is_digit c = true -> is_blank c = false /\ is_punct c = false.
Proof.
  intros H.
  assert (Hr : (48 <= c <= 57)%N).
  { unfold is_digit in H; apply andb_true_iff in H as [H1 H2];
      apply N.leb_le in H1, H2; lia. }
  unfold is_blank, is_punct; simpl existsb.
  repeat match goal with
         | |- context [(c =? ?k)%N] =>
             destruct (N.eqb_spec c k); [exfalso; lia|]
         end.
  split; reflexivity.
Qed.

Lemma two_char_op_none (c : char) (s : pystr) :
  is_punct c = false -> two_char_op (c :: s) = None.
Proof.
  intros H; unfold is_punct in H; simpl in H.
  repeat (apply orb_false_iff in H as [? H]).
  destruct s as [|b s]; simpl; [reflexivity|].
  repeat match goal with
         | E : (c =? _)%N = false |- _ => rewrite E; clear E
         end.
  reflexivity.
Qed.

Lemma many1_none cls (c : char) (s : pystr) :
  cls c = false -> many1 cls (c :: s) = None.
Proof. intros H; unfold many1; simpl; rewrite H; reflexivity. Qed.

Lemma many1_run cls (c : char) (x rest : pystr) :
  forallb cls (c :: x) = true -> stops cls rest = true ->
  many1 cls ((c :: x) ++ rest) = Some (c :: x, rest).
Proof.
  intros Hx Hr; unfold many1; rewrite (span_run _ _ _ Hx Hr); reflexivity.
Qed.

(** A maximal run of letters is one token, the name. *)
Lemma next_name (x rest : pystr) :
  isalpha x = true -> stops is_letter rest = true ->
  next (x ++ rest) = (Str x, rest).
Proof.
  destruct x as [|c x]; [discriminate|]; intros Hx Hr.
  unfold isalpha in Hx.
  assert (Hc : is_letter c = true)
    by (simpl in Hx; apply andb_true_iff in Hx; tauto).
  destruct (letter_class c Hc) as (Hb & Hd & Hp & _).
  unfold next, ignore.
  change ((c :: x) ++ rest) with (c :: (x ++ rest)).
  rewrite (many1_none _ _ _ Hb).
  cbn [first_match rules].
  rewrite (two_char_op_none _ _ Hp), (many1_none _ _ _ Hd).
  change (c :: x ++ rest) with ((c :: x) ++ rest).
  rewrite (many1_run _ _ _ _ Hx Hr); reflexivity.
Qed.

(** A maximal run of digits is one token, its value. *)
Lemma next_int (ds rest : pystr) :
  ds <> [] -> forallb is_digit ds = true -> stops is_digit rest = true ->
  next (ds ++ rest) = (Int (int ds), rest).
Proof.
  destruct ds as [|c ds]; [congruence|]; intros _ Hx Hr.
  assert (Hc : is_digit c = true)
    by (simpl in Hx; apply andb_true_iff in Hx; tauto).
  destruct (digit_class c Hc) as (Hb & Hp).
  unfold next, ignore.
  change ((c :: ds) ++ rest) with (c :: (ds ++ rest)).
  rewrite (many1_none _ _ _ Hb).
  cbn [first_match rules].
  rewrite (two_char_op_none _ _ Hp).
  change (c :: ds ++ rest) with ((c :: ds) ++ rest).
  rewrite (many1_run _ _ _ _ Hx Hr); reflexivity.
Qed.

(** A character of no class but [.] is the error token with its code. *)
Lemma next_other (c : char) (rest : pystr) :
  is_blank c = false -> is_digit c = false -> is_letter c = false ->
  is_punct c = false -> is_dot c = true ->
  next (c :: rest) = (Str (str "#" ++ str_of_N c), rest).
Proof.
  intros Hb Hd Hl Hp Hdot.
  unfold next, ignore; rewrite (many1_none _ _ _ Hb).
  cbn [first_match rules].
  rewrite (two_char_op_none _ _ Hp), (many1_none _ _ _ Hd),
    (many1_none _ _ _ Hl).
  unfold one; rewrite Hp, Hdot; reflexivity.
Qed.

(** A newline is no token: [next] answers the end marker and stays. *)
Lemma next_newline (rest : pystr) :
  next (10%N :: rest) = (Str (str "$"), 10%N :: rest).
Proof.
  unfold next, ignore; rewrite many1_none by reflexivity.
  cbn [first_match rules].
  rewrite two_char_op_none, !many1_none by reflexivity.
  reflexivity.
Qed.

(** What a pattern matched is in front of what it left. *)
Lemma span_split cls (s m r : pystr) :
  span cls s = (m, r) -> s = m ++ r /\ forallb cls m = true.
Proof.
  revert m r; induction s as [|c s IH]; simpl; intros m r.
  - intros [= <- <-]; split; reflexivity.
  - destruct (cls c) eqn:Hc.
    + destruct (span cls s) as [m' r'] eqn:E; intros [= <- <-].
      destruct (IH m' r' eq_refl) as [-> Hm]; simpl; rewrite Hc; auto.
    + intros [= <- <-]; split; reflexivity.
Qed.

Lemma many1_some cls (s m r : pystr) :
  many1 cls s = Some (m, r) ->
  s = m ++ r /\ m <> [] /\ forallb cls m = true.
Proof.
  unfold many1; destruct (span cls s) as [m' r'] eqn:E.
  destruct (span_split _ _ _ _ E) as [Hs Hm].
  destruct m' as [|c m']; [discriminate|].
  intros [= <- <-]; repeat split; [exact Hs|discriminate|exact Hm].
Qed.

Lemma one_some cls (s m r : pystr) :
  one cls s = Some (m, r) -> exists c, m = [c] /\ s = c :: r /\ cls c = true.
Proof.
  unfold one; destruct s as [|c s]; [discriminate|].
  destruct (cls c) eqn:Hc; [|discriminate].
  intros [= <- <-]; exists c; auto.
Qed.

Lemma two_char_op_some (s m r : pystr) :
  two_char_op s = Some (m, r) ->
  exists a b, m = [a; b] /\ s = a :: b :: r /\ is_ascii m = true.
Proof.
  unfold two_char_op; destruct s as [|a [|b s]]; try discriminate.
  destruct (((a =? 61)%N || (a =? 33)%N || (a =? 60)%N || (a =? 62)%N)
            && (b =? 61)%N) eqn:H; [|discriminate].
  intros [= <- <-]; exists a, b; repeat split.
  apply andb_true_iff in H as [Ha Hb].
  apply N.eqb_eq in Hb; subst b.
  repeat (apply orb_true_iff in Ha as [Ha|Ha]);
    apply N.eqb_eq in Ha; subst a; reflexivity.
Qed.

Lemma digits_ascii (s : pystr) : forallb is_digit s = true -> is_ascii s = true.
Proof.
  unfold is_ascii; induction s as [|c s IH]; simpl; [reflexivity|].
  intros H; apply andb_true_iff in H as [Hc Hs]; rewrite (IH Hs), andb_true_r.
  unfold is_digit in Hc; apply andb_true_iff in Hc as [_ Hc].
  apply N.leb_le in Hc; apply N.ltb_lt; lia.
Qed.

Lemma letters_ascii (s : pystr) : forallb is_letter s = true -> is_ascii s = true.
Proof.
  unfold is_ascii; induction s as [|c s IH]; simpl; [reflexivity|].
  intros H; apply andb_true_iff in H as [Hc Hs]; rewrite (IH Hs), andb_true_r.
  unfold is_letter in Hc; apply N.ltb_lt.
  apply orb_true_iff in Hc as [Hc|Hc]; apply andb_true_iff in Hc as [_ Hc];
    apply N.leb_le in Hc; lia.
Qed.

Lemma punct_ascii (c : char) : is_punct c = true -> is_ascii [c] = true.
Proof.
  unfold is_punct; simpl existsb; intros H.
  repeat (apply orb_true_iff in H as [H|H];
          [apply N.eqb_eq in H; subst c; reflexivity|]).
  discriminate.
Qed.

(** A rule that matches takes at least one character, and the [str] it
    makes is ASCII. *)
Lemma first_match_rules (l : pystr) (x : obj) (l' : pystr) :
  first_match rules l = Some (x, l') ->
  (List.length l' < List.length l)%nat
  /\ obj_eqb x (Str (str "$")) = false
  /\ (forall s, x = Str s -> is_ascii s = true).
Proof.
  cbn [first_match rules].
  destruct (two_char_op l) as [[m r]|] eqn:E1.
  { apply two_char_op_some in E1 as (a & b & -> & -> & Ha).
    intros [= <- <-]; repeat split; [simpl; lia| |intros s [= <-]; exact Ha].
    simpl; destruct (a =? 36)%N; reflexivity. }
  destruct (many1 is_digit l) as [[m r]|] eqn:E2.
  { apply many1_some in E2 as (-> & Hm & _).
    intros [= <- <-]; repeat split; [|discriminate].
    rewrite length_app; destruct m; [congruence|simpl; lia]. }
  destruct (many1 is_letter l) as [[m r]|] eqn:E3.
  { apply many1_some in E3 as (-> & Hm & Ha).
    intros [= <- <-]; repeat split.
    - rewrite length_app; destruct m; [congruence|simpl; lia].
    - destruct m as [|c m]; [congruence|].
      simpl in Ha; apply andb_true_iff in Ha as [Hc _].
      simpl; destruct (N.eqb_spec c 36); [subst c; discriminate|reflexivity].
    - intros s [= <-]; apply letters_ascii, Ha. }
  destruct (one is_punct l) as [[m r]|] eqn:E4.
  { apply one_some in E4 as (c & -> & -> & Hc).
    intros [= <- <-]; repeat split; [simpl; lia| |].
    - simpl; destruct (N.eqb_spec c 36); [subst c; discriminate|reflexivity].
    - intros s [= <-]; apply punct_ascii, Hc. }
  destruct (one is_dot l) as [[m r]|] eqn:E5; [|discriminate].
  apply one_some in E5 as (c & -> & -> & Hc).
  intros [= <- <-]; split; [simpl; lia|split; [reflexivity|]].
  intros s H; injection H as <-.
  unfold ord; simpl hd.
  change (is_ascii (str_of_N c) = true).
  apply digits_ascii, uint_digits_are_digits.
Qed.

Lemma skip_blanks_shorter (l : pystr) :
  (List.length (match ignore l with Some (_, rest) => rest | None => l end)
   <= List.length l)%nat.
Proof.
  unfold ignore; destruct (many1 is_blank l) as [[m r]|] eqn:E; [|lia].
  apply many1_some in E as (-> & _ & _); rewrite length_app; lia.
Qed.

(** [next] never goes back, and it goes forward for every token but the
    end marker. *)
Lemma next_shorter (l : pystr) (x : obj) (l' : pystr) :
  next l = (x, l') ->
  (List.length l' <= List.length l)%nat
  /\ (obj_eqb x (Str (str "$")) = false ->
      (List.length l' < List.length l)%nat).
Proof.
  unfold next.
  set (l1 := match ignore l with Some (_, rest) => rest | None => l end).
  assert (Hs : (List.length l1 <= List.length l)%nat)
    by apply skip_blanks_shorter.
  clearbody l1; destruct l1 as [|c l0].
  - intros [= <- <-]; split; [simpl; lia|discriminate].
  - destruct (first_match rules (c :: l0)) as [[y r]|] eqn:E.
    + apply first_match_rules in E as (Hlt & _ & _).
      intros [= <- <-]; split; intros; lia.
    + intros [= <- <-]; split; [exact Hs|discriminate].
Qed.

(** Every [str] that [next] returns is ASCII. *)
Lemma next_ascii (l : pystr) (s : pystr) (l' : pystr) :
  next l = (Str s, l') -> is_ascii s = true.
Proof.
  unfold next.
  destruct (match ignore l with Some (_, rest) => rest | None => l end)
    as [|c l0].
  - intros [= <- <-]; reflexivity.
  - destruct (first_match rules (c :: l0)) as [[y r]|] eqn:E.
    + apply first_match_rules in E as (_ & _ & Ha).
      intros [= -> <-]; apply Ha; reflexivity.
    + intros [= <- <-]; reflexivity.
Qed.

End LexerFacts.

Module ParserRuns.

Import Parser ParserFacts.
Local Open Scope parser_scope.

#[local] Arguments next : simpl never.
#[local] Arguments error : simpl never.

Lemma next_advance p : next p = Ok (tt, advance p).
Proof. unfold next, advance; destruct (Lexer.next (lexer p)); reflexivity. Qed.

Ltac split_orb H :=
  repeat match type of H with
         | (_ || _)%bool = false =>
             let H' := fresh "Ht" in apply orb_false_iff in H as [H' H]
         end.

Ltac rewrite_toks :=
  repeat match goal with
         | H : obj_eqb _ _ = false |- _ => rewrite H
         end.

Ltac run H := unfold bind, tok_is, tok_in, get_tok, ret; rewrite H; simpl.

Section Levels.

Variables (n : nat) (p q : t) (e : obj).

Lemma pow_level :
  parse_factor n p = Ok (e, q) ->
  obj_eqb (tok q) (Str (str "^")) = false ->
  parse_pow (S n) p = Ok (e, q).
Proof.
  intros H Hq; rewrite parse_pow_eq; run H.
  simpl in Hq; rewrite Hq; reflexivity.
Qed.

Lemma unary_level :
  obj_in (tok p) (toks ["-"; "@"]) = false ->
  parse_unary (S n) p = parse_pow n p.
Proof.
  intros Hp; rewrite parse_unary_eq.
  unfold bind, tok_in; rewrite Hp; reflexivity.
Qed.

Lemma mul_level :
  parse_unary n p = Ok (e, q) ->
  obj_in (tok q) (toks ["*"; "/"; "%"]) = false ->
  parse_mul (S n) p = Ok (e, q).
Proof.
  intros H Hq; rewrite parse_mul_eq; destruct n as [|m]; [discriminate|].
  unfold bind; rewrite H, mul_loop_eq.
  unfold bind, tok_in; rewrite Hq; reflexivity.
Qed.

Lemma add_level :
  parse_mul n p = Ok (e, q) ->
  obj_in (tok q) (toks ["+"; "-"]) = false ->
  parse_add (S n) p = Ok (e, q).
Proof.
  intros H Hq; rewrite parse_add_eq; destruct n as [|m]; [discriminate|].
  unfold bind; rewrite H, add_loop_eq.
  unfold bind, tok_in; rewrite Hq; reflexivity.
Qed.

Lemma compare_level :
  parse_add n p = Ok (e, q) ->
  obj_in (tok q) (toks ["=="; "!="; "<"; "<="; ">"; ">="]) = false ->
  parse_compare (S n) p = Ok (e, q).
Proof.
  intros H Hq; rewrite parse_compare_eq; destruct n as [|m]; [discriminate|].
  unfold bind; rewrite H, compare_loop_eq.
  unfold bind, tok_in; rewrite Hq; reflexivity.
Qed.

Lemma not_level :
  obj_eqb (tok p) (Str (str "!")) = false ->
  parse_not (S n) p = parse_compare n p.
Proof.
  intros Hp; rewrite parse_not_eq.
  unfold bind, tok_is; rewrite Hp; reflexivity.
Qed.

Lemma and_level :
  parse_not n p = Ok (e, q) ->
  obj_eqb (tok q) (Str (str "&")) = false ->
  parse_and (S n) p = Ok (e, q).
Proof.
  intros H Hq; rewrite parse_and_eq; run H.
  simpl in Hq; rewrite Hq; reflexivity.
Qed.

Lemma or_level :
  parse_and n p = Ok (e, q) ->
  obj_eqb (tok q) (Str (str "|")) = false ->
  parse_or (S n) p = Ok (e, q).
Proof.
  intros H Hq; rewrite parse_or_eq; run H.
  simpl in Hq; rewrite Hq; reflexivity.
Qed.

Lemma ternary_level :
  parse_or n p = Ok (e, q) ->
  obj_eqb (tok q) (Str (str "?")) = false ->
  parse_ternary (S n) p = Ok (e, q).
Proof.
  intros H Hq; rewrite parse_ternary_eq; run H.
  simpl in Hq; rewrite Hq; reflexivity.
Qed.

(** No assignment: the result is no name, or [=] does not follow. *)
Lemma assign_level :
  parse_ternary n p = Ok (e, q) ->
  is_name e && obj_eqb (tok q) (Str (str "=")) = false ->
  parse_assign (S n) p = Ok (e, q).
Proof.
  intros H Hq; rewrite parse_assign_eq; run H.
  simpl in Hq; rewrite Hq; reflexivity.
Qed.

(** An assignment: a name, then [=], then the right-hand side. *)
Lemma assign_level_eq :
  parse_ternary n p = Ok (e, q) ->
  is_name e = true -> tok q = Str (str "=") ->
  parse_assign (S n) p
  = (rhs <- parse_assign n ;; ret (Tuple [Str (str "="); e; rhs]))
      (advance q).
Proof.
  intros H He Hq; rewrite parse_assign_eq.
  unfold bind, tok_is; rewrite H; cbv beta iota.
  rewrite Hq, He.
  change (obj_eqb (Str (str "=")) (Str (str "="))) with true.
  cbv beta iota delta [andb]; rewrite next_advance; reflexivity.
Qed.

(** An integer or a name is a factor. *)
Lemma factor_atom :
  is_int (tok p) || is_name (tok p) = true ->
  parse_factor (S n) p = Ok (tok p, advance p).
Proof.
  intros H; rewrite parse_factor_eq; unfold bind, get_tok, ret.
  destruct (is_int (tok p)); [now rewrite next_advance|].
  simpl in H; rewrite H; now rewrite next_advance.
Qed.

(** An expression between parentheses is a factor. *)
Lemma factor_paren :
  tok p = Str (str "(") ->
  parse_assign n (advance p) = Ok (e, q) ->
  tok q = Str (str ")") ->
  parse_factor (S n) p = Ok (e, advance q).
Proof.
  intros Hp H Hq; rewrite parse_factor_eq.
  unfold bind, get_tok, tok_is, ret; simpl; repeat (rewrite Hp; simpl).
  rewrite next_advance, H; simpl; rewrite Hq; simpl.
  rewrite next_advance; reflexivity.
Qed.

End Levels.

(** A factor that no operator precedes or follows goes up unchanged
    through the nine levels between [parse_factor] and [parse_ternary]. *)
Lemma climb n p e q :
  prefix_op (tok p) = false ->
  parse_factor n p = Ok (e, q) ->
  continues (tok q) = false ->
  parse_ternary (9 + n) p = Ok (e, q).
Proof.
  unfold prefix_op, continues, obj_in, toks; simpl map; simpl existsb.
  intros Hp Hf Hc; split_orb Hp; split_orb Hc.
  change (9 + n)%nat with (S (S (S (S (S (S (S (S (S n))))))))).
  assert (Hin : forall x l,
             forallb (fun s => negb (obj_eqb x (Str (str s)))) l = true ->
             obj_in x (toks l) = false).
  { intros x l; unfold obj_in, toks; induction l as [|s l IH]; simpl;
      [reflexivity|].
    intros H; apply andb_true_iff in H as [H1 H2].
    apply negb_true_iff in H1; rewrite H1; auto. }
  apply ternary_level; [|assumption].
  apply or_level; [|assumption].
  apply and_level; [|assumption].
  rewrite not_level by assumption.
  apply compare_level; [|apply Hin; simpl; rewrite_toks; reflexivity].
  apply add_level; [|apply Hin; simpl; rewrite_toks; reflexivity].
  apply mul_level; [|apply Hin; simpl; rewrite_toks; reflexivity].
  rewrite unary_level by (apply Hin; simpl; rewrite_toks; reflexivity).
  apply pow_level; assumption.
Qed.

(** *** Whole inputs *)

Lemma advance_to l x x' l' :
  Lexer.next l = (x', l') -> advance (mk l x) = mk l' x'.
Proof. unfold advance; simpl; intros ->; reflexivity. Qed.

Lemma init_to input x l :
  Lexer.next input = (x, l) -> init input = mk l x.
Proof. unfold init, Lexer.init; intros ->; reflexivity. Qed.

Lemma name_is_not (x : pystr) (s : string) :
  isalpha x = true -> isalpha (str s) = false ->
  obj_eqb (Str x) (Str (str s)) = false.
Proof.
  intros Hx Hs; simpl; destruct (pystr_eqb x (str s)) eqn:E; [|reflexivity].
  apply pystr_eqb_eq in E; congruence.
Qed.

Lemma name_no_prefix_op (x : pystr) :
  isalpha x = true -> prefix_op (Str x) = false.
Proof.
  intros Hx; unfold prefix_op, obj_in, toks; cbn [map existsb].
  rewrite !name_is_not by (assumption || reflexivity); reflexivity.
Qed.

(** What [parse] did when it returned. *)
Lemma parse_inv input r :
  parse input = Ok r ->
  exists q, parse_assign (fuel_for input) (init input) = Ok (r, q)
            /\ tok q = Str (str "$").
Proof.
  unfold parse, parse_from, bind, tok_is, ret, error.
  destruct (parse_assign (fuel_for input) (init input)) as [[e q]|ex|l];
    try discriminate.
  destruct (obj_eqb (tok q) (Str (str "$"))) eqn:E; [|discriminate].
  intros [= ->]; exists q; split; [reflexivity|].
  destruct (tok q) as [k|u|items]; try discriminate.
  simpl in E; apply pystr_eqb_eq in E; subst u; reflexivity.
Qed.

Lemma parse_from_end n p r q :
  parse_assign n p = Ok (r, q) -> tok q = Str (str "$") ->
  parse_from n p = Ok (r, q).
Proof.
  intros H Hq; unfold parse_from, bind, tok_is, ret; rewrite H, Hq.
  reflexivity.
Qed.

(** A name alone. *)
Lemma parse_name (x : pystr) : isalpha x = true -> parse x = Ok (Str x).
Proof.
  intros Hx.
  assert (Hi : init x = mk [] (Str x)).
  { apply init_to; rewrite <- (app_nil_r x) at 1.
    apply LexerFacts.next_name; [assumption|reflexivity]. }
  apply (parse_enough 11 x (Str x) (mk [] (Str (str "$")))).
  { unfold fuel_for; lia. }
  apply parse_from_end; [|reflexivity].
  apply assign_level; [|apply andb_false_r].
  rewrite Hi; apply (climb 1).
  - apply name_no_prefix_op, Hx.
  - rewrite factor_atom by (simpl; rewrite Hx; reflexivity).
    reflexivity.
  - reflexivity.
Qed.

(** A numeral alone. *)
Lemma parse_int (ds : pystr) :
  ds <> [] -> forallb is_digit ds = true -> parse ds = Ok (Int (int ds)).
Proof.
  intros Hne Hds.
  assert (Hi : init ds = mk [] (Int (int ds))).
  { apply init_to; rewrite <- (app_nil_r ds) at 1.
    apply LexerFacts.next_int; [assumption|assumption|reflexivity]. }
  apply (parse_enough 11 ds _ (mk [] (Str (str "$")))).
  { unfold fuel_for; lia. }
  apply parse_from_end; [|reflexivity].
  apply assign_level; [|reflexivity].
  rewrite Hi; apply (climb 1); try reflexivity.
Qed.

Section Assignments.

Variables (x input : pystr) (r : obj).
Hypothesis Hx : isalpha x = true.
Hypothesis Hr : parse input = Ok r.

Local Abbreviation k := (fuel_for input).

Lemma advance_eq_sign :
  advance (mk (str " = " ++ input) (Str x))
  = mk (str " " ++ input) (Str (str "=")).
Proof. apply advance_to; reflexivity. Qed.

Lemma advance_blank y : advance (mk (str " " ++ input) y) = init input.
Proof.
  unfold advance, init, Lexer.init; simpl lexer.
  change (str " " ++ input) with (32%N :: input).
  rewrite LexerFacts.next_blank by reflexivity; reflexivity.
Qed.

(** [x = input] is the assignment of what [input] is to [x]. *)
Lemma parse_assignment :
  parse (x ++ str " = " ++ input) = Ok (Tuple [Str (str "="); Str x; r]).
Proof.
  destruct (parse_inv input r Hr) as (q & Hq & Hend).
  assert (Hi : init (x ++ str " = " ++ input)
               = mk (str " = " ++ input) (Str x)).
  { apply init_to, LexerFacts.next_name; [assumption|reflexivity]. }
  apply (parse_enough (S (9 + S k)) _ _ q).
  { unfold fuel_for; rewrite !length_app; simpl List.length; lia. }
  apply parse_from_end; [|exact Hend].
  rewrite (assign_level_eq _ _ (mk (str " " ++ input) (Str (str "="))) (Str x)).
  - rewrite advance_blank; unfold bind.
    assert (Hle : (k <= 9 + S k)%nat) by lia.
    rewrite (parse_assign_more k _ _ _ Hle Hq); reflexivity.
  - rewrite Hi; apply climb.
    + apply name_no_prefix_op, Hx.
    + rewrite factor_atom by (simpl; rewrite Hx; reflexivity).
      simpl tok; rewrite advance_eq_sign; reflexivity.
    + reflexivity.
  - exact Hx.
  - reflexivity.
Qed.

(** [(x) = input]: the parentheses add no node, and the name between
    them is an assignment target all the same. *)
Lemma parse_paren_assignment :
  parse (str "(" ++ x ++ str ") = " ++ input)
  = Ok (Tuple [Str (str "="); Str x; r]).
Proof.
  destruct (parse_inv input r Hr) as (q & Hq & Hend).
  set (p0 := mk (x ++ str ") = " ++ input) (Str (str "("))).
  set (p1 := mk (str ") = " ++ input) (Str x)).
  set (p2 := mk (str " = " ++ input) (Str (str ")"))).
  set (p3 := mk (str " " ++ input) (Str (str "="))).
  assert (Hi : init (str "(" ++ x ++ str ") = " ++ input) = p0).
  { apply init_to; destruct x; [discriminate|reflexivity]. }
  assert (H01 : advance p0 = p1).
  { apply advance_to, LexerFacts.next_name; [assumption|reflexivity]. }
  assert (H12 : advance p1 = p2) by (apply advance_to; reflexivity).
  assert (H23 : advance p2 = p3) by (apply advance_to; reflexivity).
  assert (Hin : parse_assign (S (9 + S k)) p1 = Ok (Str x, p2)).
  { apply assign_level; [|apply andb_false_r].
    apply climb.
    - apply name_no_prefix_op, Hx.
    - rewrite factor_atom by (simpl; rewrite Hx; reflexivity).
      rewrite H12; reflexivity.
    - reflexivity. }
  assert (Hf : parse_factor (S (S (9 + S k))) p0 = Ok (Str x, p3)).
  { rewrite <- H23; apply factor_paren; [reflexivity| |reflexivity].
    rewrite H01; exact Hin. }
  apply (parse_enough (S (9 + S (S (9 + S k)))) _ _ q).
  { unfold fuel_for; rewrite !length_app; simpl List.length; lia. }
  apply parse_from_end; [|exact Hend].
  rewrite Hi, (assign_level_eq _ _ p3 (Str x)).
  - unfold p3; rewrite advance_blank; unfold bind.
    assert (Hle : (k <= 9 + S (S (9 + S k)))%nat) by lia.
    rewrite (parse_assign_more k _ _ _ Hle Hq); reflexivity.
  - apply climb; [reflexivity|exact Hf|reflexivity].
  - exact Hx.
  - reflexivity.
Qed.

End Assignments.

End ParserRuns.

(** ** The parser terminates *)

Module ParserTotal.

Import Parser ParserFacts ParserRuns.
Local Open Scope parser_scope.
Local Open Scope nat_scope.

Lemma remaining_advance p :
  remaining (advance p) <= List.length (lexer p).
Proof.
  unfold remaining, advance.
  destruct (Lexer.next (lexer p)) as [x l] eqn:E; cbn [lexer tok].
  destruct (LexerFacts.next_shorter _ _ _ E) as [Hle Hlt].
  destruct (obj_eqb x (Str (str "$"))); [lia|].
  specialize (Hlt eq_refl); lia.
Qed.

(** Reading a token that is not the end marker leaves less to read. *)
Lemma advance_less p :
  obj_eqb (tok p) (Str (str "$")) = false -> remaining (advance p) < remaining p.
Proof.
  intros H; pose proof (remaining_advance p); unfold remaining at 2.
  rewrite H; lia.
Qed.

Lemma tok_is_not_end (x : obj) (s : string) :
  obj_eqb x (Str (str s)) = true ->
  obj_eqb (Str (str s)) (Str (str "$")) = false ->
  obj_eqb x (Str (str "$")) = false.
Proof. intros H; apply obj_eqb_Str in H; subst x; auto. Qed.

Lemma tok_in_not_end (x : obj) (l : list string) :
  obj_in x (toks l) = true ->
  forallb (fun s => negb (obj_eqb (Str (str s)) (Str (str "$")))) l = true ->
  obj_eqb x (Str (str "$")) = false.
Proof.
  unfold obj_in, toks; induction l as [|s l IH]; simpl; [discriminate|].
  intros H Hl; apply andb_true_iff in Hl as [Hs Hl].
  apply orb_true_iff in H as [H|H]; [|auto].
  apply negb_true_iff in Hs; eapply tok_is_not_end; eauto.
Qed.

Lemma atom_not_end (x : obj) :
  is_int x || is_name x = true -> obj_eqb x (Str (str "$")) = false.
Proof.
  destruct x as [k|s|items]; simpl; intros H; [reflexivity| |discriminate].
  apply (name_is_not s "$" H); reflexivity.
Qed.

Section Rules.

Context {A B : Type}.
Variables (Q : B -> t -> Prop) (p : t).

Lemma wp_bind (m : M A) (k : A -> M B) :
  wp m (fun a q => wp (k a) Q q) p -> wp (bind m k) Q p.
Proof.
  unfold wp, bind; destruct (m p) as [[a q]|e|l]; auto.
Qed.

Lemma wp_call (m : M A) (k : A -> M B) (R : A -> t -> Prop) :
  wp m R p -> (forall a q, R a q -> wp (k a) Q q) -> wp (bind m k) Q p.
Proof.
  intros Hm Hk; unfold wp in *; unfold bind.
  destruct (m p) as [[a q]|e|l]; [apply (Hk a q Hm)|exact I|exact Hm].
Qed.

Lemma wp_last (m : M B) (R : B -> t -> Prop) :
  wp m R p -> (forall b q, R b q -> Q b q) -> wp m Q p.
Proof.
  intros Hm HQ; unfold wp in *.
  destruct (m p) as [[a q]|e|l]; [apply (HQ a q Hm)|exact I|exact Hm].
Qed.

Lemma wp_ret (b : B) : Q b p -> wp (ret b) Q p.
Proof. auto. Qed.

Lemma wp_error (msg : string) : wp (error msg) Q p.
Proof. exact I. Qed.

End Rules.

Lemma wp_tok_is (s : string) (Q : bool -> t -> Prop) (p : t) :
  Q (obj_eqb (tok p) (Str (str s))) p -> wp (tok_is s) Q p.
Proof. auto. Qed.

Lemma wp_tok_in (l : list string) (Q : bool -> t -> Prop) (p : t) :
  Q (obj_in (tok p) (toks l)) p -> wp (tok_in l) Q p.
Proof. auto. Qed.

Lemma wp_get_tok (Q : obj -> t -> Prop) (p : t) :
  Q (tok p) p -> wp get_tok Q p.
Proof. auto. Qed.

Lemma wp_next (Q : unit -> t -> Prop) (p : t) :
  Q tt (advance p) -> wp next Q p.
Proof. unfold wp; rewrite next_advance; auto. Qed.

Ltac not_end :=
  match goal with
  | H : obj_eqb ?x (Str (str ?s)) = true |- obj_eqb ?x _ = false =>
      apply (tok_is_not_end x s H); reflexivity
  | H : obj_in ?x (toks ?l) = true |- obj_eqb ?x _ = false =>
      apply (tok_in_not_end x l H); reflexivity
  | H : is_int ?x = true |- obj_eqb ?x _ = false =>
      apply atom_not_end; rewrite H; reflexivity
  | H : is_name ?x = true |- obj_eqb ?x _ = false =>
      apply atom_not_end; rewrite H; apply orb_true_r
  end.

Ltac note_advance q :=
  lazymatch goal with
  | _ : remaining (advance q) < remaining q |- _ => fail
  | _ =>
      let H := fresh "Hadv" in
      assert (H : remaining (advance q) < remaining q)
        by (apply advance_less; not_end)
  end.

(** The arithmetic of what is left, after every [advance] in the goal. *)
Ltac less :=
  cbv beta in *;
  repeat match goal with
         | H : (_ && _)%bool = true |- _ =>
             apply andb_true_iff in H as [? ?]
         end;
  repeat match goal with
         | |- context [advance ?q] => note_advance q
         | _ : context [advance ?q] |- _ => note_advance q
         end;
  unfold covers in *; lia.

(** The steps of a method that are no calls of a parsing method. *)
Ltac wp_go :=
  repeat (cbv beta;
          match goal with
          | |- wp (bind get_tok _) _ _ => apply wp_bind, wp_get_tok
          | |- wp (bind (tok_is _) _) _ _ => apply wp_bind, wp_tok_is
          | |- wp (bind (tok_in _) _) _ _ => apply wp_bind, wp_tok_in
          | |- wp (bind next _) _ _ => apply wp_bind, wp_next
          | |- wp (bind (ret _) _) _ _ => apply wp_bind, wp_ret
          | |- wp (bind (error _) _) _ _ => apply wp_bind, wp_error
          | |- wp (bind (if negb ?b then _ else _) _) _ _ =>
              destruct b eqn:?; cbn [negb]
          | |- wp (ret _) _ _ => apply wp_ret
          | |- wp (error _) _ _ => apply wp_error
          | |- wp (if ?b then _ else _) _ _ => destruct b eqn:?
          end).

(** A call of a parsing method, by the induction hypothesis [H]. *)
Ltac call H :=
  eapply wp_call; [apply H; less|intros ? ? ?]; wp_go.

Ltac last_call H :=
  eapply wp_last; [apply H; less|intros ? ? ?; less].

Lemma all_terminate_all n : all_terminate n.
Proof.
  induction n as [|n IH].
  - repeat split; intros; intros p Hc; unfold covers in Hc; lia.
  - destruct IH as (Hassign & Hternary & Hor & Hand & Hnot & Hcompare & Hcl
                    & Hadd & Hal & Hmul & Hml & Hunary & Hpow & Hfactor).
    unfold terminates in *.
    repeat split; intros; intros p Hc.
    + rewrite parse_assign_eq; call Hternary; try less.
      call Hassign; less.
    + rewrite parse_ternary_eq; call Hor; try less.
      call Hassign; try less.
      call Hassign; less.
    + rewrite parse_or_eq; call Hand; try less.
      call Hor; less.
    + rewrite parse_and_eq; call Hnot; try less.
      call Hand; less.
    + rewrite parse_not_eq; wp_go.
      * call Hnot; less.
      * last_call Hcompare.
    + rewrite parse_compare_eq; call Hadd.
      last_call Hcl.
    + rewrite compare_loop_eq; wp_go; try less.
      call Hadd. last_call Hcl.
    + rewrite parse_add_eq; call Hmul.
      last_call Hal.
    + rewrite add_loop_eq; wp_go; try less.
      call Hmul. last_call Hal.
    + rewrite parse_mul_eq; call Hunary.
      last_call Hml.
    + rewrite mul_loop_eq; wp_go; try less.
      call Hunary. last_call Hml.
    + rewrite parse_unary_eq; wp_go.
      * call Hunary; less.
      * last_call Hpow.
    + rewrite parse_pow_eq; call Hfactor; try less.
      call Hpow; less.
    + rewrite parse_factor_eq; wp_go; try less.
      call Hassign; less.
Qed.

(** [parse] returns or raises on every input: the fuel it takes is
    enough. *)
Lemma parse_total (input : pystr) :
  (exists e, parse input = Ok e) \/ (exists ex, parse input = Raise ex).
Proof.
  unfold parse.
  assert (Hi : remaining (init input) <= List.length input).
  { change (init input) with (advance (mk input (Int 0))).
    exact (remaining_advance (mk input (Int 0))). }
  assert (Hc : covers 11 (fuel_for input) (init input)).
  { unfold covers, fuel_for; generalize dependent (remaining (init input)).
    intros; lia. }
  generalize dependent (fuel_for input); intros n Hc.
  destruct (all_terminate_all n) as [Hassign _].
  assert (H : wp (parse_from n) (fun _ _ => True) (init input)).
  { unfold parse_from; eapply wp_call; [apply (Hassign _ Hc)|].
    intros e q _; wp_go; exact I. }
  unfold wp in H.
  destruct (parse_from n (init input)) as [[e q]|ex|l];
    [left; exists e|right; exists ex|destruct H]; reflexivity.
Qed.

End ParserTotal.

(** ** The parser returns trees of the grammar *)

Module ParserSound.

Import Parser ParserFacts ParserRuns.
Local Open Scope parser_scope.

Section Rules.

Context {A B : Type}.
Variables (Q : B -> t -> Prop) (p : t).

Lemma sound_bind (m : M A) (k : A -> M B) :
  sound m (fun a q => sound (k a) Q q) p -> sound (bind m k) Q p.
Proof.
  unfold sound, bind; destruct (m p) as [[a q]|e|l]; auto.
Qed.

Lemma sound_call (m : M A) (k : A -> M B) (R : A -> t -> Prop) :
  sound m R p -> (forall a q, R a q -> sound (k a) Q q) -> sound (bind m k) Q p.
Proof.
  intros Hm Hk; unfold sound in *; unfold bind.
  destruct (m p) as [[a q]|e|l]; [apply (Hk a q Hm)|exact Hm|exact I].
Qed.

Lemma sound_ret (b : B) : Q b p -> sound (ret b) Q p.
Proof. auto. Qed.

Lemma sound_error (msg : string) : sound (error msg) Q p.
Proof. unfold sound, error; eauto. Qed.

End Rules.

Lemma sound_tok_is (s : string) (Q : bool -> t -> Prop) (p : t) :
  Q (obj_eqb (tok p) (Str (str s))) p -> sound (tok_is s) Q p.
Proof. auto. Qed.

Lemma sound_tok_in (l : list string) (Q : bool -> t -> Prop) (p : t) :
  Q (obj_in (tok p) (toks l)) p -> sound (tok_in l) Q p.
Proof. auto. Qed.

Lemma sound_get_tok (Q : obj -> t -> Prop) (p : t) :
  Q (tok p) p -> sound get_tok Q p.
Proof. auto. Qed.

Lemma sound_next (Q : unit -> t -> Prop) (p : t) :
  Q tt (advance p) -> sound next Q p.
Proof. unfold sound; rewrite next_advance; auto. Qed.

Ltac sound_go :=
  repeat (cbv beta;
          match goal with
          | |- sound (bind get_tok _) _ _ => apply sound_bind, sound_get_tok
          | |- sound (bind (tok_is _) _) _ _ => apply sound_bind, sound_tok_is
          | |- sound (bind (tok_in _) _) _ _ => apply sound_bind, sound_tok_in
          | |- sound (bind next _) _ _ => apply sound_bind, sound_next
          | |- sound (bind (ret _) _) _ _ => apply sound_bind, sound_ret
          | |- sound (bind (error _) _) _ _ => apply sound_bind, sound_error
          | |- sound (bind (if negb ?b then _ else _) _) _ _ =>
              destruct b eqn:?; cbn [negb]
          | |- sound (ret _) _ _ => apply sound_ret
          | |- sound (error _) _ _ => apply sound_error
          | |- sound (if ?b then _ else _) _ _ => destruct b eqn:?
          end).

Ltac scall H :=
  eapply sound_call; [apply H|intros ? ? ?]; sound_go.

Lemma obj_in_among (x : obj) (l : list string) (l' : list obj) :
  obj_in x (toks l) = true ->
  forallb (fun s => obj_in (Str (str s)) l') l = true ->
  obj_in x l' = true.
Proof.
  unfold toks; induction l as [|s l IH]; simpl; [discriminate|].
  intros H Hl; apply andb_true_iff in Hl as [Hs Hl].
  apply orb_true_iff in H as [H|H]; [|auto].
  apply obj_eqb_Str in H; subst x; exact Hs.
Qed.

Ltac wf_done :=
  cbv beta in *;
  try match goal with
      | H : is_int ?x = true |- wf ?x = true =>
          destruct x; try discriminate; reflexivity
      | H : is_name ?x = true |- wf ?x = true =>
          destruct x; try discriminate; exact H
      end;
  repeat match goal with
         | H : (_ && _)%bool = true |- _ => apply andb_true_iff in H as [? ?]
         end;
  repeat match goal with
         | H : obj_in ?x (toks ?l) = true |- _ =>
             first [ assert (obj_in x binary_ops = true)
                       by (apply (obj_in_among x l); [exact H|reflexivity])
                   | assert (obj_in x unary_ops = true)
                       by (apply (obj_in_among x l); [exact H|reflexivity]) ];
             clear H
         end;
  cbn [wf];
  repeat match goal with
         | H : _ = true |- _ => rewrite H
         end;
  try reflexivity; simpl; rewrite ?orb_true_r; try reflexivity; auto.

Lemma all_return_wf_all n : all_return_wf n.
Proof.
  induction n as [|n IH].
  - repeat split; intros; intros p; exact I.
  - destruct IH as (Hassign & Hternary & Hor & Hand & Hnot & Hcompare & Hcl
                    & Hadd & Hal & Hmul & Hml & Hunary & Hpow & Hfactor).
    unfold returns_wf in *.
    repeat split; intros; intros p.
    + rewrite parse_assign_eq; scall Hternary; [|wf_done].
      scall Hassign; wf_done.
    + rewrite parse_ternary_eq; scall Hor; try wf_done.
      scall Hassign; try wf_done.
      scall Hassign; wf_done.
    + rewrite parse_or_eq; scall Hand; try wf_done.
      scall Hor; wf_done.
    + rewrite parse_and_eq; scall Hnot; try wf_done.
      scall Hand; wf_done.
    + rewrite parse_not_eq; sound_go.
      * scall Hnot; wf_done.
      * apply Hcompare.
    + rewrite parse_compare_eq; scall Hadd.
      apply Hcl; wf_done.
    + rewrite compare_loop_eq; sound_go; try wf_done.
      scall Hadd. apply Hcl; wf_done.
    + rewrite parse_add_eq; scall Hmul.
      apply Hal; wf_done.
    + rewrite add_loop_eq; sound_go; try wf_done.
      scall Hmul. apply Hal; wf_done.
    + rewrite parse_mul_eq; scall Hunary.
      apply Hml; wf_done.
    + rewrite mul_loop_eq; sound_go; try wf_done.
      scall Hunary. apply Hml; wf_done.
    + rewrite parse_unary_eq; sound_go.
      * scall Hunary; wf_done.
      * apply Hpow.
    + rewrite parse_pow_eq; scall Hfactor; try wf_done.
      scall Hpow; wf_done.
    + rewrite parse_factor_eq; sound_go; try wf_done.
      scall Hassign; wf_done.
Qed.

Lemma parse_sound (input : pystr) :
  match parse input with
  | Ok e => wf e = true
  | Raise ex => exists message, ex = ParseError message
  | Beyond _ => True
  end.
Proof.
  unfold parse; generalize (fuel_for input); intros n.
  destruct (all_return_wf_all n) as [Hassign _].
  assert (H : sound (parse_from n) (fun e _ => wf e = true) (init input)).
  { unfold parse_from; scall Hassign; assumption. }
  unfold sound in H.
  destruct (parse_from n (init input)) as [[e q]|ex|l]; exact H.
Qed.

End ParserSound.

(** ** What the lexer takes and what it makes *)

Module LexerMore.

Import Lexer LexerFacts.

Lemma shift_nonneg (ds : pystr) (acc : Z) :
  forallb is_digit ds = true -> 0 <= acc -> 0 <= fold_left shift ds acc.
Proof.
  revert acc; induction ds as [|c ds IH]; simpl; intros acc H Hacc; [exact Hacc|].
  apply andb_true_iff in H as [Hc Hds]; apply IH; [exact Hds|].
  unfold is_digit in Hc; apply andb_true_iff in Hc as [Hc _].
  apply N.leb_le in Hc; unfold shift; lia.
Qed.

Lemma int_nonneg (ds : pystr) : forallb is_digit ds = true -> 0 <= int ds.
Proof. intros H; apply shift_nonneg; [exact H|lia]. Qed.

(** A rule that matches takes a prefix that is not empty; an [int] it makes
    is not negative. *)
Lemma first_match_prefix (l : pystr) (x : obj) (l' : pystr) :
  first_match rules l = Some (x, l') ->
  (exists m, l = m ++ l' /\ m <> [])
  /\ (forall k, x = Int k -> 0 <= k).
Proof.
  cbn [first_match rules].
  destruct (two_char_op l) as [[m r]|] eqn:E1.
  { apply two_char_op_some in E1 as (a & b & -> & -> & _).
    intros [= <- <-]; split; [exists [a; b]; split; [reflexivity|discriminate]|].
    discriminate. }
  destruct (many1 is_digit l) as [[m r]|] eqn:E2.
  { apply many1_some in E2 as (-> & Hm & Hd).
    intros [= <- <-]; split; [exists m; auto|].
    intros k [= <-]; apply int_nonneg, Hd. }
  destruct (many1 is_letter l) as [[m r]|] eqn:E3.
  { apply many1_some in E3 as (-> & Hm & _).
    intros [= <- <-]; split; [exists m; auto|discriminate]. }
  destruct (one is_punct l) as [[m r]|] eqn:E4.
  { apply one_some in E4 as (c & -> & -> & _).
    intros [= <- <-]; split; [exists [c]; split; [reflexivity|discriminate]|].
    discriminate. }
  destruct (one is_dot l) as [[m r]|] eqn:E5; [|discriminate].
  apply one_some in E5 as (c & -> & -> & _).
  intros [= <- <-]; split; [exists [c]; split; [reflexivity|discriminate]|].
  discriminate.
Qed.

Lemma scan_takes_prefix (l1 : pystr) (x : obj) (l' : pystr) :
  match l1 with
  | [] => (Str (str "$"), l1)
  | _ => match first_match rules l1 with
         | Some r => r
         | None => (Str (str "$"), l1)
         end
  end = (x, l') ->
  exists m, l1 = m ++ l'
            /\ (obj_eqb x (Str (str "$")) = false -> m <> [])
            /\ (forall k, x = Int k -> 0 <= k).
Proof.
  destruct l1 as [|c l0].
  - intros [= <- <-]; exists []; repeat split; discriminate.
  - destruct (first_match rules (c :: l0)) as [[y r]|] eqn:E.
    + apply first_match_prefix in E as [(m & E & Hm) Hk].
      intros [= <- <-]; exists m; repeat split; auto.
    + intros [= <- <-]; exists []; repeat split; discriminate.
Qed.

(** What [next] leaves is the end of what it was given; the part it took is
    not empty unless the token is the end marker. *)
Lemma next_takes_prefix (l : pystr) (x : obj) (l' : pystr) :
  next l = (x, l') ->
  exists m, l = m ++ l'
            /\ (obj_eqb x (Str (str "$")) = false -> m <> [])
            /\ (forall k, x = Int k -> 0 <= k).
Proof.
  unfold next, ignore; destruct (many1 is_blank l) as [[m0 r]|] eqn:E0;
    [|apply scan_takes_prefix].
  apply many1_some in E0 as (-> & _ & _); intros H.
  apply scan_takes_prefix in H as (m & -> & Hm & Hk).
  exists (m0 ++ m); rewrite app_assoc; repeat split; [|exact Hk].
  intros Hx E; apply app_eq_nil in E as [_ E]; exact (Hm Hx E).
Qed.

(** The text after a run of [cls] does not go on with [cls]. *)
Lemma span_stops cls (s m r : pystr) : span cls s = (m, r) -> stops cls r = true.
Proof.
  revert m r; induction s as [|c s IH]; simpl; intros m r.
  - intros [= <- <-]; reflexivity.
  - destruct (cls c) eqn:Hc.
    + destruct (span cls s) as [m' r'] eqn:E; intros [= <- <-].
      exact (IH _ _ eq_refl).
    + intros [= <- <-]; simpl; rewrite Hc; reflexivity.
Qed.

(** Past the blanks, the text does not start with a blank. *)
Lemma skip_blanks_stops (l : pystr) :
  stops is_blank (match ignore l with Some (_, rest) => rest | None => l end)
  = true.
Proof.
  unfold ignore, many1; destruct (span is_blank l) as [m r] eqn:E.
  destruct m as [|c m]; [|exact (span_stops _ _ _ _ E)].
  rewrite <- (span_none _ _ _ _ E eq_refl); exact (span_stops _ _ _ _ E).
Qed.

Lemma two_char_op_token (s m r : pystr) :
  two_char_op s = Some (m, r) ->
  obj_in (Str m) (toks ["=="; "!="; "<="; ">="]) = true.
Proof.
  unfold two_char_op; destruct s as [|a [|b s]]; try discriminate.
  destruct (((a =? 61)%N || (a =? 33)%N || (a =? 60)%N || (a =? 62)%N)
            && (b =? 61)%N) eqn:H; [|discriminate].
  intros [= <- <-]; apply andb_true_iff in H as [Ha Hb].
  apply N.eqb_eq in Hb; subst b.
  repeat (apply orb_true_iff in Ha as [Ha|Ha]);
    apply N.eqb_eq in Ha; subst a; reflexivity.
Qed.

Lemma first_match_token (l : pystr) (x : obj) (l' : pystr) :
  stops is_blank l = true -> first_match rules l = Some (x, l') -> token x.
Proof.
  intros Hb; cbn [first_match rules].
  destruct (two_char_op l) as [[m r]|] eqn:E1.
  { intros [= <- <-]; apply token_two_char_op, (two_char_op_token _ _ _ E1). }
  destruct (many1 is_digit l) as [[m r]|] eqn:E2.
  { apply many1_some in E2 as (-> & Hm & Hd).
    intros [= <- <-]; apply token_int, int_nonneg, Hd. }
  destruct (many1 is_letter l) as [[m r]|] eqn:E3.
  { apply many1_some in E3 as (-> & Hm & Hl).
    intros [= <- <-]; apply token_name.
    destruct m as [|c m]; [congruence|exact Hl]. }
  destruct (one is_punct l) as [[m r]|] eqn:E4.
  { apply one_some in E4 as (c & -> & -> & Hc).
    intros [= <- <-]; apply token_punct, Hc. }
  destruct (one is_dot l) as [[m r]|] eqn:E5; [|discriminate].
  apply one_some in E5 as (c & -> & -> & Hc).
  intros [= <- <-]; apply token_unknown.
  unfold many1 in E2, E3; unfold one in E4; simpl in Hb, E2, E3, E4.
  apply negb_true_iff in Hb; unfold unknown; rewrite Hb, Hc.
  destruct (is_digit c); [destruct (span is_digit r); discriminate|].
  destruct (is_letter c); [destruct (span is_letter r); discriminate|].
  destruct (is_punct c); [discriminate|reflexivity].
Qed.

(** Every token is of one of the six kinds. *)
Lemma next_token (l : pystr) : token (fst (next l)).
Proof.
  unfold next.
  pose proof (skip_blanks_stops l) as Hb.
  destruct (match ignore l with Some (_, rest) => rest | None => l end)
    as [|c l0]; [apply token_end|].
  destruct (first_match rules (c :: l0)) as [[y r]|] eqn:E;
    [|apply token_end].
  exact (first_match_token _ _ _ Hb E).
Qed.

(** After the end marker, the end marker: the cursor stays where it is. *)
Lemma next_end_again (l l' : pystr) :
  next l = (Str (str "$"), l') -> next l' = (Str (str "$"), l').
Proof.
  unfold next at 1.
  pose proof (skip_blanks_stops l) as Hb.
  destruct (match ignore l with Some (_, rest) => rest | None => l end)
    as [|c l0]; [intros [= <-]; reflexivity|].
  destruct (first_match rules (c :: l0)) as [[y r]|] eqn:E.
  - apply first_match_rules in E as (_ & Hy & _).
    intros [= -> <-]; discriminate.
  - intros [= <-]; simpl in Hb; apply negb_true_iff in Hb.
    unfold next, ignore; rewrite (many1_none _ _ _ Hb), E; reflexivity.
Qed.

(** Zeros in front of a numeral do not change its value. *)
Lemma int_leading_zeros (k : nat) (ds : pystr) :
  int (repeat 48%N k ++ ds) = int ds.
Proof.
  unfold int; induction k as [|k IH]; [reflexivity|exact IH].
Qed.

Lemma zeros_are_digits (k : nat) : forallb is_digit (repeat 48%N k) = true.
Proof. induction k as [|k IH]; [reflexivity|exact IH]. Qed.

(** Where the end marker comes from: the end of the text, or a newline. *)
Lemma next_end_where (l l' : pystr) :
  next l = (Str (str "$"), l') -> l' = [] \/ exists r, l' = 10%N :: r.
Proof.
  unfold next.
  pose proof (skip_blanks_stops l) as Hb.
  destruct (match ignore l with Some (_, rest) => rest | None => l end)
    as [|c l0]; [intros [= <-]; left; reflexivity|].
  destruct (first_match rules (c :: l0)) as [[y r]|] eqn:E.
  - apply first_match_rules in E as (_ & Hy & _).
    intros [= -> <-]; discriminate.
  - intros [= <-]; right; exists l0; f_equal.
    revert E; cbn [first_match rules].
    destruct (two_char_op (c :: l0)) as [[m r]|]; [discriminate|].
    destruct (many1 is_digit (c :: l0)) as [[m r]|]; [discriminate|].
    destruct (many1 is_letter (c :: l0)) as [[m r]|]; [discriminate|].
    destruct (one is_punct (c :: l0)) as [[m r]|]; [discriminate|].
    unfold one, is_dot; destruct (c =? 10)%N eqn:Ec; [|discriminate].
    intros _; apply N.eqb_eq in Ec; exact Ec.
Qed.

End LexerMore.

(** ** The parser on malformed and on chained inputs *)

Module ParserPaths.

Import Parser ParserFacts ParserRuns.
Local Open Scope parser_scope.

#[local] Arguments next : simpl never.
#[local] Arguments error : simpl never.

Lemma obj_in_none (x : obj) (l : list string) :
  forallb (fun s => negb (obj_eqb x (Str (str s)))) l = true ->
  obj_in x (toks l) = false.
Proof.
  unfold obj_in, toks; induction l as [|s l IH]; simpl; [reflexivity|].
  intros H; apply andb_true_iff in H as [H1 H2].
  apply negb_true_iff in H1; rewrite H1; auto.
Qed.

Lemma name_not_in (x : pystr) (l : list string) :
  isalpha x = true ->
  forallb (fun s => negb (isalpha (str s))) l = true ->
  obj_in (Str x) (toks l) = false.
Proof.
  intros Hx Hl; apply obj_in_none.
  induction l as [|s l IH]; simpl in *; [reflexivity|].
  apply andb_true_iff in Hl as [H1 H2]; apply negb_true_iff in H1.
  change (pystr_eqb x (str s)) with (obj_eqb (Str x) (Str (str s))).
  rewrite (name_is_not x s Hx H1); auto.
Qed.

Lemma name_not_continues (x : pystr) :
  isalpha x = true -> continues (Str x) = false.
Proof. intros Hx; apply name_not_in; [exact Hx|reflexivity]. Qed.

(** What [parse] raises is what any smaller amount of fuel raises. *)
Lemma parse_raises n input ex :
  (n <= fuel_for input)%nat ->
  parse_from n (init input) = Raise ex -> parse input = Raise ex.
Proof.
  intros Hle H; unfold parse.
  assert (E : parse_from (fuel_for input) (init input) = Raise ex).
  { apply (parse_from_more n); [exact Hle|discriminate|exact H]. }
  rewrite E; reflexivity.
Qed.

Lemma bind_raise {A B} (m : M A) (k : A -> M B) (p : t) (ex : exn) :
  m p = Raise ex -> bind m k p = Raise ex.
Proof. intros H; unfold bind; rewrite H; reflexivity. Qed.

Lemma error_eq {A} (msg : string) (p : t) :
  @error A msg p = Raise (ParseError (error_text msg (tok p))).
Proof. reflexivity. Qed.

(** A token that starts no factor. *)
Lemma factor_fails (n : nat) (p : t) :
  is_int (tok p) = false -> is_name (tok p) = false ->
  obj_eqb (tok p) (Str (str "(")) = false ->
  parse_factor (S n) p
  = Raise (ParseError (error_text "expected int, variable, or '('" (tok p))).
Proof.
  intros Hi Hn Hl; rewrite parse_factor_eq.
  unfold bind, get_tok, tok_is; rewrite Hi, Hn, Hl; reflexivity.
Qed.

(** No closing parenthesis after the expression. *)
Lemma factor_unclosed (n : nat) (p : t) (e : obj) (q : t) :
  tok p = Str (str "(") ->
  parse_assign n (advance p) = Ok (e, q) ->
  obj_eqb (tok q) (Str (str ")")) = false ->
  parse_factor (S n) p = Raise (ParseError (error_text "missing ')'" (tok q))).
Proof.
  intros Hp H Hq; rewrite parse_factor_eq.
  unfold bind, get_tok, tok_is, ret; simpl; repeat (rewrite Hp; simpl).
  rewrite next_advance, H; simpl; simpl in Hq; rewrite Hq; reflexivity.
Qed.

(** A failure of [parse_factor] is the failure of every level above it. *)
Lemma mul_fails (n : nat) (p : t) (ex : exn) :
  obj_in (tok p) (toks ["-"; "@"]) = false ->
  parse_factor n p = Raise ex -> parse_mul (3 + n) p = Raise ex.
Proof.
  intros Hp H.
  change (3 + n)%nat with (S (S (S n))).
  rewrite parse_mul_eq; apply bind_raise.
  rewrite unary_level by exact Hp.
  rewrite parse_pow_eq; apply bind_raise, H.
Qed.

Lemma ternary_fails_from_add (n : nat) (p : t) (ex : exn) :
  obj_eqb (tok p) (Str (str "!")) = false ->
  parse_add n p = Raise ex -> parse_ternary (5 + n) p = Raise ex.
Proof.
  intros Hp H.
  change (5 + n)%nat with (S (S (S (S (S n))))).
  rewrite parse_ternary_eq; apply bind_raise.
  rewrite parse_or_eq; apply bind_raise.
  rewrite parse_and_eq; apply bind_raise.
  rewrite not_level by exact Hp.
  rewrite parse_compare_eq; apply bind_raise, H.
Qed.

Lemma assign_fails (n : nat) (p : t) (ex : exn) :
  prefix_op (tok p) = false ->
  parse_factor n p = Raise ex -> parse_assign (10 + n) p = Raise ex.
Proof.
  unfold prefix_op, obj_in, toks; simpl map; simpl existsb.
  intros Hp H; split_orb Hp.
  change (10 + n)%nat with (S (5 + S (3 + n))).
  rewrite parse_assign_eq; apply bind_raise.
  apply ternary_fails_from_add; [assumption|].
  rewrite parse_add_eq; apply bind_raise.
  apply mul_fails; [|exact H].
  apply obj_in_none; simpl; rewrite_toks; reflexivity.
Qed.

Lemma obj_in_false (x : obj) (l : list string) (s : string) :
  obj_in x (toks l) = false -> In s l -> obj_eqb x (Str (str s)) = false.
Proof.
  unfold obj_in, toks; induction l as [|s' l IH]; simpl; [contradiction|].
  intros H; apply orb_false_iff in H as [H1 H2].
  intros [<-|Hin]; auto.
Qed.

Lemma obj_in_fewer (x : obj) (l l' : list string) :
  obj_in x (toks l) = false -> incl l' l -> obj_in x (toks l') = false.
Proof.
  intros H Hincl; apply obj_in_none, forallb_forall; intros s Hs.
  apply negb_true_iff, (obj_in_false x l s H), Hincl, Hs.
Qed.

Ltac among := intros ? ?; simpl in *; tauto.

(** Success, level by level: from a factor to [parse_mul], from [parse_add]
    to [parse_ternary], from a factor to [parse_or]. *)
Lemma climb_mul (n : nat) (p q : t) (e : obj) :
  obj_in (tok p) (toks ["-"; "@"]) = false ->
  parse_factor n p = Ok (e, q) ->
  obj_in (tok q) (toks ["^"; "*"; "/"; "%"]) = false ->
  parse_mul (3 + n) p = Ok (e, q).
Proof.
  intros Hp H Hq.
  change (3 + n)%nat with (S (S (S n))).
  apply mul_level; [|apply (obj_in_fewer _ _ _ Hq); among].
  rewrite unary_level by exact Hp.
  apply pow_level; [exact H|apply (obj_in_false _ _ _ Hq); simpl; tauto].
Qed.

Lemma climb_from_add (n : nat) (p q : t) (e : obj) :
  obj_eqb (tok p) (Str (str "!")) = false ->
  parse_add n p = Ok (e, q) ->
  obj_in (tok q) (toks ["=="; "!="; "<"; "<="; ">"; ">="; "&"; "|"; "?"])
  = false ->
  parse_ternary (5 + n) p = Ok (e, q).
Proof.
  intros Hp H Hq.
  change (5 + n)%nat with (S (S (S (S (S n))))).
  apply ternary_level; [|apply (obj_in_false _ _ _ Hq); simpl; tauto].
  apply or_level; [|apply (obj_in_false _ _ _ Hq); simpl; tauto].
  apply and_level; [|apply (obj_in_false _ _ _ Hq); simpl; tauto].
  rewrite not_level by exact Hp.
  apply compare_level; [exact H|apply (obj_in_fewer _ _ _ Hq); among].
Qed.

Lemma climb_or (n : nat) (p q : t) (e : obj) :
  prefix_op (tok p) = false ->
  parse_factor n p = Ok (e, q) ->
  obj_in (tok q) (toks ["^"; "*"; "/"; "%"; "+"; "-"; "=="; "!="; "<"; "<=";
                        ">"; ">="; "&"; "|"]) = false ->
  parse_or (8 + n) p = Ok (e, q).
Proof.
  intros Hp H Hq.
  change (8 + n)%nat with (S (S (S (S (S (3 + n)))))).
  apply or_level; [|apply (obj_in_false _ _ _ Hq); simpl; tauto].
  apply and_level; [|apply (obj_in_false _ _ _ Hq); simpl; tauto].
  rewrite not_level
    by (apply (obj_in_false _ _ _ Hp); simpl; tauto).
  apply compare_level; [|apply (obj_in_fewer _ _ _ Hq); among].
  apply add_level; [|apply (obj_in_fewer _ _ _ Hq); among].
  apply climb_mul; [apply (obj_in_fewer _ _ _ Hp); among|exact H|].
  apply (obj_in_fewer _ _ _ Hq); among.
Qed.

(** One turn of the loop of [parse_add], and its end. *)
Lemma add_loop_turn (n : nat) (p : t) (e : obj) :
  obj_in (tok p) (toks ["+"; "-"]) = true ->
  add_loop (S n) e p
  = (right <- parse_mul n ;; add_loop n (Tuple [tok p; e; right])) (advance p).
Proof.
  intros Hp; rewrite add_loop_eq.
  unfold bind, tok_in, get_tok; rewrite Hp, next_advance; reflexivity.
Qed.

Lemma add_loop_end (n : nat) (p : t) (e : obj) :
  obj_in (tok p) (toks ["+"; "-"]) = false -> add_loop (S n) e p = Ok (e, p).
Proof.
  intros Hp; rewrite add_loop_eq.
  unfold bind, tok_in; rewrite Hp; reflexivity.
Qed.

(** A name at the end of the input. *)
Lemma assign_last_name (n : nat) (x : pystr) :
  isalpha x = true ->
  parse_assign (S (9 + S n)) (mk [] (Str x))
  = Ok (Str x, mk [] (Str (str "$"))).
Proof.
  intros Hx; apply assign_level; [|apply andb_false_r].
  apply climb.
  - apply name_no_prefix_op, Hx.
  - rewrite factor_atom by (simpl; rewrite Hx; reflexivity); reflexivity.
  - reflexivity.
Qed.

Lemma next_last_name (x : pystr) :
  isalpha x = true -> Lexer.next x = (Str x, []).
Proof.
  intros Hx; rewrite <- (app_nil_r x) at 1.
  apply LexerFacts.next_name; [exact Hx|reflexivity].
Qed.

Lemma next_blanks (s : pystr) :
  forallb is_blank s = true -> Lexer.next s = (Str (str "$"), []).
Proof.
  induction s as [|c s IH]; simpl; [reflexivity|].
  intros H; apply andb_true_iff in H as [Hc Hs].
  rewrite LexerFacts.next_blank by exact Hc; auto.
Qed.

(** The ternary operator: without its colon, and complete. *)
Lemma ternary_without_colon (n : nat) (p q q2 : t) (e e2 : obj) :
  parse_or n p = Ok (e, q) -> tok q = Str (str "?") ->
  parse_assign n (advance q) = Ok (e2, q2) ->
  obj_eqb (tok q2) (Str (str ":")) = false ->
  parse_ternary (S n) p
  = Raise (ParseError
             (error_text "missing ':' in ternary expression" (tok q2))).
Proof.
  intros H Hq H2 Hq2; rewrite parse_ternary_eq.
  unfold bind, tok_is; rewrite H; cbv beta iota; rewrite Hq.
  change (obj_eqb (Str (str "?")) (Str (str "?"))) with true; cbv beta iota.
  rewrite next_advance, H2; cbv beta iota; rewrite Hq2; reflexivity.
Qed.

Lemma ternary_complete (n : nat) (p q q2 q3 : t) (e e2 e3 : obj) :
  parse_or n p = Ok (e, q) -> tok q = Str (str "?") ->
  parse_assign n (advance q) = Ok (e2, q2) -> tok q2 = Str (str ":") ->
  parse_assign n (advance q2) = Ok (e3, q3) ->
  parse_ternary (S n) p = Ok (Tuple [Str (str "?:"); e; e2; e3], q3).
Proof.
  intros H Hq H2 Hq2 H3; rewrite parse_ternary_eq.
  unfold bind, tok_is; rewrite H; cbv beta iota; rewrite Hq.
  change (obj_eqb (Str (str "?")) (Str (str "?"))) with true; cbv beta iota.
  rewrite next_advance, H2; cbv beta iota; rewrite Hq2.
  change (obj_eqb (Str (str ":")) (Str (str ":"))) with true.
  cbv beta iota delta [negb ret]; rewrite next_advance, H3; reflexivity.
Qed.

(** Two numerals around [+] or [-]. *)
Lemma parse_sum (opc : char) (ds1 ds2 : pystr) :
  opc = 43%N \/ opc = 45%N ->
  ds1 <> [] -> forallb is_digit ds1 = true ->
  ds2 <> [] -> forallb is_digit ds2 = true ->
  parse (ds1 ++ [32%N; opc; 32%N] ++ ds2)
  = Ok (Tuple [Str [opc]; Int (int ds1); Int (int ds2)]).
Proof.
  intros Hop Hn1 Hd1 Hn2 Hd2.
  set (p0 := mk ([32%N; opc; 32%N] ++ ds2) (Int (int ds1))).
  set (p1 := mk (32%N :: ds2) (Str [opc])).
  set (p2 := mk [] (Int (int ds2))).
  set (p3 := mk [] (Str (str "$"))).
  assert (Hi : init (ds1 ++ [32%N; opc; 32%N] ++ ds2) = p0)
    by (apply init_to, LexerFacts.next_int; auto).
  assert (H01 : advance p0 = p1)
    by (apply advance_to; destruct Hop; subst opc; reflexivity).
  assert (H12 : advance p1 = p2).
  { apply advance_to; rewrite LexerFacts.next_blank by reflexivity.
    rewrite <- (app_nil_r ds2) at 1; apply LexerFacts.next_int; auto. }
  assert (Hop1 : obj_in (Str [opc]) (toks ["+"; "-"]) = true)
    by (destruct Hop; subst opc; reflexivity).
  assert (Hop2 : obj_in (Str [opc]) (toks ["^"; "*"; "/"; "%"]) = false)
    by (destruct Hop; subst opc; reflexivity).
  assert (Hm0 : parse_mul 6 p0 = Ok (Int (int ds1), p1)).
  { apply (climb_mul 3); [reflexivity| |exact Hop2].
    rewrite factor_atom by reflexivity; rewrite H01; reflexivity. }
  assert (Hm2 : parse_mul 5 p2 = Ok (Int (int ds2), p3)).
  { apply (climb_mul 2); [reflexivity| |reflexivity].
    rewrite factor_atom by reflexivity; reflexivity. }
  assert (Hadd : parse_add 7 p0
                 = Ok (Tuple [Str [opc]; Int (int ds1); Int (int ds2)], p3)).
  { rewrite parse_add_eq; unfold bind at 1; rewrite Hm0.
    rewrite add_loop_turn by exact Hop1.
    rewrite H12; unfold bind; rewrite Hm2.
    apply add_loop_end; reflexivity. }
  apply (parse_enough 13 _ _ p3);
    [unfold fuel_for; rewrite length_app; simpl List.length; lia|].
  rewrite Hi; apply parse_from_end; [|reflexivity].
  apply assign_level; [|reflexivity].
  apply (climb_from_add 7); [reflexivity|exact Hadd|reflexivity].
Qed.

(** A blank in front of a line changes nothing. *)
Lemma parse_eq (input : pystr) :
  parse input = strip_state (parse_from (fuel_for input) (init input)).
Proof. unfold parse, strip_state; reflexivity. Qed.

Lemma parse_from_agree (n n' : nat) (p : t) :
  (n <= n')%nat ->
  (forall l, strip_state (parse_from n p) <> Beyond l) ->
  strip_state (parse_from n' p) = strip_state (parse_from n p).
Proof.
  intros Hle Hnf.
  destruct (parse_from n p) as [[e q]|ex|l] eqn:E.
  - rewrite (parse_from_more n n' p (Ok (e, q)) Hle); [reflexivity| |exact E].
    discriminate.
  - rewrite (parse_from_more n n' p (Raise ex) Hle); [reflexivity| |exact E].
    discriminate.
  - exfalso; apply (Hnf l); reflexivity.
Qed.

Lemma parse_skip_blank (c : char) (input : pystr) :
  is_blank c = true -> parse (c :: input) = parse input.
Proof.
  intros Hc.
  assert (Hi : init (c :: input) = init input).
  { destruct (Lexer.next input) as [x l] eqn:E.
    rewrite (init_to input x l E); apply init_to.
    rewrite LexerFacts.next_blank by exact Hc; exact E. }
  assert (Hle : (fuel_for input <= fuel_for (c :: input))%nat)
    by (unfold fuel_for; cbn [List.length]; lia).
  pose proof (ParserTotal.parse_total input) as Ht.
  rewrite (parse_eq (c :: input)), Hi.
  rewrite (parse_eq input) in Ht |- *.
  apply parse_from_agree; [exact Hle|].
  intros l E; rewrite E in Ht.
  destruct Ht as [[e He]|[ex Hex]]; discriminate.
Qed.

Lemma parse_skip_blanks (blanks input : pystr) :
  forallb is_blank blanks = true -> parse (blanks ++ input) = parse input.
Proof.
  induction blanks as [|c blanks IH]; [reflexivity|].
  cbn [forallb]; intros H; apply andb_true_iff in H as [Hc Hb].
  rewrite <- app_comm_cons, parse_skip_blank by exact Hc; auto.
Qed.

End ParserPaths.

(** ** Every tree of the grammar is the tree of a line *)

Module ParserComplete.

Import Parser ParserFacts ParserRuns.
Local Open Scope parser_scope.

#[local] Arguments next : simpl never.
#[local] Arguments error : simpl never.

(** *** From one level of the grammar to the next *)

Section Levels.

Variables (p q : t) (e : obj).

Lemma reaches_factor_atom :
  is_int (tok p) || is_name (tok p) = true ->
  reaches parse_factor p (tok p, advance p).
Proof.
  intros H; exists 1%nat; intros [|m] Hm; [lia|].
  apply factor_atom, H.
Qed.

Lemma reaches_factor_paren :
  tok p = Str (str "(") ->
  reaches parse_assign (advance p) (e, q) ->
  tok q = Str (str ")") ->
  reaches parse_factor p (e, advance q).
Proof.
  intros Hp [n H] Hq; exists (S n); intros [|m] Hm; [lia|].
  apply factor_paren; [exact Hp|apply H; lia|exact Hq].
Qed.

Lemma reaches_pow :
  reaches parse_factor p (e, q) ->
  obj_eqb (tok q) (Str (str "^")) = false ->
  reaches parse_pow p (e, q).
Proof.
  intros [n H] Hq; exists (S n); intros [|m] Hm; [lia|].
  apply pow_level; [apply H; lia|exact Hq].
Qed.

Lemma reaches_unary :
  reaches parse_pow p (e, q) ->
  obj_in (tok p) (toks ["-"; "@"]) = false ->
  reaches parse_unary p (e, q).
Proof.
  intros [n H] Hp; exists (S n); intros [|m] Hm; [lia|].
  rewrite unary_level by exact Hp; apply H; lia.
Qed.

Lemma reaches_mul :
  reaches parse_unary p (e, q) ->
  obj_in (tok q) (toks ["*"; "/"; "%"]) = false ->
  reaches parse_mul p (e, q).
Proof.
  intros [n H] Hq; exists (S n); intros [|m] Hm; [lia|].
  apply mul_level; [apply H; lia|exact Hq].
Qed.

Lemma reaches_add :
  reaches parse_mul p (e, q) ->
  obj_in (tok q) (toks ["+"; "-"]) = false ->
  reaches parse_add p (e, q).
Proof.
  intros [n H] Hq; exists (S n); intros [|m] Hm; [lia|].
  apply add_level; [apply H; lia|exact Hq].
Qed.

Lemma reaches_compare :
  reaches parse_add p (e, q) ->
  obj_in (tok q) (toks ["=="; "!="; "<"; "<="; ">"; ">="]) = false ->
  reaches parse_compare p (e, q).
Proof.
  intros [n H] Hq; exists (S n); intros [|m] Hm; [lia|].
  apply compare_level; [apply H; lia|exact Hq].
Qed.

Lemma reaches_not :
  reaches parse_compare p (e, q) ->
  obj_eqb (tok p) (Str (str "!")) = false ->
  reaches parse_not p (e, q).
Proof.
  intros [n H] Hp; exists (S n); intros [|m] Hm; [lia|].
  rewrite not_level by exact Hp; apply H; lia.
Qed.

Lemma reaches_and :
  reaches parse_not p (e, q) ->
  obj_eqb (tok q) (Str (str "&")) = false ->
  reaches parse_and p (e, q).
Proof.
  intros [n H] Hq; exists (S n); intros [|m] Hm; [lia|].
  apply and_level; [apply H; lia|exact Hq].
Qed.

Lemma reaches_or :
  reaches parse_and p (e, q) ->
  obj_eqb (tok q) (Str (str "|")) = false ->
  reaches parse_or p (e, q).
Proof.
  intros [n H] Hq; exists (S n); intros [|m] Hm; [lia|].
  apply or_level; [apply H; lia|exact Hq].
Qed.

Lemma reaches_ternary :
  reaches parse_or p (e, q) ->
  obj_eqb (tok q) (Str (str "?")) = false ->
  reaches parse_ternary p (e, q).
Proof.
  intros [n H] Hq; exists (S n); intros [|m] Hm; [lia|].
  apply ternary_level; [apply H; lia|exact Hq].
Qed.

Lemma reaches_assign :
  reaches parse_ternary p (e, q) ->
  is_name e && obj_eqb (tok q) (Str (str "=")) = false ->
  reaches parse_assign p (e, q).
Proof.
  intros [n H] Hq; exists (S n); intros [|m] Hm; [lia|].
  apply assign_level; [apply H; lia|exact Hq].
Qed.

End Levels.

(** *** The nodes *)

Section Nodes.

Variables (p q q2 : t) (a b : obj).

Lemma node_pow :
  reaches parse_factor p (a, q) -> tok q = Str (str "^") ->
  reaches parse_pow (advance q) (b, q2) ->
  reaches parse_pow p (Tuple [Str (str "^"); a; b], q2).
Proof.
  intros [n1 H1] Hq [n2 H2]; exists (S (n1 + n2)); intros [|m] Hm; [lia|].
  rewrite parse_pow_eq; unfold bind, tok_is.
  rewrite (H1 m) by lia; cbv beta iota; rewrite Hq.
  change (obj_eqb (Str (str "^")) (Str (str "^"))) with true; cbv beta iota.
  rewrite next_advance, (H2 m) by lia; reflexivity.
Qed.

Lemma node_unary :
  obj_in (tok p) (toks ["-"; "@"]) = true ->
  reaches parse_unary (advance p) (a, q) ->
  reaches parse_unary p (Tuple [tok p; a], q).
Proof.
  intros Hp [n H]; exists (S n); intros [|m] Hm; [lia|].
  rewrite parse_unary_eq; unfold bind, tok_in, get_tok.
  rewrite Hp, next_advance, (H m) by lia; reflexivity.
Qed.

Lemma node_mul :
  reaches parse_unary p (a, q) ->
  obj_in (tok q) (toks ["*"; "/"; "%"]) = true ->
  reaches parse_unary (advance q) (b, q2) ->
  obj_in (tok q2) (toks ["*"; "/"; "%"]) = false ->
  reaches parse_mul p (Tuple [tok q; a; b], q2).
Proof.
  intros [n1 H1] Hq [n2 H2] Hq2; exists (3 + n1 + n2)%nat.
  intros [|[|[|m]]] Hm; try lia.
  rewrite parse_mul_eq; unfold bind at 1; rewrite (H1 (S (S m))) by lia.
  rewrite mul_loop_eq; unfold bind, tok_in, get_tok.
  rewrite Hq, next_advance, (H2 (S m)) by lia.
  rewrite mul_loop_eq; unfold bind, tok_in; rewrite Hq2; reflexivity.
Qed.

Lemma node_add :
  reaches parse_mul p (a, q) ->
  obj_in (tok q) (toks ["+"; "-"]) = true ->
  reaches parse_mul (advance q) (b, q2) ->
  obj_in (tok q2) (toks ["+"; "-"]) = false ->
  reaches parse_add p (Tuple [tok q; a; b], q2).
Proof.
  intros [n1 H1] Hq [n2 H2] Hq2; exists (3 + n1 + n2)%nat.
  intros [|[|[|m]]] Hm; try lia.
  rewrite parse_add_eq; unfold bind at 1; rewrite (H1 (S (S m))) by lia.
  rewrite add_loop_eq; unfold bind, tok_in, get_tok.
  rewrite Hq, next_advance, (H2 (S m)) by lia.
  rewrite add_loop_eq; unfold bind, tok_in; rewrite Hq2; reflexivity.
Qed.

Lemma node_compare :
  reaches parse_add p (a, q) ->
  obj_in (tok q) (toks ["=="; "!="; "<"; "<="; ">"; ">="]) = true ->
  reaches parse_add (advance q) (b, q2) ->
  obj_in (tok q2) (toks ["=="; "!="; "<"; "<="; ">"; ">="]) = false ->
  reaches parse_compare p (Tuple [tok q; a; b], q2).
Proof.
  intros [n1 H1] Hq [n2 H2] Hq2; exists (3 + n1 + n2)%nat.
  intros [|[|[|m]]] Hm; try lia.
  rewrite parse_compare_eq; unfold bind at 1; rewrite (H1 (S (S m))) by lia.
  rewrite compare_loop_eq; unfold bind, tok_in, get_tok.
  rewrite Hq, next_advance, (H2 (S m)) by lia.
  rewrite compare_loop_eq; unfold bind, tok_in; rewrite Hq2; reflexivity.
Qed.

Lemma node_not :
  tok p = Str (str "!") ->
  reaches parse_not (advance p) (a, q) ->
  reaches parse_not p (Tuple [Str (str "!"); a], q).
Proof.
  intros Hp [n H]; exists (S n); intros [|m] Hm; [lia|].
  rewrite parse_not_eq; unfold bind, tok_is; rewrite Hp.
  change (obj_eqb (Str (str "!")) (Str (str "!"))) with true; cbv beta iota.
  rewrite next_advance, (H m) by lia; reflexivity.
Qed.

Lemma node_and :
  reaches parse_not p (a, q) -> tok q = Str (str "&") ->
  reaches parse_and (advance q) (b, q2) ->
  reaches parse_and p (Tuple [Str (str "&"); a; b], q2).
Proof.
  intros [n1 H1] Hq [n2 H2]; exists (S (n1 + n2)); intros [|m] Hm; [lia|].
  rewrite parse_and_eq; unfold bind, tok_is.
  rewrite (H1 m) by lia; cbv beta iota; rewrite Hq.
  change (obj_eqb (Str (str "&")) (Str (str "&"))) with true; cbv beta iota.
  rewrite next_advance, (H2 m) by lia; reflexivity.
Qed.

Lemma node_or :
  reaches parse_and p (a, q) -> tok q = Str (str "|") ->
  reaches parse_or (advance q) (b, q2) ->
  reaches parse_or p (Tuple [Str (str "|"); a; b], q2).
Proof.
  intros [n1 H1] Hq [n2 H2]; exists (S (n1 + n2)); intros [|m] Hm; [lia|].
  rewrite parse_or_eq; unfold bind, tok_is.
  rewrite (H1 m) by lia; cbv beta iota; rewrite Hq.
  change (obj_eqb (Str (str "|")) (Str (str "|"))) with true; cbv beta iota.
  rewrite next_advance, (H2 m) by lia; reflexivity.
Qed.

Lemma node_assign :
  reaches parse_ternary p (a, q) -> is_name a = true ->
  tok q = Str (str "=") ->
  reaches parse_assign (advance q) (b, q2) ->
  reaches parse_assign p (Tuple [Str (str "="); a; b], q2).
Proof.
  intros [n1 H1] Ha Hq [n2 H2]; exists (S (n1 + n2)); intros [|m] Hm; [lia|].
  rewrite (assign_level_eq m p q a) by (auto; apply H1; lia).
  unfold bind; rewrite (H2 m) by lia; reflexivity.
Qed.

End Nodes.

Lemma node_ternary (p q q2 q3 : t) (c a b : obj) :
  reaches parse_or p (c, q) -> tok q = Str (str "?") ->
  reaches parse_assign (advance q) (a, q2) -> tok q2 = Str (str ":") ->
  reaches parse_assign (advance q2) (b, q3) ->
  reaches parse_ternary p (Tuple [Str (str "?:"); c; a; b], q3).
Proof.
  intros [n1 H1] Hq [n2 H2] Hq2 [n3 H3].
  exists (S (n1 + n2 + n3)); intros [|m] Hm; [lia|].
  apply (ParserPaths.ternary_complete m p q q2 q3); auto; [apply H1|apply H2|apply H3]; lia.
Qed.

(** *** Whole expressions, on the tokens *)

Lemma closing_cases (x : obj) :
  closing x = true -> x = Str (str ")") \/ x = Str (str "$").
Proof.
  unfold closing; intros H; apply orb_true_iff in H as [H|H];
    apply obj_eqb_Str in H; auto.
Qed.

Lemma atom_is_no_operator (x : obj) (s : string) :
  is_int x || is_name x = true -> isalpha (str s) = false ->
  obj_eqb x (Str (str s)) = false.
Proof.
  destruct x as [k|u|items]; simpl; try discriminate; [reflexivity|].
  intros Hu Hs; exact (name_is_not u s Hu Hs).
Qed.

Ltac down H :=
  repeat first
    [ exact H
    | apply reaches_assign | apply reaches_ternary | apply reaches_or
    | apply reaches_and | apply reaches_not | apply reaches_compare
    | apply reaches_add | apply reaches_mul | apply reaches_unary
    | apply reaches_pow ].

Ltac side :=
  cbn [is_name];
  repeat match goal with
         | H : tok _ = _ |- _ => rewrite H
         end;
  rewrite ?andb_false_r; reflexivity.

Lemma whole_atom (p : t) :
  is_int (tok p) || is_name (tok p) = true ->
  closing (tok (advance p)) = true ->
  reaches parse_assign p (tok p, advance p).
Proof.
  intros Hp Hc; pose proof (reaches_factor_atom p Hp) as F.
  assert (Hno : forall s, isalpha (str s) = false ->
                          obj_eqb (tok p) (Str (str s)) = false)
    by (intros s; apply atom_is_no_operator, Hp).
  destruct (closing_cases _ Hc) as [Hq|Hq]; down F;
    first [ side
          | unfold obj_in, toks; cbn [map existsb];
            rewrite !Hno by reflexivity; reflexivity
          | apply Hno; reflexivity ].
Qed.

Section Whole.

Variables (p q q2 : t) (a b : obj).

Hypothesis Hq2 : closing (tok q2) = true.

Lemma whole_not :
  tok p = Str (str "!") -> tok (advance p) = Str (str "(") ->
  reaches parse_factor (advance p) (a, q2) ->
  reaches parse_assign p (Tuple [Str (str "!"); a], q2).
Proof.
  intros Hp Hp' R.
  destruct (closing_cases _ Hq2) as [Hc|Hc];
    (assert (N : reaches parse_not p (Tuple [Str (str "!"); a], q2))
      by (apply node_not; [exact Hp|down R; side]));
    down N; side.
Qed.

Lemma whole_unary (s : string) :
  In s ["-"; "@"] ->
  tok p = Str (str s) -> tok (advance p) = Str (str "(") ->
  reaches parse_factor (advance p) (a, q2) ->
  reaches parse_assign p (Tuple [Str (str s); a], q2).
Proof.
  intros Hs Hp Hp' R; rewrite <- Hp.
  simpl in Hs; repeat destruct Hs as [<-|Hs]; try contradiction;
    destruct (closing_cases _ Hq2) as [Hc|Hc];
    (assert (N : reaches parse_unary p (Tuple [tok p; a], q2))
      by (apply node_unary; [side|down R; side]));
    down N; side.
Qed.

Hypothesis Hp : tok p = Str (str "(").
Hypothesis Hp' : tok (advance q) = Str (str "(").
Hypothesis L : reaches parse_factor p (a, q).
Hypothesis R : reaches parse_factor (advance q) (b, q2).

Lemma whole_pow :
  tok q = Str (str "^") ->
  reaches parse_assign p (Tuple [Str (str "^"); a; b], q2).
Proof.
  intros Hq.
  destruct (closing_cases _ Hq2) as [Hc|Hc];
    (assert (N : reaches parse_pow p (Tuple [Str (str "^"); a; b], q2))
      by (apply (node_pow p q); [exact L|exact Hq|down R; side]));
    down N; side.
Qed.

Lemma whole_mul (s : string) :
  In s ["*"; "/"; "%"] -> tok q = Str (str s) ->
  reaches parse_assign p (Tuple [Str (str s); a; b], q2).
Proof.
  intros Hs Hq; rewrite <- Hq.
  simpl in Hs; repeat destruct Hs as [<-|Hs]; try contradiction;
    destruct (closing_cases _ Hq2) as [Hc|Hc];
    (assert (N : reaches parse_mul p (Tuple [tok q; a; b], q2))
      by (apply node_mul; [down L; side|side|down R; side|side]));
    down N; side.
Qed.

Lemma whole_add (s : string) :
  In s ["+"; "-"] -> tok q = Str (str s) ->
  reaches parse_assign p (Tuple [Str (str s); a; b], q2).
Proof.
  intros Hs Hq; rewrite <- Hq.
  simpl in Hs; repeat destruct Hs as [<-|Hs]; try contradiction;
    destruct (closing_cases _ Hq2) as [Hc|Hc];
    (assert (N : reaches parse_add p (Tuple [tok q; a; b], q2))
      by (apply node_add; [down L; side|side|down R; side|side]));
    down N; side.
Qed.

Lemma whole_compare (s : string) :
  In s ["=="; "!="; "<"; "<="; ">"; ">="] -> tok q = Str (str s) ->
  reaches parse_assign p (Tuple [Str (str s); a; b], q2).
Proof.
  intros Hs Hq; rewrite <- Hq.
  simpl in Hs; repeat destruct Hs as [<-|Hs]; try contradiction;
    destruct (closing_cases _ Hq2) as [Hc|Hc];
    (assert (N : reaches parse_compare p (Tuple [tok q; a; b], q2))
      by (apply node_compare; [down L; side|side|down R; side|side]));
    down N; side.
Qed.

Lemma whole_and :
  tok q = Str (str "&") ->
  reaches parse_assign p (Tuple [Str (str "&"); a; b], q2).
Proof.
  intros Hq.
  destruct (closing_cases _ Hq2) as [Hc|Hc];
    (assert (N : reaches parse_and p (Tuple [Str (str "&"); a; b], q2))
      by (apply (node_and p q); [down L; side|exact Hq|down R; side]));
    down N; side.
Qed.

Lemma whole_or :
  tok q = Str (str "|") ->
  reaches parse_assign p (Tuple [Str (str "|"); a; b], q2).
Proof.
  intros Hq.
  destruct (closing_cases _ Hq2) as [Hc|Hc];
    (assert (N : reaches parse_or p (Tuple [Str (str "|"); a; b], q2))
      by (apply (node_or p q); [down L; side|exact Hq|down R; side]));
    down N; side.
Qed.

(** The fourteen binary operators at once. *)
Lemma whole_binary (s : string) :
  obj_in (Str (str s)) binary_ops = true -> tok q = Str (str s) ->
  reaches parse_assign p (Tuple [Str (str s); a; b], q2).
Proof.
  intros Hs Hq; apply obj_in_cases in Hs as (s' & Hin & E); rewrite E in *.
  clear E s; simpl in Hin.
  repeat destruct Hin as [<-|Hin]; try contradiction;
    first [ apply whole_or, Hq | apply whole_and, Hq | apply whole_pow, Hq
          | apply whole_compare; [simpl; tauto|exact Hq]
          | apply whole_add; [simpl; tauto|exact Hq]
          | apply whole_mul; [simpl; tauto|exact Hq] ].
Qed.

End Whole.

Lemma whole_assign (p q q2 : t) (b : obj) :
  is_name (tok p) = true -> advance p = q -> tok q = Str (str "=") ->
  tok (advance q) = Str (str "(") ->
  reaches parse_factor (advance q) (b, q2) ->
  closing (tok q2) = true ->
  reaches parse_assign p (Tuple [Str (str "="); tok p; b], q2).
Proof.
  intros Hp <- Hq Hp' R Hc.
  assert (Ha : is_int (tok p) || is_name (tok p) = true)
    by (rewrite Hp; apply orb_true_r).
  pose proof (reaches_factor_atom p Ha) as F.
  assert (Hno : forall s, isalpha (str s) = false ->
                          obj_eqb (tok p) (Str (str s)) = false)
    by (intros s; apply atom_is_no_operator, Ha).
  apply (node_assign p (advance p)); [|exact Hp|exact Hq|].
  - down F;
      first [ side
            | unfold obj_in, toks; cbn [map existsb];
              rewrite !Hno by reflexivity; reflexivity
            | apply Hno; reflexivity ].
  - destruct (closing_cases _ Hc) as [Hc'|Hc']; down R; side.
Qed.

Lemma whole_ternary (p q q2 q3 : t) (c a b : obj) :
  tok p = Str (str "(") -> reaches parse_factor p (c, q) ->
  tok q = Str (str "?") ->
  tok (advance q) = Str (str "(") ->
  reaches parse_factor (advance q) (a, q2) ->
  tok q2 = Str (str ":") ->
  tok (advance q2) = Str (str "(") ->
  reaches parse_factor (advance q2) (b, q3) ->
  closing (tok q3) = true ->
  reaches parse_assign p (Tuple [Str (str "?:"); c; a; b], q3).
Proof.
  intros Hp C Hq Hp1 A Hq2 Hp2 B Hc.
  destruct (closing_cases _ Hc) as [Hc'|Hc'];
    (assert (N : reaches parse_ternary p (Tuple [Str (str "?:"); c; a; b], q3))
      by (apply (node_ternary p q q2 q3);
          [down C; side|exact Hq|down A; side|exact Hq2|down B; side]));
    down N; side.
Qed.

(** *** The lexer on the text of a tree *)

Lemma punct_class (c : char) :
  is_punct c = true ->
  is_blank c = false /\ is_digit c = false /\ is_letter c = false.
Proof.
  unfold is_punct; simpl existsb; intros H.
  repeat (apply orb_true_iff in H as [H|H];
          [apply N.eqb_eq in H; subst c; repeat split; reflexivity|]).
  discriminate.
Qed.

Lemma two_char_op_first (c : char) (s : pystr) :
  ((c =? 61)%N || (c =? 33)%N || (c =? 60)%N || (c =? 62)%N) = false ->
  Lexer.two_char_op (c :: s) = None.
Proof.
  intros H; unfold Lexer.two_char_op; destruct s as [|b s]; [reflexivity|].
  rewrite H; reflexivity.
Qed.

Lemma next_punct (c : char) (s : pystr) :
  is_punct c = true -> Lexer.two_char_op (c :: s) = None ->
  Lexer.next (c :: s) = (Str [c], s).
Proof.
  intros Hc H2; destruct (punct_class c Hc) as (Hb & Hd & Hl).
  unfold Lexer.next, Lexer.ignore.
  rewrite (LexerFacts.many1_none _ _ _ Hb).
  cbn [Lexer.first_match Lexer.rules].
  rewrite H2, (LexerFacts.many1_none _ _ _ Hd), (LexerFacts.many1_none _ _ _ Hl).
  unfold Lexer.one; rewrite Hc; reflexivity.
Qed.

Lemma init_open (s : pystr) : init (40%N :: s) = mk s (Str (str "(")).
Proof.
  apply init_to, next_punct; [reflexivity|].
  apply two_char_op_first; reflexivity.
Qed.

Lemma init_close (s : pystr) : init (41%N :: s) = mk s (Str (str ")")).
Proof.
  apply init_to, next_punct; [reflexivity|].
  apply two_char_op_first; reflexivity.
Qed.

Lemma closes_closing (rest : pystr) :
  closes rest = true -> closing (tok (init rest)) = true.
Proof.
  destruct rest as [|c rest]; [reflexivity|]; simpl; intros H.
  apply N.eqb_eq in H; subst c; rewrite init_close; reflexivity.
Qed.

Lemma closes_stops (cls : char -> bool) (rest : pystr) :
  closes rest = true -> cls 41%N = false -> stops cls rest = true.
Proof.
  destruct rest as [|c rest]; [reflexivity|]; simpl; intros H Hc.
  apply N.eqb_eq in H; subst c; rewrite Hc; reflexivity.
Qed.

(** An operator in front of an opening parenthesis. *)
Lemma init_operator (s : string) (l : list string) (rest : pystr) :
  obj_in (Str (str s)) (toks l) = true ->
  incl l ["|"; "&"; "=="; "!="; "<"; "<="; ">"; ">="; "+"; "-"; "*"; "/";
          "%"; "^"; "!"; "@"; "="; "?"; ":"] ->
  init (str s ++ 40%N :: rest) = mk (40%N :: rest) (Str (str s)).
Proof.
  intros H Hl; apply obj_in_cases in H as (s' & Hin & E).
  injection E as E; rewrite E; clear E s.
  apply Hl in Hin; simpl in Hin.
  repeat destruct Hin as [<-|Hin]; try contradiction; reflexivity.
Qed.

Lemma paren_app (s rest : pystr) :
  paren s ++ rest = 40%N :: s ++ 41%N :: rest.
Proof. unfold paren; simpl; rewrite <- app_assoc; reflexivity. Qed.

Lemma str_of_Z_natural (n : Z) : 0 <= n -> str_of_Z n = str_of_N (Z.to_N n).
Proof. destruct n; [reflexivity|reflexivity|lia]. Qed.

(** *** Whole expressions, on the text *)

(** An operand between parentheses. *)
Lemma operand (a : obj) (rest : pystr) :
  round a ->
  tok (init (40%N :: unparse a ++ 41%N :: rest)) = Str (str "(")
  /\ reaches parse_factor (init (40%N :: unparse a ++ 41%N :: rest))
              (a, init rest).
Proof.
  intros Ha; rewrite init_open; split; [reflexivity|].
  change (init rest) with (advance (mk rest (Str (str ")")))).
  apply reaches_factor_paren; [reflexivity| |reflexivity].
  rewrite <- init_close; apply (Ha (41%N :: rest)); reflexivity.
Qed.

Lemma round_int (n : Z) : 0 <= n -> round (Int n).
Proof.
  intros Hn rest Hr; cbn [unparse]; rewrite str_of_Z_natural by exact Hn.
  assert (Hi : init (str_of_N (Z.to_N n) ++ rest) = mk rest (Int n)).
  { apply init_to; rewrite <- (Z2N.id n) at 2 by exact Hn.
    rewrite <- int_str_of_N; apply LexerFacts.next_int;
      auto using str_of_N_not_empty, str_of_N_digits.
    apply closes_stops; [exact Hr|reflexivity]. }
  rewrite Hi; apply (whole_atom (mk rest (Int n))); [reflexivity|].
  apply closes_closing, Hr.
Qed.

Lemma round_name (x : pystr) : isalpha x = true -> round (Str x).
Proof.
  intros Hx rest Hr; cbn [unparse].
  assert (Hi : init (x ++ rest) = mk rest (Str x)).
  { apply init_to, LexerFacts.next_name; [exact Hx|].
    apply closes_stops; [exact Hr|reflexivity]. }
  rewrite Hi; apply (whole_atom (mk rest (Str x)));
    [simpl; exact Hx|apply closes_closing, Hr].
Qed.

Section Round.

Variables (a b c : obj).
Hypothesis Ha : round a.
Hypothesis Hb : round b.
Hypothesis Hc : round c.

Lemma round_unary (s : string) :
  obj_in (Str (str s)) unary_ops = true -> round (Tuple [Str (str s); a]).
Proof.
  intros Hs rest Hr; cbn [unparse str_of_tok].
  rewrite <- app_assoc, paren_app.
  destruct (operand a rest Ha) as [Hp R].
  rewrite (init_operator s ["!"; "-"; "@"]) by (exact Hs || (intros ? ?; simpl in *; tauto)).
  apply obj_in_cases in Hs as (s' & Hin & E); rewrite E; clear E s.
  pose proof (closes_closing rest Hr) as Hq.
  simpl in Hin; destruct Hin as [<-|Hin].
  - apply whole_not; [exact Hq|reflexivity|exact Hp|exact R].
  - apply (whole_unary _ _ _ Hq); [exact Hin|reflexivity|exact Hp|exact R].
Qed.

Lemma round_binary (s : string) :
  obj_in (Str (str s)) binary_ops = true ->
  round (Tuple [Str (str s); a; b]).
Proof.
  intros Hs rest Hr; cbn [unparse str_of_tok].
  assert (Hne : is_op (Str (str s)) "=" = false).
  { pose proof Hs as H; apply obj_in_cases in H as (s' & Hin & E).
    rewrite E; simpl in Hin.
    repeat destruct Hin as [<-|Hin]; try contradiction; reflexivity. }
  rewrite Hne, <- !app_assoc, !paren_app.
  destruct (operand a (str s ++ 40%N :: unparse b ++ 41%N :: rest) Ha)
    as [Hp L].
  destruct (operand b rest Hb) as [Hp' R].
  pose proof (init_operator s _ (unparse b ++ 41%N :: rest) Hs) as Hi.
  apply (whole_binary _ (init (str s ++ 40%N :: unparse b ++ 41%N :: rest)));
    [apply closes_closing, Hr|exact Hp| |exact L| |exact Hs|].
  - rewrite Hi by (intros ? ?; simpl in *; tauto); exact Hp'.
  - rewrite Hi by (intros ? ?; simpl in *; tauto); exact R.
  - rewrite Hi by (intros ? ?; simpl in *; tauto); reflexivity.
Qed.

Lemma round_assign (x : pystr) :
  isalpha x = true -> round (Tuple [Str (str "="); Str x; b]).
Proof.
  intros Hx rest Hr; cbn [unparse str_of_tok].
  change (is_op (Str (str "=")) "=") with true; cbv iota.
  rewrite <- !app_assoc, paren_app.
  destruct (operand b rest Hb) as [Hp' R].
  set (Y := unparse b ++ 41%N :: rest) in *.
  assert (Hi : init (x ++ str "=" ++ 40%N :: Y)
               = mk (str "=" ++ 40%N :: Y) (Str x))
    by (apply init_to, LexerFacts.next_name; [exact Hx|reflexivity]).
  rewrite Hi.
  apply (whole_assign (mk (str "=" ++ 40%N :: Y) (Str x))
                      (mk (40%N :: Y) (Str (str "="))));
    [exact Hx|reflexivity|reflexivity|exact Hp'|exact R|].
  apply closes_closing, Hr.
Qed.

Lemma round_ternary : round (Tuple [Str (str "?:"); c; a; b]).
Proof.
  intros rest Hr; cbn [unparse].
  rewrite <- !app_assoc, !paren_app.
  change (str "?" ++ 40%N :: unparse a ++ 41%N :: str ":"
          ++ 40%N :: unparse b ++ 41%N :: rest)
    with (63%N :: 40%N :: unparse a ++ 41%N :: 58%N
          :: 40%N :: unparse b ++ 41%N :: rest).
  set (Yb := unparse b ++ 41%N :: rest).
  set (Ya := unparse a ++ 41%N :: 58%N :: 40%N :: Yb).
  destruct (operand c (63%N :: 40%N :: Ya) Hc) as [Hp C].
  destruct (operand a (58%N :: 40%N :: Yb) Ha) as [Hp1 A].
  destruct (operand b rest Hb) as [Hp2 B].
  fold Yb in Hp1, A, Hp2, B; fold Ya in Hp1, A.
  apply (whole_ternary _ (mk (40%N :: Ya) (Str (str "?")))
                       (mk (40%N :: Yb) (Str (str ":"))));
    [exact Hp|exact C|reflexivity|exact Hp1|exact A|reflexivity|exact Hp2
    |exact B|apply closes_closing, Hr].
Qed.

End Round.

(** Every tree of the grammar without a negative integer. *)
Fixpoint round_all (e : obj) : wf e = true -> natural e = true -> round e.
Proof.
  destruct e as [n|s|items].
  - intros _ Hn; apply round_int, Z.leb_le, Hn.
  - intros Hs _; apply round_name, Hs.
  - destruct items as [|op [|a [|b [|c [|d rest]]]]]; cbn [wf natural forallb];
      try discriminate.
    + intros H Hn; apply andb_true_iff in H as [Hop Ha].
      apply andb_true_iff in Hn as [_ Hn]; apply andb_true_iff in Hn as [Hna _].
      pose proof Hop as Hop'; apply obj_in_cases in Hop' as (s & _ & ->).
      apply round_unary; [apply round_all; assumption|exact Hop].
    + intros H Hn.
      apply andb_true_iff in Hn as [_ Hn]; apply andb_true_iff in Hn as [Hna Hn].
      apply andb_true_iff in Hn as [Hnb _].
      apply orb_true_iff in H as [H|H].
      * apply andb_true_iff in H as [H Hb]; apply andb_true_iff in H as [Hop Ha].
        apply is_op_eq in Hop; subst op.
        destruct a as [k|x|items]; try discriminate.
        apply round_assign; [apply round_all; assumption|exact Ha].
      * apply andb_true_iff in H as [H Hb]; apply andb_true_iff in H as [Hop Ha].
        pose proof Hop as Hop'; apply obj_in_cases in Hop' as (s & _ & ->).
        apply round_binary; [apply round_all; assumption
                            |apply round_all; assumption|exact Hop].
    + intros H Hn.
      apply andb_true_iff in Hn as [_ Hn]; apply andb_true_iff in Hn as [Hna Hn].
      apply andb_true_iff in Hn as [Hnb Hn]; apply andb_true_iff in Hn as [Hnc _].
      apply andb_true_iff in H as [H Hc].
      apply andb_true_iff in H as [H Hb]; apply andb_true_iff in H as [Hop Ha].
      apply is_op_eq in Hop; subst op.
      apply round_ternary; apply round_all; assumption.
Qed.

(** What [parse_assign] returns at the end of the line, [parse] returns. *)
Lemma reaches_parse (input : pystr) (e : obj) :
  reaches parse_assign (init input) (e, init []) -> parse input = Ok e.
Proof.
  intros [n H].
  set (m := Nat.max n (fuel_for input)).
  assert (E : parse_from m (init input) = Ok (e, init [])).
  { apply parse_from_end; [apply H; lia|reflexivity]. }
  pose proof (ParserTotal.parse_total input) as Ht.
  rewrite (ParserPaths.parse_eq input) in Ht |- *.
  rewrite <- (ParserPaths.parse_from_agree (fuel_for input) m (init input)).
  - rewrite E; reflexivity.
  - lia.
  - intros l El; rewrite El in Ht.
    destruct Ht as [[e' He]|[ex Hex]]; discriminate.
Qed.

(** The line of a tree parses to the tree. *)
Lemma parse_unparse (e : obj) :
  wf e = true -> natural e = true -> parse (unparse e) = Ok e.
Proof.
  intros Hwf Hn; apply reaches_parse.
  rewrite <- (app_nil_r (unparse e)) at 1.
  exact (round_all e Hwf Hn [] eq_refl).
Qed.

End ParserComplete.

(** ** Which operator takes the operand between two *)

Module ParserTable.

Import Parser ParserFacts ParserRuns ParserComplete.
Local Open Scope parser_scope.

#[local] Arguments next : simpl never.
#[local] Arguments error : simpl never.

Section Loops.

Variables (p q1 q2 q3 : t) (a b c o1 o2 : obj).

Lemma mul_once :
  reaches parse_unary p (a, q1) ->
  tok q1 = o1 -> obj_in o1 (toks ["*"; "/"; "%"]) = true ->
  reaches parse_unary (advance q1) (b, q2) ->
  obj_in (tok q2) (toks ["*"; "/"; "%"]) = false ->
  reaches parse_mul p (Tuple [o1; a; b], q2).
Proof. intros L <- Ho R H2; apply node_mul; assumption. Qed.

Lemma add_once :
  reaches parse_mul p (a, q1) ->
  tok q1 = o1 -> obj_in o1 (toks ["+"; "-"]) = true ->
  reaches parse_mul (advance q1) (b, q2) ->
  obj_in (tok q2) (toks ["+"; "-"]) = false ->
  reaches parse_add p (Tuple [o1; a; b], q2).
Proof. intros L <- Ho R H2; apply node_add; assumption. Qed.

Lemma compare_once :
  reaches parse_add p (a, q1) ->
  tok q1 = o1 ->
  obj_in o1 (toks ["=="; "!="; "<"; "<="; ">"; ">="]) = true ->
  reaches parse_add (advance q1) (b, q2) ->
  obj_in (tok q2) (toks ["=="; "!="; "<"; "<="; ">"; ">="]) = false ->
  reaches parse_compare p (Tuple [o1; a; b], q2).
Proof. intros L <- Ho R H2; apply node_compare; assumption. Qed.

Lemma mul_twice :
  reaches parse_unary p (a, q1) ->
  tok q1 = o1 -> obj_in o1 (toks ["*"; "/"; "%"]) = true ->
  reaches parse_unary (advance q1) (b, q2) ->
  tok q2 = o2 -> obj_in o2 (toks ["*"; "/"; "%"]) = true ->
  reaches parse_unary (advance q2) (c, q3) ->
  obj_in (tok q3) (toks ["*"; "/"; "%"]) = false ->
  reaches parse_mul p (Tuple [o2; Tuple [o1; a; b]; c], q3).
Proof.
  intros [n1 H1] <- Ho1 [n2 H2] <- Ho2 [n3 H3] Hq3.
  exists (4 + n1 + n2 + n3)%nat; intros [|[|[|[|m]]]] Hm; try lia.
  rewrite parse_mul_eq; unfold bind at 1; rewrite (H1 (S (S (S m)))) by lia.
  rewrite mul_loop_eq; unfold bind, tok_in, get_tok.
  rewrite Ho1, next_advance, (H2 (S (S m))) by lia.
  rewrite mul_loop_eq; unfold bind, tok_in, get_tok.
  rewrite Ho2, next_advance, (H3 (S m)) by lia.
  rewrite mul_loop_eq; unfold bind, tok_in; rewrite Hq3; reflexivity.
Qed.

Lemma add_twice :
  reaches parse_mul p (a, q1) ->
  tok q1 = o1 -> obj_in o1 (toks ["+"; "-"]) = true ->
  reaches parse_mul (advance q1) (b, q2) ->
  tok q2 = o2 -> obj_in o2 (toks ["+"; "-"]) = true ->
  reaches parse_mul (advance q2) (c, q3) ->
  obj_in (tok q3) (toks ["+"; "-"]) = false ->
  reaches parse_add p (Tuple [o2; Tuple [o1; a; b]; c], q3).
Proof.
  intros [n1 H1] <- Ho1 [n2 H2] <- Ho2 [n3 H3] Hq3.
  exists (4 + n1 + n2 + n3)%nat; intros [|[|[|[|m]]]] Hm; try lia.
  rewrite parse_add_eq; unfold bind at 1; rewrite (H1 (S (S (S m)))) by lia.
  rewrite add_loop_eq; unfold bind, tok_in, get_tok.
  rewrite Ho1, next_advance, (H2 (S (S m))) by lia.
  rewrite add_loop_eq; unfold bind, tok_in, get_tok.
  rewrite Ho2, next_advance, (H3 (S m)) by lia.
  rewrite add_loop_eq; unfold bind, tok_in; rewrite Hq3; reflexivity.
Qed.

Lemma compare_twice :
  reaches parse_add p (a, q1) ->
  tok q1 = o1 ->
  obj_in o1 (toks ["=="; "!="; "<"; "<="; ">"; ">="]) = true ->
  reaches parse_add (advance q1) (b, q2) ->
  tok q2 = o2 ->
  obj_in o2 (toks ["=="; "!="; "<"; "<="; ">"; ">="]) = true ->
  reaches parse_add (advance q2) (c, q3) ->
  obj_in (tok q3) (toks ["=="; "!="; "<"; "<="; ">"; ">="]) = false ->
  reaches parse_compare p (Tuple [o2; Tuple [o1; a; b]; c], q3).
Proof.
  intros [n1 H1] <- Ho1 [n2 H2] <- Ho2 [n3 H3] Hq3.
  exists (4 + n1 + n2 + n3)%nat; intros [|[|[|[|m]]]] Hm; try lia.
  rewrite parse_compare_eq; unfold bind at 1;
    rewrite (H1 (S (S (S m)))) by lia.
  rewrite compare_loop_eq; unfold bind, tok_in, get_tok.
  rewrite Ho1, next_advance, (H2 (S (S m))) by lia.
  rewrite compare_loop_eq; unfold bind, tok_in, get_tok.
  rewrite Ho2, next_advance, (H3 (S m)) by lia.
  rewrite compare_loop_eq; unfold bind, tok_in; rewrite Hq3; reflexivity.
Qed.

End Loops.

Lemma unary_node (p q : t) (a o : obj) :
  tok p = o -> obj_in o (toks ["-"; "@"]) = true ->
  reaches parse_unary (advance p) (a, q) ->
  reaches parse_unary p (Tuple [o; a], q).
Proof. intros <- Ho R; apply node_unary; assumption. Qed.

(** The side conditions: a token is, or is not, an operator. *)
Ltac token_fact :=
  first [ eassumption
        | reflexivity
        | cbn [is_name];
          repeat match goal with
                 | H : tok _ = _ |- _ => rewrite H
                 end;
          rewrite ?andb_false_r; reflexivity ].

(** The run of the parser that makes a given tree, level by level: the node
    of the level if the tree is one, the next level if not. *)
Ltac build :=
  lazymatch goal with
  | |- reaches parse_factor _ _ => eassumption
  | |- reaches parse_pow _ _ =>
      first [ eapply node_pow; [build|token_fact|build]
            | eapply reaches_pow; [build|token_fact] ]
  | |- reaches parse_unary _ _ =>
      first [ eapply unary_node; [token_fact|token_fact|build]
            | eapply reaches_unary; [build|token_fact] ]
  | |- reaches parse_mul _ _ =>
      first [ eapply mul_twice;
              [build|token_fact|token_fact|build|token_fact|token_fact
              |build|token_fact]
            | eapply mul_once; [build|token_fact|token_fact|build|token_fact]
            | eapply reaches_mul; [build|token_fact] ]
  | |- reaches parse_add _ _ =>
      first [ eapply add_twice;
              [build|token_fact|token_fact|build|token_fact|token_fact
              |build|token_fact]
            | eapply add_once; [build|token_fact|token_fact|build|token_fact]
            | eapply reaches_add; [build|token_fact] ]
  | |- reaches parse_compare _ _ =>
      first [ eapply compare_twice;
              [build|token_fact|token_fact|build|token_fact|token_fact
              |build|token_fact]
            | eapply compare_once;
              [build|token_fact|token_fact|build|token_fact]
            | eapply reaches_compare; [build|token_fact] ]
  | |- reaches parse_not _ _ =>
      first [ eapply node_not; [token_fact|build]
            | eapply reaches_not; [build|token_fact] ]
  | |- reaches parse_and _ _ =>
      first [ eapply node_and; [build|token_fact|build]
            | eapply reaches_and; [build|token_fact] ]
  | |- reaches parse_or _ _ =>
      first [ eapply node_or; [build|token_fact|build]
            | eapply reaches_or; [build|token_fact] ]
  | |- reaches parse_ternary _ _ =>
      eapply reaches_ternary; [build|token_fact]
  | |- reaches parse_assign _ _ =>
      eapply reaches_assign; [build|token_fact]
  end.

Section Table.

Variables (p q1 q2 q3 : t) (a b c : obj).

Hypothesis Hp : tok p = Str (str "(").
Hypothesis Hp1 : tok (advance q1) = Str (str "(").
Hypothesis Hp2 : tok (advance q2) = Str (str "(").
Hypothesis A : reaches parse_factor p (a, q1).
Hypothesis B : reaches parse_factor (advance q1) (b, q2).
Hypothesis C : reaches parse_factor (advance q2) (c, q3).
Hypothesis Hq3 : closing (tok q3) = true.

Lemma table (s1 s2 : string) :
  obj_in (Str (str s1)) binary_ops = true ->
  obj_in (Str (str s2)) binary_ops = true ->
  tok q1 = Str (str s1) -> tok q2 = Str (str s2) ->
  reaches parse_assign p (grouped s1 s2 a b c, q3).
Proof.
  intros H1 H2 Hq1 Hq2.
  apply obj_in_cases in H1 as (s1' & Hin1 & E1).
  apply obj_in_cases in H2 as (s2' & Hin2 & E2).
  injection E1 as E1; injection E2 as E2.
  apply str_inj in E1, E2; subst s1' s2'.
  destruct (closing_cases _ Hq3) as [Hc|Hc]; clear Hq3;
    simpl in Hin1, Hin2.
  all: repeat destruct Hin1 as [<-|Hin1]; try contradiction.
  all: repeat destruct Hin2 as [<-|Hin2]; try contradiction.
  all: cbv [grouped level right_assoc existsb String.eqb Ascii.eqb
                 Bool.eqb Nat.ltb Nat.leb Nat.eqb orb andb].
  all: build.
Qed.

End Table.

Lemma table_prefix (p q1 q2 : t) (a b : obj) (u s : string) :
  obj_in (Str (str u)) unary_ops = true ->
  obj_in (Str (str s)) binary_ops = true ->
  tok p = Str (str u) -> tok (advance p) = Str (str "(") ->
  reaches parse_factor (advance p) (a, q1) -> tok q1 = Str (str s) ->
  tok (advance q1) = Str (str "(") ->
  reaches parse_factor (advance q1) (b, q2) ->
  closing (tok q2) = true ->
  reaches parse_assign p (grouped_prefix u s a b, q2).
Proof.
  intros H1 H2 Hp Hp1 A Hq1 Hp2 B Hq2.
  apply obj_in_cases in H1 as (u' & Hin1 & E1).
  apply obj_in_cases in H2 as (s' & Hin2 & E2).
  injection E1 as E1; injection E2 as E2.
  apply str_inj in E1, E2; subst u' s'.
  destruct (closing_cases _ Hq2) as [Hc|Hc]; clear Hq2;
    simpl in Hin1, Hin2.
  all: repeat destruct Hin1 as [<-|Hin1]; try contradiction.
  all: repeat destruct Hin2 as [<-|Hin2]; try contradiction.
  all: cbv [grouped_prefix prefix_level level existsb String.eqb Ascii.eqb
            Bool.eqb Nat.leb orb andb].
  all: build.
Qed.

(** *** An operand that is missing *)

Section Failures.

Variables (p : t) (ex : exn).

Lemma fails_factor :
  is_int (tok p) = false -> is_name (tok p) = false ->
  obj_eqb (tok p) (Str (str "(")) = false ->
  fails parse_factor p
        (ParseError (error_text "expected int, variable, or '('" (tok p))).
Proof.
  intros Hi Hn Hl; exists 1%nat; intros [|m] Hm; [lia|].
  apply ParserPaths.factor_fails; assumption.
Qed.

Lemma fails_pow : fails parse_factor p ex -> fails parse_pow p ex.
Proof.
  intros [n H]; exists (S n); intros [|m] Hm; [lia|].
  rewrite parse_pow_eq; apply ParserPaths.bind_raise, H; lia.
Qed.

Lemma fails_unary :
  fails parse_pow p ex -> obj_in (tok p) (toks ["-"; "@"]) = false ->
  fails parse_unary p ex.
Proof.
  intros [n H] Hp; exists (S n); intros [|m] Hm; [lia|].
  rewrite unary_level by exact Hp; apply H; lia.
Qed.

Lemma fails_mul : fails parse_unary p ex -> fails parse_mul p ex.
Proof.
  intros [n H]; exists (S n); intros [|m] Hm; [lia|].
  rewrite parse_mul_eq; apply ParserPaths.bind_raise, H; lia.
Qed.

Lemma fails_add : fails parse_mul p ex -> fails parse_add p ex.
Proof.
  intros [n H]; exists (S n); intros [|m] Hm; [lia|].
  rewrite parse_add_eq; apply ParserPaths.bind_raise, H; lia.
Qed.

Lemma fails_compare : fails parse_add p ex -> fails parse_compare p ex.
Proof.
  intros [n H]; exists (S n); intros [|m] Hm; [lia|].
  rewrite parse_compare_eq; apply ParserPaths.bind_raise, H; lia.
Qed.

Lemma fails_not :
  fails parse_compare p ex -> obj_eqb (tok p) (Str (str "!")) = false ->
  fails parse_not p ex.
Proof.
  intros [n H] Hp; exists (S n); intros [|m] Hm; [lia|].
  rewrite not_level by exact Hp; apply H; lia.
Qed.

Lemma fails_and : fails parse_not p ex -> fails parse_and p ex.
Proof.
  intros [n H]; exists (S n); intros [|m] Hm; [lia|].
  rewrite parse_and_eq; apply ParserPaths.bind_raise, H; lia.
Qed.

Lemma fails_or : fails parse_and p ex -> fails parse_or p ex.
Proof.
  intros [n H]; exists (S n); intros [|m] Hm; [lia|].
  rewrite parse_or_eq; apply ParserPaths.bind_raise, H; lia.
Qed.

Lemma fails_ternary : fails parse_or p ex -> fails parse_ternary p ex.
Proof.
  intros [n H]; exists (S n); intros [|m] Hm; [lia|].
  rewrite parse_ternary_eq; apply ParserPaths.bind_raise, H; lia.
Qed.

Lemma fails_assign : fails parse_ternary p ex -> fails parse_assign p ex.
Proof.
  intros [n H]; exists (S n); intros [|m] Hm; [lia|].
  rewrite parse_assign_eq; apply ParserPaths.bind_raise, H; lia.
Qed.

Variables (q : t) (a : obj).

Lemma pow_right_fails :
  reaches parse_factor p (a, q) -> tok q = Str (str "^") ->
  fails parse_pow (advance q) ex -> fails parse_pow p ex.
Proof.
  intros [n1 H1] Hq [n2 H2]; exists (S (n1 + n2)); intros [|m] Hm; [lia|].
  rewrite parse_pow_eq; unfold bind, tok_is.
  rewrite (H1 m) by lia; cbv beta iota; rewrite Hq.
  change (obj_eqb (Str (str "^")) (Str (str "^"))) with true; cbv beta iota.
  rewrite next_advance, (H2 m) by lia; reflexivity.
Qed.

Lemma mul_right_fails :
  reaches parse_unary p (a, q) ->
  obj_in (tok q) (toks ["*"; "/"; "%"]) = true ->
  fails parse_unary (advance q) ex -> fails parse_mul p ex.
Proof.
  intros [n1 H1] Hq [n2 H2]; exists (2 + n1 + n2)%nat.
  intros [|[|m]] Hm; try lia.
  rewrite parse_mul_eq; unfold bind at 1; rewrite (H1 (S m)) by lia.
  rewrite mul_loop_eq; unfold bind, tok_in, get_tok.
  rewrite Hq, next_advance, (H2 m) by lia; reflexivity.
Qed.

Lemma add_right_fails :
  reaches parse_mul p (a, q) ->
  obj_in (tok q) (toks ["+"; "-"]) = true ->
  fails parse_mul (advance q) ex -> fails parse_add p ex.
Proof.
  intros [n1 H1] Hq [n2 H2]; exists (2 + n1 + n2)%nat.
  intros [|[|m]] Hm; try lia.
  rewrite parse_add_eq; unfold bind at 1; rewrite (H1 (S m)) by lia.
  rewrite add_loop_eq; unfold bind, tok_in, get_tok.
  rewrite Hq, next_advance, (H2 m) by lia; reflexivity.
Qed.

Lemma compare_right_fails :
  reaches parse_add p (a, q) ->
  obj_in (tok q) (toks ["=="; "!="; "<"; "<="; ">"; ">="]) = true ->
  fails parse_add (advance q) ex -> fails parse_compare p ex.
Proof.
  intros [n1 H1] Hq [n2 H2]; exists (2 + n1 + n2)%nat.
  intros [|[|m]] Hm; try lia.
  rewrite parse_compare_eq; unfold bind at 1; rewrite (H1 (S m)) by lia.
  rewrite compare_loop_eq; unfold bind, tok_in, get_tok.
  rewrite Hq, next_advance, (H2 m) by lia; reflexivity.
Qed.

End Failures.

(** What [parse_assign] raises, [parse] raises. *)
Lemma fails_parse (input : pystr) (ex : exn) :
  fails parse_assign (init input) ex -> parse input = Raise ex.
Proof.
  intros [n H].
  set (m := Nat.max n (fuel_for input)).
  assert (E : parse_from m (init input) = Raise ex).
  { unfold parse_from; apply ParserPaths.bind_raise, H; lia. }
  pose proof (ParserTotal.parse_total input) as Ht.
  rewrite (ParserPaths.parse_eq input) in Ht |- *.
  rewrite <- (ParserPaths.parse_from_agree (fuel_for input) m (init input)).
  - rewrite E; reflexivity.
  - lia.
  - intros l El; rewrite El in Ht.
    destruct Ht as [[e' He]|[ex' Hex]]; discriminate.
Qed.

(** The run of the parser that raises, level by level. *)
Ltac break :=
  lazymatch goal with
  | |- fails parse_factor _ _ =>
      eapply fails_factor; token_fact
  | |- fails parse_pow _ _ =>
      first [ eapply pow_right_fails; [build|token_fact|break]
            | eapply fails_pow; break ]
  | |- fails parse_unary _ _ =>
      eapply fails_unary; [break|token_fact]
  | |- fails parse_mul _ _ =>
      first [ eapply mul_right_fails; [build|token_fact|break]
            | eapply fails_mul; break ]
  | |- fails parse_add _ _ =>
      first [ eapply add_right_fails; [build|token_fact|break]
            | eapply fails_add; break ]
  | |- fails parse_compare _ _ =>
      first [ eapply compare_right_fails; [build|token_fact|break]
            | eapply fails_compare; break ]
  | |- fails parse_not _ _ =>
      eapply fails_not; [break|token_fact]
  | |- fails parse_and _ _ => eapply fails_and; break
  | |- fails parse_or _ _ => eapply fails_or; break
  | |- fails parse_ternary _ _ => eapply fails_ternary; break
  | |- fails parse_assign _ _ => eapply fails_assign; break
  end.

Lemma table_right (p q1 q2 : t) (a b : obj) (s u : string) :
  obj_in (Str (str s)) binary_ops = true ->
  obj_in (Str (str u)) unary_ops = true ->
  tok p = Str (str "(") -> reaches parse_factor p (a, q1) ->
  tok q1 = Str (str s) -> tok (advance q1) = Str (str u) ->
  tok (advance (advance q1)) = Str (str "(") ->
  reaches parse_factor (advance (advance q1)) (b, q2) ->
  closing (tok q2) = true ->
  match right_prefix s u a b with
  | Ok e => reaches parse_assign p (e, q2)
  | Raise ex => fails parse_assign p ex
  | Beyond _ => False
  end.
Proof.
  intros H1 H2 Hp A Hq1 Hu Hp2 B Hq2.
  apply obj_in_cases in H1 as (s' & Hin1 & E1).
  apply obj_in_cases in H2 as (u' & Hin2 & E2).
  injection E1 as E1; injection E2 as E2.
  apply str_inj in E1, E2; subst u' s'.
  destruct (closing_cases _ Hq2) as [Hc|Hc]; clear Hq2;
    simpl in Hin1, Hin2.
  all: repeat destruct Hin1 as [<-|Hin1]; try contradiction.
  all: repeat destruct Hin2 as [<-|Hin2]; try contradiction.
  all: cbv [right_prefix prefix_level level existsb String.eqb Ascii.eqb
            Bool.eqb Nat.ltb Nat.leb orb andb].
  all: first [build | rewrite <- Hu; break].
Qed.

(** *** On the text *)

Section Text.

Variables (a b c : obj).
Hypothesis Ha : round a.
Hypothesis Hb : round b.
Hypothesis Hc : round c.

Lemma operators_incl (l : list string) :
  forallb (fun s => existsb (String.eqb s)
                      ["|"; "&"; "=="; "!="; "<"; "<="; ">"; ">="; "+"; "-";
                       "*"; "/"; "%"; "^"; "!"; "@"; "="; "?"; ":"]) l = true ->
  incl l ["|"; "&"; "=="; "!="; "<"; "<="; ">"; ">="; "+"; "-"; "*"; "/";
          "%"; "^"; "!"; "@"; "="; "?"; ":"].
Proof.
  intros H s Hs; rewrite forallb_forall in H; specialize (H s Hs).
  apply existsb_exists in H as (s' & Hin & E).
  apply String.eqb_eq in E; subst s'; exact Hin.
Qed.

Lemma parse_two_operators (s1 s2 : string) :
  obj_in (Str (str s1)) binary_ops = true ->
  obj_in (Str (str s2)) binary_ops = true ->
  parse (paren (unparse a) ++ str s1 ++ paren (unparse b) ++ str s2
         ++ paren (unparse c))
  = Ok (grouped s1 s2 a b c).
Proof.
  intros H1 H2; apply reaches_parse.
  rewrite <- (app_nil_r (paren (unparse c))), !paren_app.
  set (T2 := 40%N :: unparse c ++ [41%N]).
  set (T1 := 40%N :: unparse b ++ 41%N :: str s2 ++ T2).
  destruct (operand a (str s1 ++ T1) Ha) as [Hp A].
  destruct (operand b (str s2 ++ T2) Hb) as [Hp1 B].
  destruct (operand c [] Hc) as [Hp2 C].
  fold T2 in Hp1, B, Hp2, C; fold T1 in Hp1, B.
  assert (E1 : init (str s1 ++ T1) = mk T1 (Str (str s1)))
    by (apply (init_operator s1 _ _ H1), operators_incl; reflexivity).
  assert (E2 : init (str s2 ++ T2) = mk T2 (Str (str s2)))
    by (apply (init_operator s2 _ _ H2), operators_incl; reflexivity).
  rewrite E1 in A; rewrite E2 in B.
  apply (table _ (mk T1 (Str (str s1))) (mk T2 (Str (str s2))));
    try assumption; reflexivity.
Qed.

Lemma parse_prefix_operator (u s : string) :
  obj_in (Str (str u)) unary_ops = true ->
  obj_in (Str (str s)) binary_ops = true ->
  parse (str u ++ paren (unparse a) ++ str s ++ paren (unparse b))
  = Ok (grouped_prefix u s a b).
Proof.
  intros H1 H2; apply reaches_parse.
  rewrite <- (app_nil_r (paren (unparse b))), !paren_app.
  set (T2 := 40%N :: unparse b ++ [41%N]).
  set (T1 := 40%N :: unparse a ++ 41%N :: str s ++ T2).
  destruct (operand a (str s ++ T2) Ha) as [Hp1 A].
  destruct (operand b [] Hb) as [Hp2 B].
  fold T2 in Hp1, A, Hp2, B; fold T1 in Hp1, A.
  assert (E1 : init (str u ++ T1) = mk T1 (Str (str u)))
    by (apply (init_operator u _ _ H1), operators_incl; reflexivity).
  assert (E2 : init (str s ++ T2) = mk T2 (Str (str s)))
    by (apply (init_operator s _ _ H2), operators_incl; reflexivity).
  change (reaches parse_assign (init (str u ++ T1))
                  (grouped_prefix u s a b, init [])).
  rewrite E1; rewrite E2 in A.
  apply (table_prefix _ (mk T2 (Str (str s)))); try assumption; reflexivity.
Qed.

Lemma parse_right_prefix (s u : string) :
  obj_in (Str (str s)) binary_ops = true ->
  obj_in (Str (str u)) unary_ops = true ->
  parse (paren (unparse a) ++ str s ++ str u ++ paren (unparse b))
  = right_prefix s u a b.
Proof.
  intros H1 H2.
  rewrite <- (app_nil_r (paren (unparse b))), !paren_app.
  set (T2 := 40%N :: unparse b ++ [41%N]).
  destruct (operand a (str s ++ str u ++ T2) Ha) as [Hp A].
  destruct (operand b [] Hb) as [Hp2 B].
  fold T2 in Hp2, B.
  assert (E : init (str s ++ str u ++ T2) = mk (str u ++ T2) (Str (str s))
              /\ init (str u ++ T2) = mk T2 (Str (str u))).
  { pose proof H1 as H1'; pose proof H2 as H2'.
    apply obj_in_cases in H1' as (s' & Hin1 & E1).
    apply obj_in_cases in H2' as (u' & Hin2 & E2).
    injection E1 as E1; injection E2 as E2; rewrite E1, E2.
    simpl in Hin1, Hin2.
    repeat destruct Hin1 as [<-|Hin1]; try contradiction;
      repeat destruct Hin2 as [<-|Hin2]; try contradiction;
      split; reflexivity. }
  destruct E as [E1 E2]; rewrite E1 in A.
  pose proof (table_right _ (mk (str u ++ T2) (Str (str s))) (init [])
                a b s u H1 H2 Hp A eq_refl) as H.
  change (advance (mk (str u ++ T2) (Str (str s))))
    with (init (str u ++ T2)) in H.
  rewrite E2 in H; specialize (H eq_refl Hp2 B eq_refl).
  destruct (right_prefix s u a b) as [e|ex|l];
    [apply reaches_parse|apply fails_parse|contradiction]; exact H.
Qed.

End Text.

End ParserTable.

(** ** Sums and products of numerals *)

Module ParserPrecedence.

Import Parser ParserFacts ParserRuns ParserComplete ParserTable.
Local Open Scope parser_scope.

#[local] Arguments next : simpl never.
#[local] Arguments error : simpl never.

Lemma no_prefix (x : obj) :
  prefix_op x = false ->
  obj_in x (toks ["-"; "@"]) = false /\ obj_eqb x (Str (str "!")) = false.
Proof.
  unfold prefix_op, obj_in, toks; cbn [map existsb]; intros H.
  apply orb_false_iff in H as [H1 H]; rewrite H; auto.
Qed.

Section Operators.

Variables (p q1 q2 q3 : t) (a b c : obj).

Hypothesis Hp : prefix_op (tok p) = false.
Hypothesis Hp1 : prefix_op (tok (advance q1)) = false.
Hypothesis Hp2 : prefix_op (tok (advance q2)) = false.
Hypothesis A : reaches parse_factor p (a, q1).
Hypothesis B : reaches parse_factor (advance q1) (b, q2).

Lemma one_operator (s : string) :
  obj_in (Str (str s)) (toks ["+"; "-"; "*"; "/"; "%"]) = true ->
  tok q1 = Str (str s) -> closing (tok q2) = true ->
  reaches parse_assign p (Tuple [Str (str s); a; b], q2).
Proof.
  intros H Hq1 Hq2.
  destruct (no_prefix _ Hp) as [Hu Hn], (no_prefix _ Hp1) as [Hu1 Hn1].
  apply obj_in_cases in H as (s' & Hin & E).
  injection E as E; apply str_inj in E; subst s'.
  destruct (closing_cases _ Hq2) as [Hc|Hc]; clear Hq2; simpl in Hin.
  all: repeat destruct Hin as [<-|Hin]; try contradiction.
  all: build.
Qed.

Hypothesis C : reaches parse_factor (advance q2) (c, q3).
Hypothesis Hq3 : closing (tok q3) = true.

(** [a + b * c]: the product is the right operand of the sum. *)
Lemma sum_of_product (s1 s2 : string) :
  obj_in (Str (str s1)) (toks ["+"; "-"]) = true ->
  obj_in (Str (str s2)) (toks ["*"; "/"; "%"]) = true ->
  tok q1 = Str (str s1) -> tok q2 = Str (str s2) ->
  reaches parse_assign p
          (Tuple [Str (str s1); a; Tuple [Str (str s2); b; c]], q3).
Proof.
  intros H1 H2 Hq1 Hq2.
  destruct (no_prefix _ Hp) as [Hu Hn], (no_prefix _ Hp1) as [Hu1 Hn1],
           (no_prefix _ Hp2) as [Hu2 Hn2].
  apply obj_in_cases in H1 as (s1' & Hin1 & E1).
  apply obj_in_cases in H2 as (s2' & Hin2 & E2).
  injection E1 as E1; injection E2 as E2.
  apply str_inj in E1, E2; subst s1' s2'.
  destruct (closing_cases _ Hq3) as [Hc|Hc]; clear Hq3;
    simpl in Hin1, Hin2.
  all: repeat destruct Hin1 as [<-|Hin1]; try contradiction.
  all: repeat destruct Hin2 as [<-|Hin2]; try contradiction.
  all: build.
Qed.

(** [a * b + c]: the product is the left operand of the sum. *)
Lemma product_then_sum (s1 s2 : string) :
  obj_in (Str (str s1)) (toks ["+"; "-"]) = true ->
  obj_in (Str (str s2)) (toks ["*"; "/"; "%"]) = true ->
  tok q1 = Str (str s2) -> tok q2 = Str (str s1) ->
  reaches parse_assign p
          (Tuple [Str (str s1); Tuple [Str (str s2); a; b]; c], q3).
Proof.
  intros H1 H2 Hq1 Hq2.
  destruct (no_prefix _ Hp) as [Hu Hn], (no_prefix _ Hp1) as [Hu1 Hn1],
           (no_prefix _ Hp2) as [Hu2 Hn2].
  apply obj_in_cases in H1 as (s1' & Hin1 & E1).
  apply obj_in_cases in H2 as (s2' & Hin2 & E2).
  injection E1 as E1; injection E2 as E2.
  apply str_inj in E1, E2; subst s1' s2'.
  destruct (closing_cases _ Hq3) as [Hc|Hc]; clear Hq3;
    simpl in Hin1, Hin2.
  all: repeat destruct Hin1 as [<-|Hin1]; try contradiction.
  all: repeat destruct Hin2 as [<-|Hin2]; try contradiction.
  all: build.
Qed.

End Operators.

(** *** The lexer on a line of numerals and operators *)

Lemma infix_text (l : pystr) (s : string) (r rest : pystr) :
  infix l s r ++ rest = l ++ 32%N :: str s ++ 32%N :: r ++ rest.
Proof.
  unfold infix; rewrite <- !app_assoc; cbn [str app]; reflexivity.
Qed.

Lemma init_numeral (n : N) (rest : pystr) :
  stops is_digit rest = true ->
  init (str_of_N n ++ rest) = mk rest (Int (Z.of_N n)).
Proof.
  intros Hr; apply init_to; rewrite <- (int_str_of_N n).
  apply LexerFacts.next_int; auto using str_of_N_not_empty, str_of_N_digits.
Qed.

Lemma init_blank (rest : pystr) : init (32%N :: rest) = init rest.
Proof.
  unfold init, Lexer.init; rewrite LexerFacts.next_blank by reflexivity.
  reflexivity.
Qed.

Lemma init_operator_blank (s : string) (rest : pystr) :
  obj_in (Str (str s)) (toks ["+"; "-"; "*"; "/"; "%"]) = true ->
  init (32%N :: str s ++ 32%N :: rest) = mk (32%N :: rest) (Str (str s)).
Proof.
  intros H; apply obj_in_cases in H as (s' & Hin & E).
  injection E as E; rewrite E; clear E s; simpl in Hin.
  repeat destruct Hin as [<-|Hin]; try contradiction; reflexivity.
Qed.

Lemma operators_among (s : string) (l : list string) :
  obj_in (Str (str s)) (toks l) = true ->
  forallb (fun s' => obj_in (Str (str s'))
                            (toks ["+"; "-"; "*"; "/"; "%"])) l = true ->
  obj_in (Str (str s)) (toks ["+"; "-"; "*"; "/"; "%"]) = true.
Proof.
  intros H Hl; apply obj_in_cases in H as (s' & Hin & E); rewrite E.
  rewrite forallb_forall in Hl; exact (Hl s' Hin).
Qed.

(** *** The lines *)

Section Lines.

Variables (m n k : N) (s1 s2 : string).
Hypothesis H1 : obj_in (Str (str s1)) (toks ["+"; "-"]) = true.
Hypothesis H2 : obj_in (Str (str s2)) (toks ["*"; "/"; "%"]) = true.

Lemma parse_sum_of_product :
  parse (infix (str_of_N m) s1 (infix (str_of_N n) s2 (str_of_N k)))
  = Ok (Tuple [Str (str s1); Int (Z.of_N m);
               Tuple [Str (str s2); Int (Z.of_N n); Int (Z.of_N k)]]).
Proof.
  pose proof (operators_among s1 _ H1 eq_refl) as O1.
  pose proof (operators_among s2 _ H2 eq_refl) as O2.
  apply reaches_parse.
  rewrite <- (app_nil_r (infix _ s1 _)), infix_text, infix_text, app_nil_r.
  set (T4 := 32%N :: str_of_N k).
  set (T3 := 32%N :: str s2 ++ T4).
  set (T2 := 32%N :: str_of_N n ++ T3).
  set (T1 := 32%N :: str s1 ++ T2).
  assert (E0 : init (str_of_N m ++ T1) = mk T1 (Int (Z.of_N m)))
    by (apply init_numeral; reflexivity).
  assert (E1 : init T1 = mk T2 (Str (str s1)))
    by (apply init_operator_blank, O1).
  assert (E2 : init T2 = mk T3 (Int (Z.of_N n)))
    by (unfold T2; rewrite init_blank; apply init_numeral; reflexivity).
  assert (E3 : init T3 = mk T4 (Str (str s2)))
    by (apply init_operator_blank, O2).
  assert (E4 : init T4 = mk [] (Int (Z.of_N k))).
  { unfold T4; rewrite init_blank, <- (app_nil_r (str_of_N k)).
    apply init_numeral; reflexivity. }
  rewrite E0.
  apply (sum_of_product (mk T1 (Int (Z.of_N m))) (mk T2 (Str (str s1)))
                        (mk T4 (Str (str s2))) (init [])
                        (Int (Z.of_N m)) (Int (Z.of_N n)) (Int (Z.of_N k)));
    try assumption; try reflexivity.
  - change (advance (mk T2 (Str (str s1)))) with (init T2).
    rewrite E2; reflexivity.
  - change (advance (mk T4 (Str (str s2)))) with (init T4).
    rewrite E4; reflexivity.
  - rewrite <- E1.
    exact (reaches_factor_atom (mk T1 (Int (Z.of_N m))) eq_refl).
  - change (advance (mk T2 (Str (str s1)))) with (init T2).
    rewrite E2, <- E3.
    exact (reaches_factor_atom (mk T3 (Int (Z.of_N n))) eq_refl).
  - change (advance (mk T4 (Str (str s2)))) with (init T4).
    rewrite E4.
    exact (reaches_factor_atom (mk [] (Int (Z.of_N k))) eq_refl).
Qed.

Lemma parse_product_then_sum :
  parse (infix (str_of_N m) s2 (infix (str_of_N n) s1 (str_of_N k)))
  = Ok (Tuple [Str (str s1);
               Tuple [Str (str s2); Int (Z.of_N m); Int (Z.of_N n)];
               Int (Z.of_N k)]).
Proof.
  pose proof (operators_among s1 _ H1 eq_refl) as O1.
  pose proof (operators_among s2 _ H2 eq_refl) as O2.
  apply reaches_parse.
  rewrite <- (app_nil_r (infix _ s2 _)), infix_text, infix_text, app_nil_r.
  set (T4 := 32%N :: str_of_N k).
  set (T3 := 32%N :: str s1 ++ T4).
  set (T2 := 32%N :: str_of_N n ++ T3).
  set (T1 := 32%N :: str s2 ++ T2).
  assert (E0 : init (str_of_N m ++ T1) = mk T1 (Int (Z.of_N m)))
    by (apply init_numeral; reflexivity).
  assert (E1 : init T1 = mk T2 (Str (str s2)))
    by (apply init_operator_blank, O2).
  assert (E2 : init T2 = mk T3 (Int (Z.of_N n)))
    by (unfold T2; rewrite init_blank; apply init_numeral; reflexivity).
  assert (E3 : init T3 = mk T4 (Str (str s1)))
    by (apply init_operator_blank, O1).
  assert (E4 : init T4 = mk [] (Int (Z.of_N k))).
  { unfold T4; rewrite init_blank, <- (app_nil_r (str_of_N k)).
    apply init_numeral; reflexivity. }
  rewrite E0.
  apply (product_then_sum (mk T1 (Int (Z.of_N m))) (mk T2 (Str (str s2)))
                          (mk T4 (Str (str s1))) (init [])
                          (Int (Z.of_N m)) (Int (Z.of_N n)) (Int (Z.of_N k))
                          eq_refl);
    try assumption; try reflexivity.
  - change (advance (mk T2 (Str (str s2)))) with (init T2).
    rewrite E2; reflexivity.
  - change (advance (mk T4 (Str (str s1)))) with (init T4).
    rewrite E4; reflexivity.
  - rewrite <- E1.
    exact (reaches_factor_atom (mk T1 (Int (Z.of_N m))) eq_refl).
  - change (advance (mk T2 (Str (str s2)))) with (init T2).
    rewrite E2, <- E3.
    exact (reaches_factor_atom (mk T3 (Int (Z.of_N n))) eq_refl).
  - change (advance (mk T4 (Str (str s1)))) with (init T4).
    rewrite E4.
    exact (reaches_factor_atom (mk [] (Int (Z.of_N k))) eq_refl).
Qed.

(** Parentheses around the sum make it the left operand of the product. *)
Lemma parse_product_of_sum :
  parse (infix (paren (infix (str_of_N m) s1 (str_of_N n))) s2 (str_of_N k))
  = Ok (Tuple [Str (str s2);
               Tuple [Str (str s1); Int (Z.of_N m); Int (Z.of_N n)];
               Int (Z.of_N k)]).
Proof.
  pose proof (operators_among s1 _ H1 eq_refl) as O1.
  pose proof (operators_among s2 _ H2 eq_refl) as O2.
  apply reaches_parse.
  rewrite <- (app_nil_r (infix _ s2 _)), infix_text, app_nil_r.
  rewrite paren_app, infix_text.
  set (T4 := 32%N :: str_of_N k).
  set (T3 := 32%N :: str s2 ++ T4).
  set (T2 := 32%N :: str_of_N n ++ 41%N :: T3).
  set (T1 := 32%N :: str s1 ++ T2).
  assert (E0 : init (str_of_N m ++ T1) = mk T1 (Int (Z.of_N m)))
    by (apply init_numeral; reflexivity).
  assert (E1 : init T1 = mk T2 (Str (str s1)))
    by (apply init_operator_blank, O1).
  assert (E2 : init T2 = mk (41%N :: T3) (Int (Z.of_N n)))
    by (unfold T2; rewrite init_blank; apply init_numeral; reflexivity).
  assert (E3 : init T3 = mk T4 (Str (str s2)))
    by (apply init_operator_blank, O2).
  assert (E4 : init T4 = mk [] (Int (Z.of_N k))).
  { unfold T4; rewrite init_blank, <- (app_nil_r (str_of_N k)).
    apply init_numeral; reflexivity. }
  assert (S : reaches parse_assign (mk T1 (Int (Z.of_N m)))
                (Tuple [Str (str s1); Int (Z.of_N m); Int (Z.of_N n)],
                 mk T3 (Str (str ")")))).
  { apply (one_operator (mk T1 (Int (Z.of_N m))) (mk T2 (Str (str s1))));
      try reflexivity; try exact O1.
    - change (advance (mk T2 (Str (str s1)))) with (init T2).
      rewrite E2; reflexivity.
    - rewrite <- E1.
      exact (reaches_factor_atom (mk T1 (Int (Z.of_N m))) eq_refl).
    - change (advance (mk T2 (Str (str s1)))) with (init T2).
      rewrite E2, <- init_close.
      exact (reaches_factor_atom (mk (41%N :: T3) (Int (Z.of_N n)))
                                 eq_refl). }
  rewrite init_open.
  apply (one_operator (mk (str_of_N m ++ T1) (Str (str "(")))
                      (mk T4 (Str (str s2))));
    try reflexivity; try exact O2.
  - change (advance (mk T4 (Str (str s2)))) with (init T4).
    rewrite E4; reflexivity.
  - rewrite <- E3.
    change (init T3) with (advance (mk T3 (Str (str ")")))).
    apply reaches_factor_paren; [reflexivity| |reflexivity].
    change (advance (mk (str_of_N m ++ T1) (Str (str "("))))
      with (init (str_of_N m ++ T1)).
    rewrite E0; exact S.
  - change (advance (mk T4 (Str (str s2)))) with (init T4).
    rewrite E4.
    exact (reaches_factor_atom (mk [] (Int (Z.of_N k))) eq_refl).
Qed.

End Lines.

End ParserPrecedence.

(** ** The parser makes no negative integer *)

Module ParserNatural.

Import Parser ParserFacts ParserRuns ParserSound.
Local Open Scope parser_scope.

Lemma token_natural (x : obj) : token x -> natural x = true.
Proof. intros [k Hk| | | | |]; try reflexivity; apply Z.leb_le, Hk. Qed.

Lemma advance_natural (p : t) : natural (tok (advance p)) = true.
Proof.
  unfold advance; pose proof (LexerMore.next_token (lexer p)) as H.
  destruct (Lexer.next (lexer p)) as [x l]; exact (token_natural x H).
Qed.

Lemma init_natural (input : pystr) : natural (tok (init input)) = true.
Proof. exact (advance_natural (mk input (Int 0))). Qed.

Ltac natural_done :=
  cbv beta in *;
  try assumption;
  try apply advance_natural;
  try (split; [|assumption || apply advance_natural]);
  cbn [natural forallb];
  repeat match goal with
         | H : natural _ = true |- _ => rewrite H
         end;
  try reflexivity.

Ltac ncall H :=
  eapply sound_call;
  [apply H; natural_done|intros ? ? [? ?]]; sound_go.

Lemma all_return_natural_all n : all_return_natural n.
Proof.
  induction n as [|n IH].
  - repeat split; intros; intros p Hp; exact I.
  - destruct IH as (Hassign & Hternary & Hor & Hand & Hnot & Hcompare & Hcl
                    & Hadd & Hal & Hmul & Hml & Hunary & Hpow & Hfactor).
    unfold returns_natural in *.
    repeat split; intros; intros p Hp.
    + rewrite parse_assign_eq; ncall Hternary; try natural_done.
      ncall Hassign; natural_done.
    + rewrite parse_ternary_eq; ncall Hor; try natural_done.
      ncall Hassign; try natural_done.
      ncall Hassign; natural_done.
    + rewrite parse_or_eq; ncall Hand; try natural_done.
      ncall Hor; natural_done.
    + rewrite parse_and_eq; ncall Hnot; try natural_done.
      ncall Hand; natural_done.
    + rewrite parse_not_eq; sound_go.
      * ncall Hnot; natural_done.
      * apply Hcompare, Hp.
    + rewrite parse_compare_eq; ncall Hadd.
      apply Hcl; natural_done.
    + rewrite compare_loop_eq; sound_go; try natural_done.
      ncall Hadd. apply Hcl; natural_done.
    + rewrite parse_add_eq; ncall Hmul.
      apply Hal; natural_done.
    + rewrite add_loop_eq; sound_go; try natural_done.
      ncall Hmul. apply Hal; natural_done.
    + rewrite parse_mul_eq; ncall Hunary.
      apply Hml; natural_done.
    + rewrite mul_loop_eq; sound_go; try natural_done.
      ncall Hunary. apply Hml; natural_done.
    + rewrite parse_unary_eq; sound_go.
      * ncall Hunary; natural_done.
      * apply Hpow, Hp.
    + rewrite parse_pow_eq; ncall Hfactor; try natural_done.
      ncall Hpow; natural_done.
    + rewrite parse_factor_eq; sound_go; try natural_done.
      ncall Hassign; natural_done.
Qed.

Lemma parse_natural (input : pystr) (e : obj) :
  parse input = Ok e -> natural e = true.
Proof.
  unfold parse; generalize (fuel_for input); intros n.
  destruct (all_return_natural_all n) as [Hassign _].
  pose proof (Hassign (init input) (init_natural input)) as H.
  unfold parse_from, bind; unfold sound in H.
  destruct (parse_assign n (init input)) as [[e' q]|ex|l]; try discriminate.
  destruct H as [He _]; unfold tok_is, ret, error.
  destruct (obj_eqb (tok q) (Str (str "$"))); [|discriminate].
  intros [= <-]; exact He.
Qed.

End ParserNatural.

(** ** The parser reads the line through the lexer only *)

Module ParserAlike.

Import Parser ParserFacts ParserRuns.
Local Open Scope parser_scope.

Section Simulation.

Variable sim : pystr -> pystr -> Prop.
Hypothesis sim_next : lexer_simulation sim.

Lemma alike_bind {A B} (m : M A) (k : A -> M B) :
  alike sim m -> (forall a, alike sim (k a)) -> alike sim (bind m k).
Proof.
  intros Hm Hk p1 p2 Hp; unfold bind; specialize (Hm p1 p2 Hp).
  destruct (m p1) as [[a1 q1]|e1|l1], (m p2) as [[a2 q2]|e2|l2];
    simpl in Hm; try contradiction; try exact Hm.
  destruct Hm as [<- Hq]; exact (Hk a1 q1 q2 Hq).
Qed.

Lemma alike_ret {A} (a : A) : alike sim (ret a).
Proof. intros p1 p2 Hp; split; [reflexivity|exact Hp]. Qed.

Lemma alike_error {A} (msg : string) : alike sim (@error A msg).
Proof.
  intros p1 p2 [Ht _]; unfold error, same_outcome; rewrite Ht; reflexivity.
Qed.

Lemma alike_out_of_fuel {A} : alike sim (@out_of_fuel A).
Proof. intros p1 p2 _; reflexivity. Qed.

Lemma alike_get_tok : alike sim get_tok.
Proof. intros p1 p2 Hp; split; [exact (proj1 Hp)|exact Hp]. Qed.

Lemma alike_tok_is (s : string) : alike sim (tok_is s).
Proof.
  intros p1 p2 Hp; split; [rewrite (proj1 Hp); reflexivity|exact Hp].
Qed.

Lemma alike_tok_in (l : list string) : alike sim (tok_in l).
Proof.
  intros p1 p2 Hp; split; [rewrite (proj1 Hp); reflexivity|exact Hp].
Qed.

Lemma related_advance (p1 p2 : t) :
  related sim p1 p2 -> related sim (advance p1) (advance p2).
Proof.
  intros [_ Hl]; unfold advance, related.
  destruct (sim_next _ _ Hl) as [Hx Hs].
  destruct (Lexer.next (lexer p1)), (Lexer.next (lexer p2)); split; assumption.
Qed.

Lemma alike_next : alike sim next.
Proof.
  intros p1 p2 Hp; rewrite !next_advance; split; [reflexivity|].
  apply related_advance, Hp.
Qed.

Lemma alike_if {A} (b : bool) (m1 m2 : M A) :
  alike sim m1 -> alike sim m2 -> alike sim (if b then m1 else m2).
Proof. destruct b; auto. Qed.

Ltac alike_step :=
  match goal with
  | |- alike _ _ =>
      first [ assumption
            | match goal with
              | H : forall e, alike _ _ |- _ => apply H
              end
            | apply alike_ret | apply alike_error | apply alike_out_of_fuel
            | apply alike_get_tok | apply alike_tok_is | apply alike_tok_in
            | apply alike_next
            | apply alike_bind
            | apply alike_if ]
  | |- forall _, _ => intro
  end.

Lemma all_alike_all n : all_alike sim n.
Proof.
  induction n as [|n IH].
  - repeat split; intros; apply alike_out_of_fuel.
  - destruct IH as (H1 & H2 & H3 & H4 & H5 & H6 & H7 & H8 & H9 & H10
                    & H11 & H12 & H13 & H14).
    repeat split; intros.
    + rewrite parse_assign_eq; repeat alike_step.
    + rewrite parse_ternary_eq; repeat alike_step.
    + rewrite parse_or_eq; repeat alike_step.
    + rewrite parse_and_eq; repeat alike_step.
    + rewrite parse_not_eq; repeat alike_step.
    + rewrite parse_compare_eq; repeat alike_step.
    + rewrite compare_loop_eq; repeat alike_step.
    + rewrite parse_add_eq; repeat alike_step.
    + rewrite add_loop_eq; repeat alike_step.
    + rewrite parse_mul_eq; repeat alike_step.
    + rewrite mul_loop_eq; repeat alike_step.
    + rewrite parse_unary_eq; repeat alike_step.
    + rewrite parse_pow_eq; repeat alike_step.
    + rewrite parse_factor_eq; repeat alike_step.
Qed.

Lemma parse_from_alike (n : nat) (input1 input2 : pystr) :
  sim input1 input2 ->
  strip_state (parse_from n (init input1))
  = strip_state (parse_from n (init input2)).
Proof.
  intros Hs.
  assert (Hp : related sim (init input1) (init input2)).
  { apply (related_advance (mk input1 (Int 0)) (mk input2 (Int 0))).
    split; [reflexivity|exact Hs]. }
  assert (Ha : alike sim (parse_from n)).
  { unfold parse_from; destruct (all_alike_all n) as [H1 _].
    repeat alike_step. }
  specialize (Ha _ _ Hp).
  destruct (parse_from n (init input1)) as [[e1 q1]|e1|l1],
           (parse_from n (init input2)) as [[e2 q2]|e2|l2];
    simpl in Ha |- *; try contradiction; try congruence.
  destruct Ha as [<- _]; reflexivity.
Qed.

(** Two lines that the lexer cannot tell apart parse alike. *)
Lemma parse_alike (input1 input2 : pystr) :
  sim input1 input2 -> parse input1 = parse input2.
Proof.
  intros Hs.
  pose proof (ParserTotal.parse_total input1) as H1.
  pose proof (ParserTotal.parse_total input2) as H2.
  rewrite (ParserPaths.parse_eq input1) in H1 |- *.
  rewrite (ParserPaths.parse_eq input2) in H2 |- *.
  set (m := Nat.max (fuel_for input1) (fuel_for input2)).
  rewrite <- (ParserPaths.parse_from_agree (fuel_for input1) m (init input1)).
  - rewrite <- (ParserPaths.parse_from_agree (fuel_for input2) m (init input2)).
    + apply parse_from_alike, Hs.
    + lia.
    + intros l E; rewrite E in H2.
      destruct H2 as [[e He]|[ex Hex]]; discriminate.
  - lia.
  - intros l E; rewrite E in H1.
    destruct H1 as [[e He]|[ex Hex]]; discriminate.
Qed.

End Simulation.

End ParserAlike.

(** ** The end of a line that the lexer ignores *)

Module LexerTail.

Import Lexer LexerFacts.

Lemma ignored_inert (tail : pystr) : ignored tail = true -> inert tail = true.
Proof.
  destruct tail as [|d tail]; [reflexivity|]; simpl.
  destruct (is_blank d); [reflexivity|]; intros ->; reflexivity.
Qed.

Lemma inert_stops (cls : char -> bool) (tail : pystr) :
  (forall d, is_blank d || (d =? 10)%N = true -> cls d = false) ->
  inert tail = true -> stops cls tail = true.
Proof.
  intros Hcls; destruct tail as [|d tail]; [reflexivity|]; simpl.
  intros H; rewrite (Hcls d H); reflexivity.
Qed.

Lemma inert_no_digit (d : char) :
  is_blank d || (d =? 10)%N = true -> is_digit d = false.
Proof.
  intros H; apply orb_true_iff in H as [H|H].
  - unfold is_blank in H; apply orb_true_iff in H as [H|H];
      apply N.eqb_eq in H; subst d; reflexivity.
  - apply N.eqb_eq in H; subst d; reflexivity.
Qed.

Lemma inert_no_letter (d : char) :
  is_blank d || (d =? 10)%N = true -> is_letter d = false.
Proof.
  intros H; apply orb_true_iff in H as [H|H].
  - unfold is_blank in H; apply orb_true_iff in H as [H|H];
      apply N.eqb_eq in H; subst d; reflexivity.
  - apply N.eqb_eq in H; subst d; reflexivity.
Qed.

Lemma inert_no_equals (d : char) :
  is_blank d || (d =? 10)%N = true -> (d =? 61)%N = false.
Proof.
  intros H; apply orb_true_iff in H as [H|H].
  - unfold is_blank in H; apply orb_true_iff in H as [H|H];
      apply N.eqb_eq in H; subst d; reflexivity.
  - apply N.eqb_eq in H; subst d; reflexivity.
Qed.

Section Tail.

Variable tail : pystr.
Hypothesis Htail : inert tail = true.

Lemma span_tail cls (l : pystr) :
  stops cls tail = true ->
  span cls (l ++ tail) = (fst (span cls l), snd (span cls l) ++ tail).
Proof.
  intros Hs; induction l as [|c l IH]; simpl.
  - destruct tail as [|d r]; [reflexivity|]; simpl in *.
    apply negb_true_iff in Hs; rewrite Hs; reflexivity.
  - destruct (cls c); [|reflexivity].
    rewrite IH; destruct (span cls l); reflexivity.
Qed.

Lemma many1_tail cls (l : pystr) :
  stops cls tail = true -> many1 cls (l ++ tail) = with_tail tail (many1 cls l).
Proof.
  intros Hs; unfold many1; rewrite (span_tail cls l Hs).
  destruct (span cls l) as [[|c m] r]; reflexivity.
Qed.

Lemma one_tail cls (c : char) (l : pystr) :
  one cls ((c :: l) ++ tail) = with_tail tail (one cls (c :: l)).
Proof. simpl; destruct (cls c); reflexivity. Qed.

Lemma two_char_op_tail (c : char) (l : pystr) :
  two_char_op ((c :: l) ++ tail) = with_tail tail (two_char_op (c :: l)).
Proof.
  destruct l as [|b l]; simpl.
  - destruct tail as [|d r]; [reflexivity|]; simpl in Htail.
    rewrite (inert_no_equals d Htail), andb_false_r; reflexivity.
  - destruct (((c =? 61)%N || (c =? 33)%N || (c =? 60)%N || (c =? 62)%N)
              && (b =? 61)%N); reflexivity.
Qed.

Lemma first_match_tail (c : char) (l : pystr) :
  first_match rules ((c :: l) ++ tail)
  = match first_match rules (c :: l) with
    | Some (x, rest) => Some (x, rest ++ tail)
    | None => None
    end.
Proof.
  cbn [first_match rules].
  rewrite two_char_op_tail, !many1_tail, !one_tail
    by (apply inert_stops; auto using inert_no_digit, inert_no_letter).
  destruct (two_char_op (c :: l)) as [[m r]|]; [reflexivity|].
  destruct (many1 is_digit (c :: l)) as [[m r]|]; [reflexivity|].
  destruct (many1 is_letter (c :: l)) as [[m r]|]; [reflexivity|].
  destruct (one is_punct (c :: l)) as [[m r]|]; [reflexivity|].
  destruct (one is_dot (c :: l)) as [[m r]|]; reflexivity.
Qed.

End Tail.

Lemma next_nonblank (c : char) (l : pystr) :
  is_blank c = false ->
  next (c :: l) = match first_match rules (c :: l) with
                  | Some r => r
                  | None => (Str (str "$"), c :: l)
                  end.
Proof.
  intros Hc; unfold next, ignore; rewrite (many1_none _ _ _ Hc); reflexivity.
Qed.

Lemma next_ignored (tail : pystr) :
  ignored tail = true ->
  exists tail', ignored tail' = true /\ next tail = (Str (str "$"), tail').
Proof.
  induction tail as [|c tail IH]; simpl.
  - exists []; split; reflexivity.
  - destruct (is_blank c) eqn:Hc.
    + intros H; destruct (IH H) as (tail' & H' & E); exists tail'.
      rewrite next_blank by exact Hc; auto.
    + intros H; apply N.eqb_eq in H; subst c; exists (10%N :: tail).
      split; [reflexivity|apply next_newline].
Qed.

(** With an ignored end behind the text, the same token. *)
Lemma next_tail (l tail : pystr) :
  ignored tail = true ->
  exists tail', ignored tail' = true
                /\ next (l ++ tail) = (fst (next l), snd (next l) ++ tail').
Proof.
  intros Ht; induction l as [|c l IH].
  - destruct (next_ignored tail Ht) as (tail' & H' & E); exists tail'.
    split; [exact H'|exact E].
  - destruct (is_blank c) eqn:Hc.
    + destruct IH as (tail' & H' & E); exists tail'; split; [exact H'|].
      change ((c :: l) ++ tail) with (c :: (l ++ tail)).
      rewrite !next_blank by exact Hc; exact E.
    + exists tail; split; [exact Ht|].
      rewrite (next_nonblank c l Hc).
      change ((c :: l) ++ tail) with (c :: (l ++ tail)).
      rewrite (next_nonblank c (l ++ tail) Hc).
      change (c :: (l ++ tail)) with ((c :: l) ++ tail).
      rewrite (first_match_tail tail (ignored_inert tail Ht)).
      destruct (first_match rules (c :: l)) as [[x r]|]; reflexivity.
Qed.

Lemma ignored_simulation :
  lexer_simulation (fun l1 l2 =>
                      exists tail, ignored tail = true /\ l2 = l1 ++ tail).
Proof.
  intros l1 l2 (tail & Ht & ->).
  destruct (next_tail l1 tail Ht) as (tail' & Ht' & E); rewrite E; simpl.
  split; [reflexivity|exists tail'; auto].
Qed.

(** The end of the line that the lexer ignores, the parser ignores. *)
Lemma parse_ignores (line tail : pystr) :
  ignored tail = true -> Parser.parse (line ++ tail) = Parser.parse line.
Proof.
  intros Ht; symmetry.
  apply (ParserAlike.parse_alike _ ignored_simulation).
  exists tail; auto.
Qed.

End LexerTail.

(** ** The evaluator on trees of the grammar *)

Section SafeNodes.

Variables (a b c : obj).
Hypothesis Ha : forall V, safe (eval a V).
Hypothesis Hb : forall V, safe (eval b V).
Hypothesis Hc : forall V, safe (eval c V).

Lemma safe_eval_then (e : obj) (He : forall V, safe (eval e V))
      (k : Z -> E Z) (V : dict) :
  (forall v V', safe (k v V')) -> safe (bind (eval e) k V).
Proof.
  intros Hk; unfold bind; pose proof (He V) as R.
  destruct (eval e V) as [[v|ex|l] V']; [apply Hk|exact R|exact R].
Qed.

Lemma safe_unary (op : obj) :
  obj_in op unary_ops = true -> forall V, safe (eval (Tuple [op; a]) V).
Proof.
  intros H V; apply obj_in_cases in H as (s & Hin & ->).
  simpl in Hin; repeat destruct Hin as [<-|Hin]; try contradiction;
    (apply (safe_eval_then a Ha); intros; exact I).
Qed.

Lemma safe_assign (name : obj) :
  forall V, safe (eval (Tuple [Str (str "="); name; b]) V).
Proof.
  intros V; apply (safe_eval_then b Hb); intros; exact I.
Qed.

Lemma safe_ternary :
  forall V, safe (eval (Tuple [Str (str "?:"); c; a; b]) V).
Proof.
  intros V; apply (safe_eval_then c Hc); intros v V'.
  destruct (negb (v =? 0)); [apply Ha|apply Hb].
Qed.

Lemma safe_binary (op : obj) :
  obj_in op binary_ops = true -> forall V, safe (eval (Tuple [op; a; b]) V).
Proof.
  intros H V; apply obj_in_cases in H as (s & Hin & ->).
  simpl in Hin; repeat destruct Hin as [<-|Hin]; try contradiction;
    unfold safe; simpl; unfold bind, ret, arith, floordiv, modulo, power;
    pose proof (Ha V) as Ra; unfold safe in Ra;
    destruct (eval a V) as [[va|ea|la] V1]; simpl in *; try exact Ra;
    repeat match goal with
           | |- context [if ?x then _ else _] => destruct x; simpl
           end;
    try exact I;
    pose proof (Hb V1) as Rb; unfold safe in Rb;
    destruct (eval b V1) as [[vb|eb|lb] V2]; simpl in *; try exact Rb;
    repeat match goal with
           | |- context [if ?x then _ else _] => destruct x; simpl
           end;
    exact I.
Qed.

End SafeNodes.

(** On a tree of the grammar [eval] returns a value, or divides by zero, or
    computes a float: no other exception. *)
Fixpoint eval_safe (e : obj) : wf e = true -> forall V, safe (eval e V).
Proof.
  destruct e as [n|s|items]; [intros _ V; exact I|intros _ V; exact I|].
  destruct items as [|op [|a [|b [|c [|d rest]]]]]; simpl; try discriminate.
  - intros H; apply andb_true_iff in H as [Hop Ha].
    apply safe_unary; [apply eval_safe, Ha|exact Hop].
  - intros H; apply orb_true_iff in H as [H|H].
    + apply andb_true_iff in H as [H Hb]; apply andb_true_iff in H as [Hop _].
      apply is_op_eq in Hop; subst op.
      apply safe_assign, eval_safe, Hb.
    + apply andb_true_iff in H as [H Hb]; apply andb_true_iff in H as [Hop Ha].
      apply safe_binary; [apply eval_safe, Ha|apply eval_safe, Hb|exact Hop].
  - intros H; apply andb_true_iff in H as [H Hc].
    apply andb_true_iff in H as [H Hb]; apply andb_true_iff in H as [Hop Ha].
    apply is_op_eq in Hop; subst op.
    apply safe_ternary; apply eval_safe; assumption.
Qed.

(** ** Trees without assignment leave the table alone *)

Section PureNodes.

Variables (a b c : obj).
Hypothesis Ha : forall V, snd (eval a V) = V.
Hypothesis Hb : forall V, snd (eval b V) = V.
Hypothesis Hc : forall V, snd (eval c V) = V.

Ltac pure_operand H V :=
  let R := fresh "R" in
  pose proof (H V) as R;
  destruct (eval _ V) as [[? | ? | ?] ?]; simpl in R; subst; simpl;
  try reflexivity.

Lemma pure_unary (op : obj) :
  obj_in op unary_ops = true -> forall V, snd (eval (Tuple [op; a]) V) = V.
Proof.
  intros H V; apply obj_in_cases in H as (s & Hin & ->).
  simpl in Hin; repeat destruct Hin as [<-|Hin]; try contradiction;
    simpl; unfold bind, ret; pure_operand Ha V.
Qed.

Lemma pure_ternary :
  forall V, snd (eval (Tuple [Str (str "?:"); c; a; b]) V) = V.
Proof.
  intros V; simpl; unfold bind; pure_operand Hc V.
  destruct (negb (_ =? 0)); [apply Ha|apply Hb].
Qed.

Lemma pure_binary (op : obj) :
  obj_in op binary_ops = true ->
  forall V, snd (eval (Tuple [op; a; b]) V) = V.
Proof.
  intros H V; apply obj_in_cases in H as (s & Hin & ->).
  simpl in Hin; repeat destruct Hin as [<-|Hin]; try contradiction;
    simpl; unfold bind, ret, arith, floordiv, modulo, power;
    pure_operand Ha V;
    repeat match goal with
           | |- context [if ?x then _ else _] => destruct x; simpl
           end;
    try reflexivity; try apply Hb;
    pure_operand Hb V;
    repeat match goal with
           | |- context [if ?x then _ else _] => destruct x; simpl
           end;
    reflexivity.
Qed.

End PureNodes.

Fixpoint eval_pure (e : obj) :
  wf e = true -> assigns e = false -> forall V, snd (eval e V) = V.
Proof.
  destruct e as [n|s|items]; [intros _ _ V; reflexivity..|].
  destruct items as [|op [|a [|b [|c [|d rest]]]]]; simpl; try discriminate.
  - intros H Hn; apply andb_true_iff in H as [Hop Ha].
    apply orb_false_iff in Hn as [_ Hn]; rewrite orb_false_r in Hn.
    apply pure_unary; [apply eval_pure; assumption|exact Hop].
  - intros H Hn; apply orb_false_iff in Hn as [Hne Hn].
    apply orb_false_iff in Hn as [Hna Hn]; rewrite orb_false_r in Hn.
    apply orb_true_iff in H as [H|H].
    + apply andb_true_iff in H as [H _]; apply andb_true_iff in H as [Hop _].
      congruence.
    + apply andb_true_iff in H as [H Hb]; apply andb_true_iff in H as [Hop Ha].
      apply pure_binary; [apply eval_pure; assumption..|exact Hop].
  - intros H Hn; apply orb_false_iff in Hn as [_ Hn].
    apply orb_false_iff in Hn as [Hnc Hn].
    apply orb_false_iff in Hn as [Hna Hn]; rewrite orb_false_r in Hn.
    apply andb_true_iff in H as [H Hb].
    apply andb_true_iff in H as [H Ha]; apply andb_true_iff in H as [Hop Hc].
    apply is_op_eq in Hop; subst op.
    apply pure_ternary; apply eval_pure; assumption.
Qed.

(** ** What every assignment keeps, [eval] keeps *)

Section Invariant.

Variable P : dict -> Prop.
Variable T : pystr -> bool.
Hypothesis P_set :
  forall V x v, isalpha x = true -> T x = true -> P V ->
                P (dict_set V (Str x) v).

Section InvariantNodes.

Variables (a b c : obj).
Hypothesis Ha : forall V, P V -> P (snd (eval a V)).
Hypothesis Hb : forall V, P V -> P (snd (eval b V)).
Hypothesis Hc : forall V, P V -> P (snd (eval c V)).

Ltac kept_operand H V HV :=
  let R := fresh "R" in
  pose proof (H V HV) as R;
  destruct (eval _ V) as [[? | ? | ?] ?]; simpl in R |- *; try exact R.

Ltac kept_branches :=
  repeat match goal with
         | |- context [if ?x then _ else _] => destruct x; simpl
         end.

Lemma kept_unary (op : obj) :
  obj_in op unary_ops = true ->
  forall V, P V -> P (snd (eval (Tuple [op; a]) V)).
Proof.
  intros H V HV; apply obj_in_cases in H as (s & Hin & ->).
  simpl in Hin; repeat destruct Hin as [<-|Hin]; try contradiction;
    simpl; unfold bind, ret; kept_operand Ha V HV.
Qed.

Lemma kept_assign (x : pystr) :
  isalpha x = true -> T x = true ->
  forall V, P V -> P (snd (eval (Tuple [Str (str "="); Str x; b]) V)).
Proof.
  intros Hx Ht V HV; simpl; unfold bind, assign_var; kept_operand Hb V HV.
  apply P_set; assumption.
Qed.

Lemma kept_ternary :
  forall V, P V -> P (snd (eval (Tuple [Str (str "?:"); c; a; b]) V)).
Proof.
  intros V HV; simpl; unfold bind; kept_operand Hc V HV.
  destruct (negb (_ =? 0)); [apply Ha|apply Hb]; exact R.
Qed.

Lemma kept_binary (op : obj) :
  obj_in op binary_ops = true ->
  forall V, P V -> P (snd (eval (Tuple [op; a; b]) V)).
Proof.
  intros H V HV; apply obj_in_cases in H as (s & Hin & ->).
  simpl in Hin; repeat destruct Hin as [<-|Hin]; try contradiction;
    simpl; unfold bind, ret, arith, floordiv, modulo, power;
    kept_operand Ha V HV; kept_branches; try exact R;
    try (apply Hb; exact R);
    match goal with
    | |- context [eval b ?V1] => kept_operand Hb V1 R
    end;
    kept_branches; assumption.
Qed.

End InvariantNodes.

Fixpoint eval_keeps (e : obj) :
  wf e = true -> assigns_only T e = true ->
  forall V, P V -> P (snd (eval e V)).
Proof.
  destruct e as [n|s|items]; [intros _ _ V HV; exact HV..|].
  destruct items as [|op [|a [|b [|c [|d rest]]]]];
    cbn [wf assigns_only forallb]; try discriminate.
  - intros H Ht; apply andb_true_iff in H as [Hop Ha].
    apply andb_true_iff in Ht as [_ Ht]; apply andb_true_iff in Ht as [Hta _].
    apply kept_unary; [apply eval_keeps; assumption|exact Hop].
  - intros H Ht; apply andb_true_iff in Ht as [Ht0 Ht].
    apply andb_true_iff in Ht as [Hta Ht]; apply andb_true_iff in Ht as [Htb _].
    apply orb_true_iff in H as [H|H].
    + apply andb_true_iff in H as [H Hb]; apply andb_true_iff in H as [Hop Ha].
      apply is_op_eq in Hop; subst op.
      destruct a as [k|x|items]; try discriminate.
      apply kept_assign; [apply eval_keeps; assumption|exact Ha|exact Ht0].
    + apply andb_true_iff in H as [H Hb]; apply andb_true_iff in H as [Hop Ha].
      apply kept_binary; [apply eval_keeps; assumption
                         |apply eval_keeps; assumption|exact Hop].
  - intros H Ht; apply andb_true_iff in Ht as [_ Ht].
    apply andb_true_iff in Ht as [Htc Ht].
    apply andb_true_iff in Ht as [Hta Ht]; apply andb_true_iff in Ht as [Htb _].
    apply andb_true_iff in H as [H Hc].
    apply andb_true_iff in H as [H Hb]; apply andb_true_iff in H as [Hop Ha].
    apply is_op_eq in Hop; subst op.
    apply kept_ternary; apply eval_keeps; assumption.
Qed.

End Invariant.

Fixpoint assigns_only_any (e : obj) : assigns_only (fun _ => true) e = true.
Proof.
  destruct e as [n|s|items]; [reflexivity..|].
  destruct items as [|op args]; [reflexivity|].
  cbn [assigns_only]; apply andb_true_iff; split.
  - destruct (is_op op "="); [|reflexivity].
    destruct args as [|[k|x|items] args]; reflexivity.
  - induction args as [|a args IH]; [reflexivity|].
    cbn [forallb]; rewrite assigns_only_any; exact IH.
Qed.

(** [calc] keeps what every assignment keeps: a line that does not parse
    leaves the table alone. *)
Lemma calc_keeps (P : dict -> Prop) (line : pystr) (V : dict) :
  (forall V x v, isalpha x = true -> P V -> P (dict_set V (Str x) v)) ->
  P V -> P (snd (calc line V)).
Proof.
  intros P_set HV; unfold calc.
  pose proof (ParserSound.parse_sound line) as Hs.
  destruct (Parser.parse line) as [e|ex|l]; [|exact HV..].
  apply (eval_keeps P (fun _ => true)); auto using assigns_only_any.
Qed.

Lemma names_set (V : dict) (x : pystr) (v : Z) :
  isalpha x = true -> names V = true -> names (dict_set V (Str x) v) = true.
Proof.
  intros Hx; unfold names; induction V as [|[k w] V IH]; simpl.
  - intros _; rewrite Hx; reflexivity.
  - intros H; apply andb_true_iff in H as [Hk HV].
    destruct (obj_eqb k (Str x)); simpl; rewrite Hk; auto.
Qed.

(** * The claims *)

Local Notation "'node' op a b" := (Tuple [Str (str op); a; b])
  (at level 10, op at level 9, a at level 9, b at level 9, only parsing).

(** C1.  Short-circuit of the logical operators.  Once the left operand has
    the value [v], the node [&] is 0 when [v] is 0 and the node [|] is [v]
    itself when [v] is not 0, in the table the left operand left behind and
    whatever the right operand [e] is: [e] is evaluated in the other case
    only.  So [0 & e] is 0 for every [e], and the lines [0 & (1/0)] and
    [1 | (1/0)] return 0 and 1 although [(1/0)] alone raises. *)
Theorem C1_short_circuit (a e : obj) (v : Z) (V V' : dict)
        (Ha : eval a V = (Ok v, V')) :
  eval (node "&" a e) V = (if v =? 0 then (Ok 0, V') else eval e V')
  /\ eval (node "|" a e) V = (if v =? 0 then eval e V' else (Ok v, V'))
  /\ eval (node "&" (Int 0) e) V = (Ok 0, V)
  /\ calc (str "0 & (1/0)") V = (Ok 0, V)
  /\ calc (str "1 | (1/0)") V = (Ok 1, V)
  /\ calc (str "(1/0)") V = (Raise ZeroDivisionError, V).
Proof.
  repeat split; try reflexivity.
  - rewrite eval_and; unfold bind; rewrite Ha.
    destruct (v =? 0); reflexivity.
  - rewrite eval_or; unfold bind; rewrite Ha.
    destruct (v =? 0); reflexivity.
Qed.

Lemma C1_short_circuit_witness :
  eval (Int 7) [] = (Ok 7, [])
  /\ eval (node "|" (Int 7) (node "/" (Int 1) (Int 0))) [] = (Ok 7, []).
Proof.
  split; [reflexivity|].
  exact (proj1 (proj2 (C1_short_circuit (Int 7) (node "/" (Int 1) (Int 0))
                         7 [] [] eq_refl))).
Defined.

(** C2.  Division and modulo by zero are failures of the evaluation: when
    the left operand has a value and the right operand evaluates to 0, the
    nodes [/] and [%] raise [ZeroDivisionError], in the table the operands
    left behind.  Parsing does not fail: [parse("1 / 0")] is the node, and
    only [calc] raises. *)
Theorem C2_division_by_zero (a b : obj) (va : Z) (V V1 V2 : dict)
        (Ha : eval a V = (Ok va, V1)) (Hb : eval b V1 = (Ok 0, V2)) :
  eval (node "/" a b) V = (Raise ZeroDivisionError, V2)
  /\ eval (node "%" a b) V = (Raise ZeroDivisionError, V2)
  /\ Parser.parse (str "1 / 0") = Ok (node "/" (Int 1) (Int 0))
  /\ calc (str "1 / 0") V = (Raise ZeroDivisionError, V)
  /\ Parser.parse (str "1 % 0") = Ok (node "%" (Int 1) (Int 0))
  /\ calc (str "1 % 0") V = (Raise ZeroDivisionError, V).
Proof.
  repeat split; try reflexivity.
  - rewrite eval_div; apply (binary_ok a b floordiv va 0 V V1 V2 Ha Hb).
  - rewrite eval_mod; apply (binary_ok a b modulo va 0 V V1 V2 Ha Hb).
Qed.

Lemma C2_division_by_zero_witness :
  eval (Int 1) [] = (Ok 1, []) /\ eval (Int 0) [] = (Ok 0, [])
  /\ eval (node "/" (Int 1) (Int 0)) [] = (Raise ZeroDivisionError, []).
Proof.
  split; [reflexivity|split; [reflexivity|]].
  exact (proj1 (C2_division_by_zero (Int 1) (Int 0) 1 [] [] [] eq_refl eq_refl)).
Defined.

(** C3.  An assignment is an expression: it stores the value of its right
    side and returns it, and it chains to the right.  For every name [x],
    natural number [n] written in decimal and table [V], the line [x = n]
    parses to the assignment node, returns [n] and stores it under [x], and
    the line [x] then returns [n]; the line [x = y = 3] parses to
    [x = (y = 3)], returns 3 and leaves 3 under both names. *)
Theorem C3_assignment (x : pystr) (n : N) (V : dict)
        (Hx : isalpha x = true) :
  let v := Z.of_N n in
  let V' := dict_set V (Str x) v in
  let W := dict_set (dict_set V (Str (str "y")) 3) (Str (str "x")) 3 in
  Parser.parse (x ++ str " = " ++ str_of_N n) = Ok (node "=" (Str x) (Int v))
  /\ calc (x ++ str " = " ++ str_of_N n) V = (Ok v, V')
  /\ calc x V' = (Ok v, V')
  /\ Parser.parse (str "x = y = 3")
     = Ok (node "=" (Str (str "x")) (node "=" (Str (str "y")) (Int 3)))
  /\ calc (str "x = y = 3") V = (Ok 3, W)
  /\ calc (str "x") W = (Ok 3, W)
  /\ calc (str "y") W = (Ok 3, W).
Proof.
  intros v V' W.
  assert (Hp : Parser.parse (x ++ str " = " ++ str_of_N n)
               = Ok (node "=" (Str x) (Int v))).
  { apply ParserRuns.parse_assignment; [exact Hx|].
    unfold v; rewrite <- int_str_of_N.
    apply ParserRuns.parse_int;
      [apply str_of_N_not_empty|apply str_of_N_digits]. }
  repeat split.
  - exact Hp.
  - unfold calc; rewrite Hp; reflexivity.
  - unfold calc; rewrite (ParserRuns.parse_name x Hx).
    unfold V'; simpl; rewrite dict_get_set_name; reflexivity.
  - unfold calc; change (Parser.parse (str "x")) with (@Ok obj (Str (str "x"))).
    unfold W; simpl; rewrite dict_get_set_name; reflexivity.
  - unfold calc; change (Parser.parse (str "y")) with (@Ok obj (Str (str "y"))).
    unfold W; cbn [eval].
    rewrite dict_get_set_other by discriminate.
    rewrite dict_get_set_name; reflexivity.
Qed.

Lemma C3_assignment_witness :
  isalpha (str "x") = true
  /\ calc (str "x = 5") [] = (Ok 5, [(Str (str "x"), 5)]).
Proof.
  split; [reflexivity|].
  exact (proj1 (proj2 (C3_assignment (str "x") 5%N [] eq_refl))).
Defined.



(** C6.  The multiplicative operators bind tighter than the additive ones,
    and parentheses override it.  For all numerals [m], [n] and [k], every
    additive operator [s1] ([+], [-]) and every multiplicative operator [s2]
    ([*], [/], [%]): in [m s1 n s2 k] the product is the right operand of
    the sum, in [m s2 n s1 k] it is the left operand, and in
    [(m s1 n) s2 k] the sum between parentheses is the left operand of the
    product.  So [m + n * k] has the value [m + (n * k)] and [(m + n) * k]
    the value [(m + n) * k]: 14 and 20 for 2, 3 and 4. *)
Theorem C6_precedence (m n k : N) (s1 s2 : string) (V : dict)
        (H1 : obj_in (Str (str s1)) (toks ["+"; "-"]) = true)
        (H2 : obj_in (Str (str s2)) (toks ["*"; "/"; "%"]) = true) :
  Parser.parse (infix (str_of_N m) s1 (infix (str_of_N n) s2 (str_of_N k)))
  = Ok (node s1 (Int (Z.of_N m)) (node s2 (Int (Z.of_N n)) (Int (Z.of_N k))))
  /\ Parser.parse (infix (str_of_N m) s2
                         (infix (str_of_N n) s1 (str_of_N k)))
     = Ok (node s1 (node s2 (Int (Z.of_N m)) (Int (Z.of_N n)))
                (Int (Z.of_N k)))
  /\ Parser.parse (infix (paren (infix (str_of_N m) s1 (str_of_N n))) s2
                         (str_of_N k))
     = Ok (node s2 (node s1 (Int (Z.of_N m)) (Int (Z.of_N n)))
                (Int (Z.of_N k)))
  /\ calc (infix (str_of_N m) "+" (infix (str_of_N n) "*" (str_of_N k))) V
     = (Ok (Z.of_N m + Z.of_N n * Z.of_N k), V)
  /\ calc (infix (paren (infix (str_of_N m) "+" (str_of_N n))) "*"
                 (str_of_N k)) V
     = (Ok ((Z.of_N m + Z.of_N n) * Z.of_N k), V)
  /\ Parser.parse (str "2 + 3 * 4")
     = Ok (node "+" (Int 2) (node "*" (Int 3) (Int 4)))
  /\ calc (str "2 + 3 * 4") V = (Ok 14, V)
  /\ Parser.parse (str "(2 + 3) * 4")
     = Ok (node "*" (node "+" (Int 2) (Int 3)) (Int 4))
  /\ calc (str "(2 + 3) * 4") V = (Ok 20, V).
Proof.
  split; [exact (ParserPrecedence.parse_sum_of_product m n k s1 s2 H1 H2)|].
  split; [exact (ParserPrecedence.parse_product_then_sum m n k s1 s2 H1 H2)|].
  split; [exact (ParserPrecedence.parse_product_of_sum m n k s1 s2 H1 H2)|].
  split.
  { unfold calc.
    rewrite (ParserPrecedence.parse_sum_of_product m n k "+" "*" eq_refl
                                                   eq_refl).
    reflexivity. }
  split.
  { unfold calc.
    rewrite (ParserPrecedence.parse_product_of_sum m n k "+" "*" eq_refl
                                                   eq_refl).
    reflexivity. }
  repeat split; reflexivity.
Qed.

Lemma C6_precedence_witness :
  obj_in (Str (str "-")) (toks ["+"; "-"]) = true
  /\ obj_in (Str (str "%")) (toks ["*"; "/"; "%"]) = true
  /\ Parser.parse (str "7 - 5 % 3")
     = Ok (node "-" (Int 7) (node "%" (Int 5) (Int 3)))
  /\ Parser.parse (str "7 % 5 - 3")
     = Ok (node "-" (node "%" (Int 7) (Int 5)) (Int 3))
  /\ Parser.parse (str "(7 - 5) % 3")
     = Ok (node "%" (node "-" (Int 7) (Int 5)) (Int 3)).
Proof.
  split; [reflexivity|split; [reflexivity|]].
  pose proof (C6_precedence 7 5 3 "-" "%" [] eq_refl eq_refl) as H.
  split; [exact (proj1 H)|].
  split; [exact (proj1 (proj2 H))|exact (proj1 (proj2 (proj2 H)))].
Defined.

(** C7.  [^] associates to the right and is the power of integers:
    [2 ^ 3 ^ 2] is [2 ^ (3 ^ 2)] and evaluates to 512, and a node [^] whose
    operands have the values [x] and [y], [y] not negative, has the value
    [x ^ y]. *)
Theorem C7_power (a b : obj) (x y : Z) (V V1 V2 : dict)
        (Ha : eval a V = (Ok x, V1)) (Hb : eval b V1 = (Ok y, V2))
        (Hy : 0 <= y) :
  eval (node "^" a b) V = (Ok (x ^ y), V2)
  /\ Parser.parse (str "2 ^ 3 ^ 2")
     = Ok (node "^" (Int 2) (node "^" (Int 3) (Int 2)))
  /\ calc (str "2 ^ 3 ^ 2") V = (Ok 512, V)
  /\ 2 ^ (3 ^ 2) = 512.
Proof.
  repeat split; try reflexivity.
  rewrite eval_pow, (binary_ok a b power x y V V1 V2 Ha Hb).
  unfold power; apply Z.leb_le in Hy; rewrite Hy; reflexivity.
Qed.

Lemma C7_power_witness :
  eval (Int 2) [] = (Ok 2, []) /\ eval (Int 9) [] = (Ok 9, []) /\ 0 <= 9
  /\ eval (node "^" (Int 2) (Int 9)) [] = (Ok 512, []).
Proof.
  split; [reflexivity|split; [reflexivity|split; [lia|]]].
  exact (proj1 (C7_power (Int 2) (Int 9) 2 9 [] [] [] eq_refl eq_refl
                  ltac:(lia))).
Defined.

(** C8.  [/] and [%] are the floor division and its remainder.  When the
    operands have the values [x] and [y], [y] not 0, the node [/] has a
    value [q] and the node [%] a value [r] with [x = y * q + r]; [q] is the
    floor of the quotient ([q * y <= x < (q + 1) * y] for a positive [y],
    [(q + 1) * y < x <= q * y] for a negative one) and [r] has the sign of
    [y] ([0 <= r < y] or [y < r <= 0]). *)
Theorem C8_floor_division (a b : obj) (x y : Z) (V V1 V2 : dict)
        (Ha : eval a V = (Ok x, V1)) (Hb : eval b V1 = (Ok y, V2))
        (Hy : y <> 0) :
  exists q r : Z,
    eval (node "/" a b) V = (Ok q, V2)
    /\ eval (node "%" a b) V = (Ok r, V2)
    /\ x = y * q + r
    /\ (0 < y -> q * y <= x < (q + 1) * y /\ 0 <= r < y)
    /\ (y < 0 -> (q + 1) * y < x <= q * y /\ y < r <= 0).
Proof.
  exists (x / y), (x mod y).
  assert (Hz : (y =? 0) = false) by (apply Z.eqb_neq; exact Hy).
  split; [|split; [|split; [|split]]].
  - rewrite eval_div, (binary_ok a b floordiv x y V V1 V2 Ha Hb).
    unfold floordiv; rewrite Hz; reflexivity.
  - rewrite eval_mod, (binary_ok a b modulo x y V V1 V2 Ha Hb).
    unfold modulo; rewrite Hz; reflexivity.
  - apply Z.div_mod; exact Hy.
  - intros Hpos.
    pose proof (Z.div_mod x y Hy) as E.
    pose proof (Z.mod_pos_bound x y Hpos) as B; nia.
  - intros Hneg.
    pose proof (Z.div_mod x y Hy) as E.
    pose proof (Z.mod_neg_bound x y Hneg) as B; nia.
Qed.

Lemma C8_floor_division_witness :
  eval (Int (-7)) [] = (Ok (-7), []) /\ eval (Int 2) [] = (Ok 2, [])
  /\ 2 <> 0
  /\ exists q r : Z,
      eval (node "/" (Int (-7)) (Int 2)) [] = (Ok q, [])
      /\ eval (node "%" (Int (-7)) (Int 2)) [] = (Ok r, [])
      /\ -7 = 2 * q + r
      /\ (0 < 2 -> q * 2 <= -7 < (q + 1) * 2 /\ 0 <= r < 2)
      /\ (2 < 0 -> (q + 1) * 2 < -7 <= q * 2 /\ 2 < r <= 0).
Proof.
  split; [reflexivity|split; [reflexivity|split; [discriminate|]]].
  exact (C8_floor_division (Int (-7)) (Int 2) (-7) 2 [] [] [] eq_refl eq_refl
           ltac:(discriminate)).
Defined.

(** C9.  A name that the table does not hold reads as 0, and reading never
    fails: for every name [x] and table [V] without [x], the line [x]
    returns 0 and leaves [V] as it is; in any table the line returns a
    value; in the empty table the line [x] returns 0. *)
Theorem C9_unset_variable (x : pystr) (V : dict)
        (Hx : isalpha x = true) (Hv : dict_mem V (Str x) = false) :
  Parser.parse x = Ok (Str x)
  /\ eval (Str x) V = (Ok 0, V)
  /\ calc x V = (Ok 0, V)
  /\ (forall W : dict, calc x W = (Ok (dict_get W (Str x) 0), W))
  /\ calc (str "x") [] = (Ok 0, []).
Proof.
  pose proof (ParserRuns.parse_name x Hx) as Hp.
  repeat split.
  - exact Hp.
  - simpl; rewrite dict_get_absent by exact Hv; reflexivity.
  - unfold calc; rewrite Hp; simpl.
    rewrite dict_get_absent by exact Hv; reflexivity.
  - intros W; unfold calc; rewrite Hp; reflexivity.
Qed.

Lemma C9_unset_variable_witness :
  isalpha (str "total") = true
  /\ dict_mem [(Str (str "x"), 5)] (Str (str "total")) = false
  /\ calc (str "total") [(Str (str "x"), 5)] = (Ok 0, [(Str (str "x"), 5)]).
Proof.
  split; [reflexivity|split; [reflexivity|]].
  exact (proj1 (proj2 (proj2 (C9_unset_variable (str "total")
                                [(Str (str "x"), 5)] eq_refl eq_refl)))).
Defined.

(** C10.  A name between parentheses is an assignment target.  For every
    name [x] and every text [e] that parses to [r], the line [(x) = e]
    parses, and to the same assignment node as the line [x = e]: the
    parentheses add no node, and the test after the fact sees a name. *)
Theorem C10_parenthesized_target (x e : pystr) (r : obj)
        (Hx : isalpha x = true) (He : Parser.parse e = Ok r) :
  Parser.parse (str "(" ++ x ++ str ") = " ++ e) = Ok (node "=" (Str x) r)
  /\ Parser.parse (x ++ str " = " ++ e) = Ok (node "=" (Str x) r).
Proof.
  split.
  - apply ParserRuns.parse_paren_assignment; assumption.
  - apply ParserRuns.parse_assignment; assumption.
Qed.

Lemma C10_parenthesized_target_witness :
  isalpha (str "x") = true
  /\ Parser.parse (str "2 + 3") = Ok (node "+" (Int 2) (Int 3))
  /\ Parser.parse (str "(x) = 2 + 3")
     = Ok (node "=" (Str (str "x")) (node "+" (Int 2) (Int 3))).
Proof.
  split; [reflexivity|split; [reflexivity|]].
  exact (proj1 (C10_parenthesized_target (str "x") (str "2 + 3")
                  (node "+" (Int 2) (Int 3)) eq_refl eq_refl)).
Defined.

(** C4, at a newline.  The pattern [.] of the last rule matches no newline,
    so at a newline no rule matches and [next] answers the end marker ['$']
    without moving: no error token, and the parser takes what precedes the
    newline for the whole line.  The lines ["1\n2"] and ["1\n#"] parse
    to 1 and evaluate to 1. *)
Theorem C4_newline_ends_input (V : dict) :
  let nl := [10%N] in
  is_blank 10%N = false /\ is_digit 10%N = false /\ is_letter 10%N = false
  /\ is_punct 10%N = false
  /\ (forall rest, Lexer.next (nl ++ rest) = (Str (str "$"), nl ++ rest))
  /\ Parser.parse (str "1" ++ nl ++ str "2") = Ok (Int 1)
  /\ Parser.parse (str "1" ++ nl ++ str "#") = Ok (Int 1)
  /\ calc (str "1" ++ nl ++ str "2") V = (Ok 1, V).
Proof.
  repeat split; try reflexivity.
  intros rest; apply LexerFacts.next_newline.
Qed.

(** * Further properties

    The embedding has no recursion limit and converts numerals of any
    length, where the interpreter stops at 1000 nested calls and at 4300
    digits by default.  The statements below that say what a call returns
    for every line or every tree carry that limit as a hypothesis ([short],
    [modest], or a bound on the digits). *)

(** X1.  On a line of at most 60 characters, well inside the limits of the
    interpreter, [Parser(input).parse()] ends with a tree of the grammar or
    with a [ParseError]: it raises nothing else and returns nothing [eval]
    does not know.  The calls of its methods nest less than 870 deep, under
    the recursion limit. *)
Theorem X1_parse_tree_or_parse_error (input : pystr)
        (Hshort : short input = true) :
  ((exists e, Parser.parse input = Ok e /\ wf e = true)
   \/ (exists message, Parser.parse input = Raise (ParseError message)))
  /\ strip_state (Parser.parse_from 870 (Parser.init input))
     = Parser.parse input.
Proof.
  pose proof (ParserSound.parse_sound input) as Hs.
  pose proof (ParserTotal.parse_total input) as Ht.
  split.
  - destruct Ht as [[e He]|[ex Hex]].
    + rewrite He in Hs; left; exists e; auto.
    + rewrite Hex in Hs; destruct Hs as [message ->]; right; eauto.
  - rewrite (ParserPaths.parse_eq input) in Ht |- *.
    apply ParserPaths.parse_from_agree.
    + unfold short in Hshort; apply Nat.leb_le in Hshort.
      unfold Parser.fuel_for; lia.
    + intros l E; rewrite E in Ht.
      destruct Ht as [[e He]|[ex Hex]]; discriminate.
Qed.

Lemma X1_parse_tree_or_parse_error_witness :
  short (str "((x = 1) + ") = true
  /\ strip_state (Parser.parse_from 870 (Parser.init (str "((x = 1) + ")))
     = Parser.parse (str "((x = 1) + ").
Proof.
  split; [reflexivity|].
  exact (proj2 (X1_parse_tree_or_parse_error (str "((x = 1) + ") eq_refl)).
Defined.



(** X3.  An empty line, or a line of spaces and tabs only, is no expression:
    [parse] raises "expected int, variable, or '('" at the end marker. *)
Theorem X3_blank_line (s : pystr) (Hs : forallb is_blank s = true) :
  Parser.parse s
  = Raise (ParseError (str "expected int, variable, or '(' [next token: $]")).
Proof.
  assert (Hi : Parser.init s = Parser.mk [] (Str (str "$")))
    by (apply ParserRuns.init_to, ParserPaths.next_blanks, Hs).
  apply (ParserPaths.parse_raises 11); [unfold Parser.fuel_for; lia|].
  unfold Parser.parse_from; apply ParserPaths.bind_raise; rewrite Hi.
  apply (ParserPaths.assign_fails 1); [reflexivity|].
  apply ParserPaths.factor_fails; reflexivity.
Qed.

Lemma X3_blank_line_witness :
  forallb is_blank (str "  ") = true
  /\ Parser.parse (str "  ")
     = Raise (ParseError (str "expected int, variable, or '(' [next token: $]")).
Proof.
  split; [reflexivity|].
  exact (X3_blank_line (str "  ") eq_refl).
Defined.

(** X4.  A character that is no blank, digit, letter or punctuation, and
    no newline, becomes the token ['#'] followed by its code point, and the
    token stops the parser: a line that starts with such a character raises
    "expected int, variable, or '('" and shows the token. *)
Theorem X4_unknown_character (c : char) (rest : pystr)
        (Hb : is_blank c = false) (Hd : is_digit c = false)
        (Hl : is_letter c = false) (Hp : is_punct c = false)
        (Hn : is_dot c = true) :
  Lexer.next (c :: rest) = (Str (str "#" ++ str_of_N c), rest)
  /\ Parser.parse (c :: rest)
     = Raise (ParseError (str "expected int, variable, or '(' [next token: #"
                          ++ str_of_N c ++ str "]")).
Proof.
  pose proof (LexerFacts.next_other c rest Hb Hd Hl Hp Hn) as Hx.
  split; [exact Hx|].
  assert (Hi : Parser.init (c :: rest)
               = Parser.mk rest (Str (str "#" ++ str_of_N c)))
    by (apply ParserRuns.init_to, Hx).
  apply (ParserPaths.parse_raises 11);
    [unfold Parser.fuel_for; simpl List.length; lia|].
  unfold Parser.parse_from; apply ParserPaths.bind_raise; rewrite Hi.
  apply (ParserPaths.assign_fails 1); [reflexivity|].
  rewrite ParserPaths.factor_fails by reflexivity.
  reflexivity.
Qed.

Lemma X4_unknown_character_witness :
  is_blank 35%N = false /\ is_digit 35%N = false /\ is_letter 35%N = false
  /\ is_punct 35%N = false /\ is_dot 35%N = true
  /\ Lexer.next (str "# 1") = (Str (str "#35"), str " 1").
Proof.
  repeat (split; [reflexivity|]).
  exact (proj1 (X4_unknown_character 35%N (str " 1")
                  eq_refl eq_refl eq_refl eq_refl eq_refl)).
Defined.

(** X5.  Two operands in a row are no expression: for every two names [x]
    and [y], the line [x y] raises "extraneous input" and shows [y], the
    token that [parse] found where the line should end. *)
Theorem X5_extraneous_input (x y : pystr)
        (Hx : isalpha x = true) (Hy : isalpha y = true) :
  Parser.parse (x ++ str " " ++ y)
  = Raise (ParseError (str "extraneous input [next token: " ++ y ++ str "]")).
Proof.
  set (p0 := Parser.mk (str " " ++ y) (Str x)).
  assert (Hi : Parser.init (x ++ str " " ++ y) = p0)
    by (apply ParserRuns.init_to, LexerFacts.next_name;
        [exact Hx|reflexivity]).
  assert (Hadv : advance p0 = Parser.mk [] (Str y)).
  { apply ParserRuns.advance_to.
    change (str " " ++ y) with (32%N :: y).
    rewrite LexerFacts.next_blank by reflexivity.
    apply ParserPaths.next_last_name, Hy. }
  assert (Ha : Parser.parse_assign 11 p0 = Ok (Str x, Parser.mk [] (Str y))).
  { apply ParserRuns.assign_level.
    - apply (ParserRuns.climb 1).
      + apply ParserRuns.name_no_prefix_op, Hx.
      + rewrite ParserRuns.factor_atom by (simpl; rewrite Hx; reflexivity).
        rewrite Hadv; reflexivity.
      + apply ParserPaths.name_not_continues, Hy.
    - simpl Parser.tok.
      rewrite (ParserRuns.name_is_not y "=" Hy eq_refl); apply andb_false_r. }
  apply (ParserPaths.parse_raises 11); [unfold Parser.fuel_for; lia|].
  rewrite Hi; unfold Parser.parse_from, Parser.bind, Parser.tok_is.
  rewrite Ha; cbv beta iota; cbn [Parser.tok].
  rewrite (ParserRuns.name_is_not y "$" Hy eq_refl); reflexivity.
Qed.

Lemma X5_extraneous_input_witness :
  isalpha (str "a") = true /\ isalpha (str "b") = true
  /\ Parser.parse (str "a b")
     = Raise (ParseError (str "extraneous input [next token: b]")).
Proof.
  split; [reflexivity|split; [reflexivity|]].
  exact (X5_extraneous_input (str "a") (str "b") eq_refl eq_refl).
Defined.

(** X6.  An opening parenthesis that nothing closes: for every name [x], the
    line [(x] raises "missing ')'" at the end marker. *)
Theorem X6_missing_parenthesis (x : pystr) (Hx : isalpha x = true) :
  Parser.parse (str "(" ++ x)
  = Raise (ParseError (str "missing ')' [next token: $]")).
Proof.
  set (p0 := Parser.mk x (Str (str "("))).
  assert (Hi : Parser.init (str "(" ++ x) = p0)
    by (apply ParserRuns.init_to; destruct x; [discriminate|reflexivity]).
  assert (Hadv : advance p0 = Parser.mk [] (Str x))
    by (apply ParserRuns.advance_to, ParserPaths.next_last_name, Hx).
  apply (ParserPaths.parse_raises 22); [unfold Parser.fuel_for; lia|].
  rewrite Hi; unfold Parser.parse_from; apply ParserPaths.bind_raise.
  apply (ParserPaths.assign_fails 12); [reflexivity|].
  apply (ParserPaths.factor_unclosed 11 p0 (Str x)
           (Parser.mk [] (Str (str "$")))); [reflexivity| |reflexivity].
  rewrite Hadv; apply (ParserPaths.assign_last_name 0), Hx.
Qed.

Lemma X6_missing_parenthesis_witness :
  isalpha (str "a") = true
  /\ Parser.parse (str "(a")
     = Raise (ParseError (str "missing ')' [next token: $]")).
Proof.
  split; [reflexivity|].
  exact (X6_missing_parenthesis (str "a") eq_refl).
Defined.

(** X7.  An operator that no operand follows: for every name [x], the line
    [x +] raises "expected int, variable, or '('" at the end marker. *)
Theorem X7_missing_operand (x : pystr) (Hx : isalpha x = true) :
  Parser.parse (x ++ str " +")
  = Raise (ParseError (str "expected int, variable, or '(' [next token: $]")).
Proof.
  set (p0 := Parser.mk (str " +") (Str x)).
  set (p1 := Parser.mk [] (Str (str "+"))).
  assert (Hi : Parser.init (x ++ str " +") = p0)
    by (apply ParserRuns.init_to, LexerFacts.next_name;
        [exact Hx|reflexivity]).
  assert (Hm : Parser.parse_mul 5 p0 = Ok (Str x, p1)).
  { apply (ParserPaths.climb_mul 2).
    - apply ParserPaths.name_not_in; [exact Hx|reflexivity].
    - rewrite ParserRuns.factor_atom by (simpl; rewrite Hx; reflexivity).
      reflexivity.
    - reflexivity. }
  apply (ParserPaths.parse_raises 12); [unfold Parser.fuel_for; lia|].
  rewrite Hi; unfold Parser.parse_from; apply ParserPaths.bind_raise.
  rewrite ParserFacts.parse_assign_eq; apply ParserPaths.bind_raise.
  apply (ParserPaths.ternary_fails_from_add 6).
  { apply (ParserRuns.name_is_not x "!" Hx); reflexivity. }
  rewrite ParserFacts.parse_add_eq; unfold Parser.bind at 1; rewrite Hm.
  rewrite ParserPaths.add_loop_turn by reflexivity.
  apply ParserPaths.bind_raise.
  apply (ParserPaths.mul_fails 1); [reflexivity|].
  apply ParserPaths.factor_fails; reflexivity.
Qed.

Lemma X7_missing_operand_witness :
  isalpha (str "a") = true
  /\ Parser.parse (str "a +")
     = Raise (ParseError
                (str "expected int, variable, or '(' [next token: $]")).
Proof.
  split; [reflexivity|].
  exact (X7_missing_operand (str "a") eq_refl).
Defined.

(** X8.  A ternary operator without its colon: for every two names [x] and
    [y], the line [x ? y] raises "missing ':' in ternary expression" at the
    end marker. *)
Theorem X8_missing_colon (x y : pystr)
        (Hx : isalpha x = true) (Hy : isalpha y = true) :
  Parser.parse (x ++ str " ? " ++ y)
  = Raise (ParseError
             (str "missing ':' in ternary expression [next token: $]")).
Proof.
  set (p0 := Parser.mk (str " ? " ++ y) (Str x)).
  set (p1 := Parser.mk (str " " ++ y) (Str (str "?"))).
  assert (Hi : Parser.init (x ++ str " ? " ++ y) = p0)
    by (apply ParserRuns.init_to, LexerFacts.next_name;
        [exact Hx|reflexivity]).
  assert (H01 : advance p0 = p1) by (apply ParserRuns.advance_to; reflexivity).
  assert (H12 : advance p1 = Parser.mk [] (Str y)).
  { apply ParserRuns.advance_to.
    change (str " " ++ y) with (32%N :: y).
    rewrite LexerFacts.next_blank by reflexivity.
    apply ParserPaths.next_last_name, Hy. }
  assert (Ho : Parser.parse_or 11 p0 = Ok (Str x, p1)).
  { apply (ParserPaths.climb_or 3).
    - apply ParserRuns.name_no_prefix_op, Hx.
    - rewrite ParserRuns.factor_atom by (simpl; rewrite Hx; reflexivity).
      rewrite H01; reflexivity.
    - reflexivity. }
  apply (ParserPaths.parse_raises 13); [unfold Parser.fuel_for; lia|].
  rewrite Hi; unfold Parser.parse_from; apply ParserPaths.bind_raise.
  rewrite ParserFacts.parse_assign_eq; apply ParserPaths.bind_raise.
  apply (ParserPaths.ternary_without_colon 11 p0 p1
           (Parser.mk [] (Str (str "$"))) (Str x) (Str y));
    [exact Ho|reflexivity| |reflexivity].
  rewrite H12; apply (ParserPaths.assign_last_name 0), Hy.
Qed.

Lemma X8_missing_colon_witness :
  isalpha (str "a") = true /\ isalpha (str "b") = true
  /\ Parser.parse (str "a ? b")
     = Raise (ParseError
                (str "missing ':' in ternary expression [next token: $]")).
Proof.
  split; [reflexivity|split; [reflexivity|]].
  exact (X8_missing_colon (str "a") (str "b") eq_refl eq_refl).
Defined.

(** X9.  Sums and differences of two numerals.  [m + n] evaluates to the sum.
    [m - n] parses to the node [-] with two operands, but [eval] tests
    [op == '-'] for the unary minus first and has no case for the binary
    one: the node evaluates to the opposite of its left operand, and the
    right operand is not evaluated, whatever it is. *)
Theorem X9_sum_and_difference (m n : N) (a b : obj) (V : dict) :
  Parser.parse (str_of_N m ++ str " + " ++ str_of_N n)
  = Ok (node "+" (Int (Z.of_N m)) (Int (Z.of_N n)))
  /\ calc (str_of_N m ++ str " + " ++ str_of_N n) V
     = (Ok (Z.of_N m + Z.of_N n), V)
  /\ Parser.parse (str_of_N m ++ str " - " ++ str_of_N n)
     = Ok (node "-" (Int (Z.of_N m)) (Int (Z.of_N n)))
  /\ calc (str_of_N m ++ str " - " ++ str_of_N n) V = (Ok (- Z.of_N m), V)
  /\ eval (node "-" a b) V = eval (Tuple [Str (str "-"); a]) V.
Proof.
  assert (Hp : forall opc, opc = 43%N \/ opc = 45%N ->
               Parser.parse (str_of_N m ++ [32%N; opc; 32%N] ++ str_of_N n)
               = Ok (Tuple [Str [opc]; Int (Z.of_N m); Int (Z.of_N n)])).
  { intros opc Hop; rewrite <- (int_str_of_N m), <- (int_str_of_N n).
    apply ParserPaths.parse_sum;
      auto using str_of_N_not_empty, str_of_N_digits. }
  assert (Hplus : Parser.parse (str_of_N m ++ str " + " ++ str_of_N n)
                  = Ok (node "+" (Int (Z.of_N m)) (Int (Z.of_N n))))
    by exact (Hp 43%N (or_introl eq_refl)).
  assert (Hminus : Parser.parse (str_of_N m ++ str " - " ++ str_of_N n)
                   = Ok (node "-" (Int (Z.of_N m)) (Int (Z.of_N n))))
    by exact (Hp 45%N (or_intror eq_refl)).
  split; [exact Hplus|split; [|split; [exact Hminus|split]]].
  - unfold calc; rewrite Hplus; reflexivity.
  - unfold calc; rewrite Hminus; reflexivity.
  - reflexivity.
Qed.

(** X10.  The ternary operator evaluates its condition, then one branch
    only: the second operand when the condition is not 0, the third when it
    is, in the table the condition left behind.  For all names [x], [y] and
    [z], the line [x ? y : z] parses to the node [?:] of the three names. *)
Theorem X10_ternary (c a b : obj) (v : Z) (V V' : dict) (x y z : pystr)
        (Hc : eval c V = (Ok v, V'))
        (Hx : isalpha x = true) (Hy : isalpha y = true)
        (Hz : isalpha z = true) :
  eval (Tuple [Str (str "?:"); c; a; b]) V
  = (if v =? 0 then eval b V' else eval a V')
  /\ Parser.parse (x ++ str " ? " ++ y ++ str " : " ++ z)
     = Ok (Tuple [Str (str "?:"); Str x; Str y; Str z]).
Proof.
  split.
  { simpl; unfold bind; rewrite Hc; destruct (v =? 0); reflexivity. }
  set (p0 := Parser.mk (str " ? " ++ y ++ str " : " ++ z) (Str x)).
  set (p1 := Parser.mk (str " " ++ y ++ str " : " ++ z) (Str (str "?"))).
  set (p2 := Parser.mk (str " : " ++ z) (Str y)).
  set (p3 := Parser.mk (str " " ++ z) (Str (str ":"))).
  set (p4 := Parser.mk [] (Str z)).
  set (p5 := Parser.mk [] (Str (str "$"))).
  assert (Hi : Parser.init (x ++ str " ? " ++ y ++ str " : " ++ z) = p0)
    by (apply ParserRuns.init_to, LexerFacts.next_name;
        [exact Hx|reflexivity]).
  assert (H01 : advance p0 = p1) by (apply ParserRuns.advance_to; reflexivity).
  assert (H12 : advance p1 = p2).
  { apply ParserRuns.advance_to.
    change (str " " ++ y ++ str " : " ++ z)
      with (32%N :: y ++ str " : " ++ z).
    rewrite LexerFacts.next_blank by reflexivity.
    apply LexerFacts.next_name; [exact Hy|reflexivity]. }
  assert (H23 : advance p2 = p3) by (apply ParserRuns.advance_to; reflexivity).
  assert (H34 : advance p3 = p4).
  { apply ParserRuns.advance_to.
    change (str " " ++ z) with (32%N :: z).
    rewrite LexerFacts.next_blank by reflexivity.
    apply ParserPaths.next_last_name, Hz. }
  assert (Ho : Parser.parse_or 11 p0 = Ok (Str x, p1)).
  { apply (ParserPaths.climb_or 3).
    - apply ParserRuns.name_no_prefix_op, Hx.
    - rewrite ParserRuns.factor_atom by (simpl; rewrite Hx; reflexivity).
      rewrite H01; reflexivity.
    - reflexivity. }
  assert (Hy2 : Parser.parse_assign 11 p2 = Ok (Str y, p3)).
  { apply ParserRuns.assign_level; [|apply andb_false_r].
    apply (ParserRuns.climb 1).
    - apply ParserRuns.name_no_prefix_op, Hy.
    - rewrite ParserRuns.factor_atom by (simpl; rewrite Hy; reflexivity).
      rewrite H23; reflexivity.
    - reflexivity. }
  assert (Hz4 : Parser.parse_assign 11 p4 = Ok (Str z, p5))
    by apply (ParserPaths.assign_last_name 0), Hz.
  apply (ParserFacts.parse_enough 13 _ _ p5);
    [unfold Parser.fuel_for; lia|].
  rewrite Hi; apply ParserRuns.parse_from_end; [|reflexivity].
  apply ParserRuns.assign_level; [|reflexivity].
  apply (ParserPaths.ternary_complete 11 p0 p1 p3 p5 (Str x) (Str y) (Str z));
    [exact Ho|reflexivity|rewrite H12; exact Hy2|reflexivity|
     rewrite H34; exact Hz4].
Qed.

Lemma X10_ternary_witness :
  eval (Int 0) [] = (Ok 0, [])
  /\ isalpha (str "a") = true /\ isalpha (str "b") = true
  /\ isalpha (str "c") = true
  /\ eval (Tuple [Str (str "?:"); Int 0; node "/" (Int 1) (Int 0); Int 20]) []
     = (Ok 20, []).
Proof.
  repeat (split; [reflexivity|]).
  exact (proj1 (X10_ternary (Int 0) (node "/" (Int 1) (Int 0)) (Int 20) 0 [] []
                  (str "a") (str "b") (str "c")
                  eq_refl eq_refl eq_refl eq_refl)).
Defined.

(** X11.  Comparisons and the logical not have the values 1 and 0 and no
    other: when the operands have the values [x] and [y], each of the six
    comparison nodes is 1 if the relation holds between [x] and [y] and 0 if
    not, and the node [!] is 1 if [x] is 0 and 0 if not. *)
Theorem X11_truth_values (a b : obj) (x y : Z) (V V1 V2 : dict)
        (Ha : eval a V = (Ok x, V1)) (Hb : eval b V1 = (Ok y, V2)) :
  eval (node "==" a b) V = (Ok (if x =? y then 1 else 0), V2)
  /\ eval (node "!=" a b) V = (Ok (if x =? y then 0 else 1), V2)
  /\ eval (node "<" a b) V = (Ok (if x <? y then 1 else 0), V2)
  /\ eval (node "<=" a b) V = (Ok (if x <=? y then 1 else 0), V2)
  /\ eval (node ">" a b) V = (Ok (if y <? x then 1 else 0), V2)
  /\ eval (node ">=" a b) V = (Ok (if y <=? x then 1 else 0), V2)
  /\ eval (Tuple [Str (str "!"); a]) V = (Ok (if x =? 0 then 1 else 0), V1).
Proof.
  repeat split; simpl; unfold bind, ret, arith; rewrite Ha; try rewrite Hb;
    simpl; try reflexivity.
  - destruct (x =? y); reflexivity.
  - rewrite Z.gtb_ltb; reflexivity.
  - rewrite Z.geb_leb; reflexivity.
Qed.

Lemma X11_truth_values_witness :
  eval (Int 5) [] = (Ok 5, []) /\ eval (Int 3) [] = (Ok 3, [])
  /\ eval (node ">" (Int 5) (Int 3)) [] = (Ok 1, []).
Proof.
  split; [reflexivity|split; [reflexivity|]].
  exact (proj1 (proj2 (proj2 (proj2 (proj2
           (X11_truth_values (Int 5) (Int 3) 5 3 [] [] [] eq_refl eq_refl)))))).
Defined.

(** X12.  An operator that [eval] does not know is rejected after its
    operands are evaluated: when the operator is none of the fourteen, the
    node of two operands with values raises [ValueError] for the operator,
    in the table the operands left behind. *)
Theorem X12_unknown_operator (op a b : obj) (x y : Z) (V V1 V2 : dict)
        (He : early op = false) (Hk : obj_in op eager_ops = false)
        (Ha : eval a V = (Ok x, V1)) (Hb : eval b V1 = (Ok y, V2)) :
  eval (Tuple [op; a; b]) V = (Raise (ValueError op), V2).
Proof.
  split_early He.
  unfold eager_ops, obj_in, toks in Hk; simpl in Hk.
  repeat (apply orb_false_iff in Hk as [? Hk]).
  cbn [eval]; rewrite_ops; unfold bind, ret; rewrite Ha, Hb.
  unfold is_op; simpl.
  repeat match goal with
         | H : obj_eqb op _ = false |- _ => rewrite H; clear H
         end.
  reflexivity.
Qed.

Lemma X12_unknown_operator_witness :
  early (Str (str "~")) = false /\ obj_in (Str (str "~")) eager_ops = false
  /\ eval (node "=" (Str (str "x")) (Int 1)) [] = (Ok 1, [(Str (str "x"), 1)])
  /\ eval (Int 2) [(Str (str "x"), 1)] = (Ok 2, [(Str (str "x"), 1)])
  /\ eval (node "~" (node "=" (Str (str "x")) (Int 1)) (Int 2)) []
     = (Raise (ValueError (Str (str "~"))), [(Str (str "x"), 1)]).
Proof.
  repeat (split; [reflexivity|]).
  exact (X12_unknown_operator (Str (str "~"))
           (node "=" (Str (str "x")) (Int 1)) (Int 2) 1 2
           [] [(Str (str "x"), 1)] [(Str (str "x"), 1)]
           eq_refl eq_refl eq_refl eq_refl).
Defined.

(** X13.  Only assignments write the table: evaluating a tree of the grammar
    that holds no node [=] leaves [VARS] as it was, whether the evaluation
    returns or raises. *)
Theorem X13_only_assignment_writes (e : obj) (V : dict)
        (Hwf : wf e = true) (Hna : assigns e = false) :
  snd (eval e V) = V.
Proof. exact (eval_pure e Hwf Hna V). Qed.

Lemma X13_only_assignment_writes_witness :
  wf (node "/" (Str (str "x")) (Int 0)) = true
  /\ assigns (node "/" (Str (str "x")) (Int 0)) = false
  /\ snd (eval (node "/" (Str (str "x")) (Int 0)) [(Str (str "x"), 7)])
     = [(Str (str "x"), 7)].
Proof.
  split; [reflexivity|split; [reflexivity|]].
  exact (X13_only_assignment_writes (node "/" (Str (str "x")) (Int 0))
           [(Str (str "x"), 7)] eq_refl eq_refl).
Defined.

(** X14.  Spaces and tabs in front of a line change nothing: the line parses
    to the same tree or raises the same [ParseError], and [calc] does the
    same to the table. *)
Theorem X14_leading_blanks (blanks line : pystr) (V : dict)
        (Hb : forallb is_blank blanks = true) :
  Parser.parse (blanks ++ line) = Parser.parse line
  /\ calc (blanks ++ line) V = calc line V.
Proof.
  pose proof (ParserPaths.parse_skip_blanks blanks line Hb) as H.
  split; [exact H|unfold calc; rewrite H; reflexivity].
Qed.

Lemma X14_leading_blanks_witness :
  forallb is_blank [32%N; 9%N] = true
  /\ Parser.parse ([32%N; 9%N] ++ str "x = 1")
     = Parser.parse (str "x = 1").
Proof.
  split; [reflexivity|].
  exact (proj1 (X14_leading_blanks [32%N; 9%N] (str "x = 1") [] eq_refl)).
Defined.

(** X15.  [Lexer.next] reads forward: what it leaves is the end of the text
    it was given, and it has taken at least one character unless it returns
    the end marker.  Once it returns the end marker it returns it again, the
    cursor where it was: at the end of the text or in front of a newline. *)
Theorem X15_lexer_progress (l : pystr) (x : obj) (l' : pystr)
        (H : Lexer.next l = (x, l')) :
  (exists m, l = m ++ l' /\ (x <> Str (str "$") -> m <> []))
  /\ (x = Str (str "$") ->
      Lexer.next l' = (x, l') /\ (l' = [] \/ exists r, l' = 10%N :: r)).
Proof.
  split.
  - destruct (LexerMore.next_takes_prefix l x l' H) as (m & E & Hm & _).
    exists m; split; [exact E|].
    intros Hx; apply Hm.
    destruct (obj_eqb x (Str (str "$"))) eqn:Ex; [|reflexivity].
    elim Hx; exact (obj_eqb_Str _ _ Ex).
  - intros ->; split; [exact (LexerMore.next_end_again l l' H)|].
    exact (LexerMore.next_end_where l l' H).
Qed.

Lemma X15_lexer_progress_witness :
  Lexer.next (str "  ab+1") = (Str (str "ab"), str "+1")
  /\ exists m, str "  ab+1" = m ++ str "+1"
               /\ (Str (str "ab") <> Str (str "$") -> m <> []).
Proof.
  split; [reflexivity|].
  exact (proj1 (X15_lexer_progress (str "  ab+1") (Str (str "ab")) (str "+1")
                  eq_refl)).
Defined.

(** X16.  The lexer makes six kinds of token and no other: an [int] that is
    not negative, a name of ASCII letters, one of the four two-character
    operators, one character of punctuation, ['#'] with the code point of a
    character that is none of these, and the end marker. *)
Theorem X16_token_kinds (l : pystr) : token (fst (Lexer.next l)).
Proof. exact (LexerMore.next_token l). Qed.

(** X17.  A natural number written in decimal reads back as itself, as
    long as the numeral has no more digits than the conversion allows
    (4300, zeros in front counted): the lexer makes the digits of [n], up
    to the first character that is no digit, the token [n]; with zeros in
    front, [calc] returns [n] and leaves the table alone. *)
Theorem X17_numeral_round_trip (n : N) (zeros : nat) (rest : pystr) (V : dict)
        (Hr : stops is_digit rest = true)
        (Hfit : (zeros + List.length (str_of_N n) <= 4300)%nat) :
  Lexer.next (str_of_N n ++ rest) = (Int (Z.of_N n), rest)
  /\ calc (repeat 48%N zeros ++ str_of_N n) V = (Ok (Z.of_N n), V).
Proof.
  split.
  - rewrite <- (int_str_of_N n).
    apply LexerFacts.next_int;
      auto using str_of_N_not_empty, str_of_N_digits.
  - unfold calc; rewrite ParserRuns.parse_int.
    + rewrite LexerMore.int_leading_zeros, int_str_of_N; reflexivity.
    + intros E; apply app_eq_nil in E as [_ E].
      exact (str_of_N_not_empty n E).
    + rewrite forallb_app, LexerMore.zeros_are_digits, str_of_N_digits.
      reflexivity.
Qed.

Lemma X17_numeral_round_trip_witness :
  stops is_digit (str " + x") = true
  /\ (2 + List.length (str_of_N 42) <= 4300)%nat
  /\ Lexer.next (str_of_N 42 ++ str " + x") = (Int 42, str " + x")
  /\ calc (str "0042") [] = (Ok 42, []).
Proof.
  split; [reflexivity|].
  split; [simpl; lia|].
  exact (X17_numeral_round_trip 42 2 (str " + x") [] eq_refl
           ltac:(simpl; lia)).
Defined.

(** X18.  Parsing undoes printing.  For every tree of the grammar that
    holds no negative integer and stays inside the limits of the interpreter
    (at most 50 levels, at most 4300 digits in an integer), the line that
    writes the tree with each operand between parentheses ([unparse]) parses
    to that tree, so [calc] on the line is [eval] on the tree. *)
Theorem X18_parse_unparse (e : obj) (V : dict)
        (Hwf : wf e = true) (Hn : natural e = true)
        (Hm : modest e = true) :
  Parser.parse (unparse e) = Ok e /\ calc (unparse e) V = eval e V.
Proof.
  pose proof (ParserComplete.parse_unparse e Hwf Hn) as H.
  split; [exact H|unfold calc; rewrite H; reflexivity].
Qed.

Lemma X18_parse_unparse_witness :
  wf (node "-" (Tuple [Str (str "@"); Str (str "x")]) (Int 3)) = true
  /\ natural (node "-" (Tuple [Str (str "@"); Str (str "x")]) (Int 3)) = true
  /\ modest (node "-" (Tuple [Str (str "@"); Str (str "x")]) (Int 3)) = true
  /\ Parser.parse (str "(@(x))-(3)")
     = Ok (node "-" (Tuple [Str (str "@"); Str (str "x")]) (Int 3)).
Proof.
  split; [reflexivity|split; [reflexivity|split; [reflexivity|]]].
  exact (proj1 (X18_parse_unparse
                  (node "-" (Tuple [Str (str "@"); Str (str "x")]) (Int 3))
                  [] eq_refl eq_refl eq_refl)).
Defined.

(** X19.  The trees that [parse] returns are the trees of the grammar
    without a negative integer.  Every tree it returns is one: the integers
    of a tree are tokens of the lexer, and a negative number is only ever
    the node of a unary minus.  And every such tree inside the limits of the
    interpreter (at most 50 levels, at most 4300 digits in an integer) is
    returned for some line. *)
Theorem X19_parse_image (e : obj) :
  ((exists line, Parser.parse line = Ok e) ->
   wf e = true /\ natural e = true)
  /\ (wf e = true -> natural e = true -> modest e = true ->
      exists line, Parser.parse line = Ok e).
Proof.
  split.
  - intros [line H]; split.
    + pose proof (ParserSound.parse_sound line) as Hs.
      rewrite H in Hs; exact Hs.
    + exact (ParserNatural.parse_natural line e H).
  - intros Hwf Hn _; exists (unparse e).
    exact (ParserComplete.parse_unparse e Hwf Hn).
Qed.

(** X20.  The table holds names only: when every key of [VARS] is a name
    before [calc(line)], every key is a name after it, whether [calc]
    returns or raises. *)
Theorem X20_table_of_names (line : pystr) (V : dict)
        (HV : names V = true) :
  names (snd (calc line V)) = true.
Proof.
  apply (calc_keeps (fun V => names V = true)); [|exact HV].
  intros V0 x v Hx H0; apply names_set; assumption.
Qed.

Lemma X20_table_of_names_witness :
  names [] = true /\ names (snd (calc (str "x = (y = 2) / 0") [])) = true.
Proof.
  split; [reflexivity|].
  exact (X20_table_of_names (str "x = (y = 2) / 0") [] eq_refl).
Defined.

(** X23.  The lexer makes no token of the end of a line that is spaces and
    tabs, or spaces and tabs and then a newline followed by any text: with
    such an end the line parses to the same tree, or raises the same
    [ParseError], and [calc] does the same.  So what follows the first
    newline of a line is never read. *)
Theorem X23_ignored_end (line tail : pystr) (V : dict)
        (Ht : ignored tail = true) :
  Parser.parse (line ++ tail) = Parser.parse line
  /\ calc (line ++ tail) V = calc line V.
Proof.
  pose proof (LexerTail.parse_ignores line tail Ht) as H.
  split; [exact H|unfold calc; rewrite H; reflexivity].
Qed.

Lemma X23_ignored_end_witness :
  ignored (32%N :: 10%N :: str "+ 1 )") = true
  /\ calc (str "x = 2" ++ 32%N :: 10%N :: str "+ 1 )") []
     = calc (str "x = 2") [].
Proof.
  split; [reflexivity|].
  exact (proj2 (X23_ignored_end (str "x = 2") (32%N :: 10%N :: str "+ 1 )")
                  [] eq_refl)).
Defined.

(** X24.  An expression changes the variables it assigns and no other: when
    no assignment of the tree has the name [u] for its target, [VARS.get(u)]
    is after the evaluation what it was before, whether [eval] returns or
    raises. *)
Theorem X24_other_variables_kept (e : obj) (u : pystr) (V : dict)
        (default : Z) (Hwf : wf e = true)
        (Hu : assigns_only (fun x => negb (pystr_eqb x u)) e = true) :
  dict_get (snd (eval e V)) (Str u) default = dict_get V (Str u) default.
Proof.
  apply (eval_keeps
           (fun V' => dict_get V' (Str u) default = dict_get V (Str u) default)
           (fun x => negb (pystr_eqb x u))); try assumption; [|reflexivity].
  intros V0 x v _ Hx H0; rewrite dict_get_set_other; [exact H0|].
  intros ->; rewrite pystr_eqb_refl in Hx; discriminate.
Qed.

Lemma X24_other_variables_kept_witness :
  wf (node "/" (node "=" (Str (str "x")) (Int 1)) (Int 0)) = true
  /\ assigns_only (fun x => negb (pystr_eqb x (str "y")))
                  (node "/" (node "=" (Str (str "x")) (Int 1)) (Int 0)) = true
  /\ dict_get (snd (eval (node "/" (node "=" (Str (str "x")) (Int 1)) (Int 0))
                         [(Str (str "y"), 7)]))
              (Str (str "y")) 0
     = 7.
Proof.
  split; [reflexivity|split; [reflexivity|]].
  exact (X24_other_variables_kept
           (node "/" (node "=" (Str (str "x")) (Int 1)) (Int 0)) (str "y")
           [(Str (str "y"), 7)] 0 eq_refl eq_refl).
Defined.

(** X25.  The table of the binary operators.  Between two binary operators,
    the operand in the middle goes to the one that binds tighter ([|], then
    [&], then the comparisons, then [+ -], then [* / %], then [^], the
    tightest); between two operators of one level it goes to the first,
    except for [|], [&] and [^], which group to the right.  The operands are
    any three expressions between parentheses. *)
Theorem X25_precedence_table (s1 s2 : string) (a b c : obj)
        (H1 : obj_in (Str (str s1)) binary_ops = true)
        (H2 : obj_in (Str (str s2)) binary_ops = true)
        (Ha : wf a && natural a = true) (Hb : wf b && natural b = true)
        (Hc : wf c && natural c = true) :
  Parser.parse (paren (unparse a) ++ str s1 ++ paren (unparse b) ++ str s2
                ++ paren (unparse c))
  = Ok (grouped s1 s2 a b c).
Proof.
  apply andb_true_iff in Ha as [Ha Hna], Hb as [Hb Hnb], Hc as [Hc Hnc].
  apply ParserTable.parse_two_operators;
    auto using ParserComplete.round_all.
Qed.

Lemma X25_precedence_table_witness :
  obj_in (Str (str "<")) binary_ops = true
  /\ obj_in (Str (str "<")) binary_ops = true
  /\ wf (Int 1) && natural (Int 1) = true
  /\ wf (Int 2) && natural (Int 2) = true
  /\ wf (Int 3) && natural (Int 3) = true
  /\ Parser.parse (str "(1)<(2)<(3)")
     = Ok (node "<" (node "<" (Int 1) (Int 2)) (Int 3)).
Proof.
  repeat (split; [reflexivity|]).
  exact (X25_precedence_table "<" "<" (Int 1) (Int 2) (Int 3)
           eq_refl eq_refl eq_refl eq_refl eq_refl).
Defined.

(** X26.  A prefix operator in front of a binary one.  [-] and [@] apply
    to the operand next to them, unless the binary operator is [^]: they
    apply to the whole power.  [!] applies to the whole comparison, sum,
    product or power that follows it, and to the operand next to it only in
    front of [&] and [|]. *)
Theorem X26_prefix_operators (u s : string) (a b : obj)
        (Hu : obj_in (Str (str u)) unary_ops = true)
        (Hs : obj_in (Str (str s)) binary_ops = true)
        (Ha : wf a && natural a = true) (Hb : wf b && natural b = true) :
  Parser.parse (str u ++ paren (unparse a) ++ str s ++ paren (unparse b))
  = Ok (grouped_prefix u s a b).
Proof.
  apply andb_true_iff in Ha as [Ha Hna], Hb as [Hb Hnb].
  apply ParserTable.parse_prefix_operator;
    auto using ParserComplete.round_all.
Qed.

Lemma X26_prefix_operators_witness :
  obj_in (Str (str "-")) unary_ops = true
  /\ obj_in (Str (str "^")) binary_ops = true
  /\ wf (Int 2) && natural (Int 2) = true
  /\ wf (Int 4) && natural (Int 4) = true
  /\ Parser.parse (str "-(2)^(4)")
     = Ok (Tuple [Str (str "-"); node "^" (Int 2) (Int 4)]).
Proof.
  repeat (split; [reflexivity|]).
  exact (X26_prefix_operators "-" "^" (Int 2) (Int 4)
           eq_refl eq_refl eq_refl eq_refl).
Defined.

(** X27.  A prefix operator after a binary one.  [-] and [@] start the
    right operand of every binary operator but [^]; [!] starts the right
    operand of [&] and [|] only.  Elsewhere the line is no expression:
    [parse] raises "expected int, variable, or '('" and shows the prefix
    operator, so that a power with a negative exponent or a sum with a
    negated term needs parentheses. *)
Theorem X27_prefix_after_binary (s u : string) (a b : obj)
        (Hs : obj_in (Str (str s)) binary_ops = true)
        (Hu : obj_in (Str (str u)) unary_ops = true)
        (Ha : wf a && natural a = true) (Hb : wf b && natural b = true) :
  Parser.parse (paren (unparse a) ++ str s ++ str u ++ paren (unparse b))
  = right_prefix s u a b.
Proof.
  apply andb_true_iff in Ha as [Ha Hna], Hb as [Hb Hnb].
  apply ParserTable.parse_right_prefix;
    auto using ParserComplete.round_all.
Qed.

Lemma X27_prefix_after_binary_witness :
  obj_in (Str (str "^")) binary_ops = true
  /\ obj_in (Str (str "-")) unary_ops = true
  /\ wf (Int 2) && natural (Int 2) = true
  /\ wf (Int 1) && natural (Int 1) = true
  /\ Parser.parse (str "(2)^-(1)")
     = Raise (ParseError
                (str "expected int, variable, or '(' [next token: -]")).
Proof.
  repeat (split; [reflexivity|]).
  exact (X27_prefix_after_binary "^" "-" (Int 2) (Int 1)
           eq_refl eq_refl eq_refl eq_refl).
Defined.
